(** * postgres-scout-mcp: the request dispatch and safety-gating pipeline

    A shallow embedding of the sanitizer ([utils/sanitize.ts]), the rate
    limiter ([utils/rate-limiter.ts]), the pooled execution primitive
    ([utils/database.ts]), the tool registry ([tools/index.ts]) and the
    dispatcher with its catalog conversion ([server/setup.ts]), followed by
    the properties proved about them.

    Conventions of the embedding.
    - A JavaScript string is a [string]; its characters stand for the code
      units 0..255.  Case mapping is the one of the letters among them:
      a-z and the accented letters 224-254 (247, the division sign, apart)
      against their capitals 32 below, and the sharp s (223), which
      [toUpperCase] writes SS.  The micro sign (181) and the y with
      diaeresis (255) have capitals above 255, which no string of the model
      holds: they are kept, and what is proved of an upper-cased text is
      proved of texts without them.  White space is the set shared by
      [trim] and [\s] (code units 9-13, 32 and 160).
    - A JavaScript number is a [JS.number]: a rational, [NaN] or one of the
      two infinities.  Millisecond clock readings are integers ([Z]).
    - [throw] is the [Err] result; an [Error] object is its message.
    - Effects (pool, statements sent, logger calls, clock) are threaded
      through an explicit [World]; what the database and the pool answer is
      given by an environment record. *)

From Stdlib Require Import ZArith QArith Qround List String Ascii Bool Lia.
From Stdlib Require Import DecimalString DecimalPos.
Import ListNotations.

Set Warnings "-register-all".

Open Scope string_scope.
Open Scope list_scope.
Open Scope Z_scope.

(* ===================================================================== *)
(** * JavaScript primitives used by the code *)
(* ===================================================================== *)

Module JS.

(** ** Characters *)

Definition code (c : ascii) : N := N_of_ascii c.

Definition in_range (lo hi : N) (c : ascii) : bool :=
  ((lo <=? code c) && (code c <=? hi))%N.

(** [WhiteSpace] and [LineTerminator] code units below 256: TAB, LF, VT, FF,
    CR, SP and NBSP.  [String.prototype.trim] and the class [\s] use the
    same set. *)
Definition isSpace (c : ascii) : bool :=
  in_range 9 13 c || (code c =? 32)%N || (code c =? 160)%N.

Definition isDigit (c : ascii) : bool := in_range 48 57 c.
Definition isUpper (c : ascii) : bool := in_range 65 90 c.
Definition isLower (c : ascii) : bool := in_range 97 122 c.

(** The class [\w]: [[A-Za-z0-9_]]. *)
Definition isWord (c : ascii) : bool :=
  isUpper c || isLower c || isDigit c || (code c =? 95)%N.

(** The accented letters of the code units 128..255 and their capitals. *)
Definition isLatin1Lower (c : ascii) : bool :=
  in_range 224 246 c || in_range 248 254 c.
Definition isLatin1Upper (c : ascii) : bool :=
  in_range 192 214 c || in_range 216 222 c.

(** The capital of a letter that has one among the code units 0..255; the
    other code units are kept.  This is also the canonical form under which
    the [i] flag compares two code units. *)
Definition upperChar (c : ascii) : ascii :=
  if isLower c || isLatin1Lower c then ascii_of_N (code c - 32) else c.

(** The code units whose upper-case form is a text of code units 0..255:
    all but the micro sign and the y with diaeresis. *)
Definition upperCaseInRange (c : ascii) : bool :=
  negb ((code c =? 181)%N || (code c =? 255)%N).

(** ** Strings *)

(** [s.toUpperCase()]; the sharp s becomes SS. *)
Fixpoint toUpperCase (s : string) : string :=
  match s with
  | EmptyString => EmptyString
  | String c s' =>
      if (code c =? 223)%N then String "S" (String "S" (toUpperCase s'))
      else String (upperChar c) (toUpperCase s')
  end.

Definition isEmpty (s : string) : bool :=
  match s with EmptyString => true | String _ _ => false end.

(** [!s] on a string: only the empty string is falsy. *)
Definition falsy_string (s : string) : bool := isEmpty s.

Fixpoint trimStart (s : string) : string :=
  match s with
  | EmptyString => EmptyString
  | String c s' => if isSpace c then trimStart s' else s
  end.

Fixpoint trimEnd (s : string) : string :=
  match s with
  | EmptyString => EmptyString
  | String c s' =>
      let r := trimEnd s' in
      if isSpace c && isEmpty r then EmptyString else String c r
  end.

Definition trim (s : string) : string := trimStart (trimEnd s).

Definition length (s : string) : Z := Z.of_nat (String.length s).

(** [s.indexOf(c)] for a one-character needle: the first index, or [-1]. *)
Fixpoint indexOf (c : ascii) (s : string) : Z :=
  match s with
  | EmptyString => -1
  | String d s' =>
      if Ascii.eqb d c then 0
      else let i := indexOf c s' in if i <? 0 then -1 else i + 1
  end.

Fixpoint includes (c : ascii) (s : string) : bool :=
  match s with
  | EmptyString => false
  | String d s' => Ascii.eqb d c || includes c s'
  end.

(** [s.split(/\s+/)]: the pieces between maximal runs of white space.  A
    leading or trailing run leaves an empty first or last piece, and the
    array is never empty. *)
Fixpoint split_ws_from (skipping : bool) (cur : string) (s : string)
  : list string :=
  match s with
  | EmptyString => [cur]
  | String c s' =>
      if isSpace c then
        if skipping then split_ws_from true cur s'
        else cur :: split_ws_from true EmptyString s'
      else split_ws_from false (cur ++ String c EmptyString) s'
  end.

Definition split_ws (s : string) : list string :=
  split_ws_from false EmptyString s.

(** [a.join(sep)] *)
Fixpoint join (sep : string) (l : list string) : string :=
  match l with
  | [] => EmptyString
  | [x] => x
  | x :: rest => x ++ sep ++ join sep rest
  end.

(** [a.includes(x)] on an array of strings *)
Definition array_includes (l : list string) (x : string) : bool :=
  existsb (String.eqb x) l.

(** Empty or white space only. *)
Fixpoint isBlank (s : string) : bool :=
  match s with
  | EmptyString => true
  | String c s' => isSpace c && isBlank s'
  end.

(** The first white-space-delimited token: the characters before the first
    white space. *)
Fixpoint first_token (s : string) : string :=
  match s with
  | EmptyString => EmptyString
  | String c s' => if isSpace c then EmptyString
                   else String c (first_token s')
  end.

(** Some [c] occurs at a position that is not the last one. *)
Fixpoint occurs_before_end (c : ascii) (s : string) : bool :=
  match s with
  | EmptyString => false
  | String d s' =>
      (Ascii.eqb d c && negb (isEmpty s')) || occurs_before_end c s'
  end.

(** [s.substring(0, n)] for a non-negative integer [n] *)
Fixpoint substring0 (n : nat) (s : string) : string :=
  match n, s with
  | O, _ => EmptyString
  | _, EmptyString => EmptyString
  | S n', String c s' => String c (substring0 n' s')
  end.

(** ** Numbers *)

Inductive number : Type :=
| Num (q : Q)
| NaN
| PosInf
| NegInf.

Definition ofZ (z : Z) : number := Num (inject_Z z).

(** [!!n]: [0] and [NaN] are falsy. *)
Definition truthy (n : number) : bool :=
  match n with
  | Num q => negb (Qeq_bool q 0)
  | NaN => false
  | PosInf | NegInf => true
  end.

(** [Number.isFinite(n)] *)
Definition isFinite (n : number) : bool :=
  match n with Num _ => true | _ => false end.

(** [a < b]; any comparison with [NaN] is false. *)
Definition ltb (a b : number) : bool :=
  match a, b with
  | NaN, _ | _, NaN => false
  | Num p, Num q => negb (Qle_bool q p)
  | NegInf, NegInf => false
  | NegInf, _ => true
  | _, NegInf => false
  | PosInf, _ => false
  | Num _, PosInf => true
  end.

Definition gtb (a b : number) : bool := ltb b a.

(** [a === b] on numbers *)
Definition num_eqb (a b : number) : bool :=
  match a, b with
  | Num p, Num q => Qeq_bool p q
  | PosInf, PosInf | NegInf, NegInf => true
  | _, _ => false
  end.

(** [a || b] on optional numbers ([None] is [undefined]). *)
Definition or_default (a : option number) (b : number) : number :=
  match a with
  | Some n => if truthy n then n else b
  | None => b
  end.

(** [a ?? b], for comparison with [or_default]. *)
Definition nullish_default (a : option number) (b : number) : number :=
  match a with
  | Some n => n
  | None => b
  end.

(** Rounding towards zero, as [ToIntegerOrInfinity] does on finite values. *)
Definition truncate (q : Q) : Z :=
  if Qle_bool 0 q then Qfloor q else Qceiling q.

(** [l.slice(0, end)]: [end] is converted with [ToIntegerOrInfinity]
    ([NaN] becomes 0), a negative [end] counts from the end of the array,
    and the result is clamped to the array. *)
Definition slice0 {A : Type} (l : list A) (e : number) : list A :=
  let len := Z.of_nat (List.length l) in
  let final :=
    match e with
    | NaN => 0
    | NegInf => 0
    | PosInf => len
    | Num q =>
        let r := truncate q in
        if r <? 0 then Z.max (len + r) 0 else Z.min r len
    end in
  firstn (Z.to_nat final) l.

(** [Math.ceil(x / 1000)] for an integer [x] *)
Definition ceil_div_1000 (x : Z) : Z := - ((- x) / 1000).

(** ** Regular expressions

    The fragment used by the sanitizer: character classes, literals,
    sequence, alternation, repetition and the assertions [^], [$] and [\b].
    None of the patterns carries the [g] flag, so [test] has no state. *)

Inductive re : Type :=
| Eps
| Chr (c : ascii)                 (* a literal character *)
| Class (p : ascii -> bool)       (* [\s], [\w], [\d], [[...]] *)
| Seq (a b : re)
| Alt (a b : re)
| Star (a : re)
| Bol                             (* ^ *)
| Eol                             (* $ *)
| WordB.                          (* \b *)

Record RegExp : Type := mkRegExp { source : re; ignoreCase : bool }.

Definition Plus (a : re) : re := Seq a (Star a).
Definition Opt (a : re) : re := Alt a Eps.

Fixpoint Lit (s : string) : re :=
  match s with
  | EmptyString => Eps
  | String c EmptyString => Chr c
  | String c s' => Seq (Chr c) (Lit s')
  end.

Fixpoint Seqs (l : list re) : re :=
  match l with
  | [] => Eps
  | [r] => r
  | r :: rest => Seq r (Seqs rest)
  end.

Definition chr_matches (ic : bool) (pat c : ascii) : bool :=
  if ic then Ascii.eqb (upperChar pat) (upperChar c) else Ascii.eqb pat c.

Definition isWordOpt (c : option ascii) : bool :=
  match c with Some c => isWord c | None => false end.

(** A matcher configuration: the character before the current position (for
    [^] and [\b]) and the rest of the input. *)
Definition config : Type := option ascii * list ascii.

(** [star_from step n frontier]: all configurations reachable from
    [frontier] by at most [n] rounds of [step], keeping only rounds that
    consume input. *)
Fixpoint star_from (step : config -> list config) (n : nat)
  (frontier : list config) : list config :=
  match n with
  | O => frontier
  | S n' =>
      frontier ++
      star_from step n'
        (flat_map
           (fun cf =>
              filter (fun cf' =>
                        (List.length (snd cf') <? List.length (snd cf))%nat)
                     (step cf))
           frontier)
  end.

(** [ends ic r (prev, s)]: every configuration in which a match of [r]
    starting at the head of [s] can end. *)
Fixpoint ends (ic : bool) (r : re) (cf : config) : list config :=
  match r with
  | Eps => [cf]
  | Chr p =>
      match snd cf with
      | c :: s' => if chr_matches ic p c then [(Some c, s')] else []
      | [] => []
      end
  | Class p =>
      match snd cf with
      | c :: s' => if p c then [(Some c, s')] else []
      | [] => []
      end
  | Seq a b => flat_map (ends ic b) (ends ic a cf)
  | Alt a b => ends ic a cf ++ ends ic b cf
  | Star a => star_from (ends ic a) (List.length (snd cf)) [cf]
  | Bol => match fst cf with None => [cf] | Some _ => [] end
  | Eol => match snd cf with [] => [cf] | _ :: _ => [] end
  | WordB =>
      if xorb (isWordOpt (fst cf)) (isWordOpt (hd_error (snd cf)))
      then [cf] else []
  end.

Definition matches_at (ic : bool) (r : re) (cf : config) : bool :=
  match ends ic r cf with [] => false | _ :: _ => true end.

(** The search of [RegExp.prototype.test]: a match may start anywhere. *)
Fixpoint search (ic : bool) (r : re) (prev : option ascii) (s : list ascii)
  : bool :=
  matches_at ic r (prev, s) ||
  match s with
  | [] => false
  | c :: s' => search ic r (Some c) s'
  end.

Definition test (rx : RegExp) (s : string) : bool :=
  search (ignoreCase rx) (source rx) None (list_ascii_of_string s).

(** The configurations a repeated class runs through. *)
Fixpoint class_run (g : ascii -> bool) (p : option ascii) (l : list ascii)
  : list config :=
  (p, l) ::
  match l with
  | c :: l' => if g c then class_run g (Some c) l' else []
  | [] => []
  end.

(** Every code unit of the model. *)
Definition all_ascii : list ascii := map ascii_of_nat (seq 0 256).

(** Every character a match of [r] can consume satisfies [P]. *)
Fixpoint within_alphabet (ic : bool) (P : ascii -> bool) (r : re) : bool :=
  match r with
  | Eps | Bol | Eol | WordB => true
  | Chr p => forallb (fun c => implb (chr_matches ic p c) (P c)) all_ascii
  | Class g => forallb (fun c => implb (g c) (P c)) all_ascii
  | Seq a b | Alt a b => within_alphabet ic P a && within_alphabet ic P b
  | Star a => within_alphabet ic P a
  end.

(** The pattern is a sequence that closes with [$]. *)
Fixpoint ends_with_eol (r : re) : bool :=
  match r with
  | Eol => true
  | Seq _ b => ends_with_eol b
  | _ => false
  end.

(** From [cf] the matcher gets to [cf'] over characters that satisfy
    [P]. *)
Definition reaches (P : ascii -> bool) (cf cf' : config) : Prop :=
  exists u, snd cf = u ++ snd cf' /\ forallb P u = true.

Definition isLetter (c : ascii) : bool := isUpper c || isLower c.

(** Template-literal rendering of an integer: [`${n}`]. *)
Definition show_int (z : Z) : string := NilZero.string_of_int (Z.to_int z).

(** Rendering of [NaN] or an integer. *)
Definition show_int_or_NaN (z : option Z) : string :=
  match z with Some z => show_int z | None => "NaN" end.

(** Rendering of [w / 1000] for an integer [w]: the exact decimal, at most
    three fractional digits, no trailing zero (the form JavaScript prints
    while [w] stays below 10^15 in absolute value). *)
Definition show_thousandths (w : Z) : string :=
  let a := Z.abs w in
  let ip := a / 1000 in
  let fp := a mod 1000 in
  let d1 := show_int (fp / 100) in
  let d2 := show_int ((fp / 10) mod 10) in
  let d3 := show_int (fp mod 10) in
  (if w <? 0 then "-" else EmptyString) ++ show_int ip ++
  (if fp =? 0 then EmptyString
   else if negb (fp mod 10 =? 0) then "." ++ d1 ++ d2 ++ d3
   else if negb ((fp / 10) mod 10 =? 0) then "." ++ d1 ++ d2
   else "." ++ d1).

(** ** Values: what [any] ranges over in arguments, rows and log data *)

Inductive value : Type :=
| VUndefined
| VNull
| VBool (b : bool)
| VNum (n : number)
| VStr (s : string)
| VArr (items : list value)
| VObj (fields : list (string * value)).

Definition VOptNum (n : option number) : value :=
  match n with Some n => VNum n | None => VNull end.

(** ** Exceptions: a call returns normally or throws an [Error] *)

Inductive result (A : Type) : Type :=
| Ok (a : A)
| Err (message : string).

Arguments Ok {A} a.
Arguments Err {A} message.

Definition isErr {A : Type} (r : result A) : bool :=
  match r with Ok _ => false | Err _ => true end.

(** [(s.match(/c/g) || []).length] for a one-character pattern *)
Fixpoint count_char (c : ascii) (s : string) : Z :=
  match s with
  | EmptyString => 0
  | String d s' => (if Ascii.eqb d c then 1 else 0) + count_char c s'
  end.

(** ** Further string and number primitives *)

Definition lowerChar (c : ascii) : ascii :=
  if isUpper c || isLatin1Upper c then ascii_of_N (code c + 32) else c.

(** [s.toLowerCase()] *)
Fixpoint toLowerCase (s : string) : string :=
  match s with
  | EmptyString => EmptyString
  | String c s' => String (lowerChar c) (toLowerCase s')
  end.

(** [s.startsWith(c)] for a one-character prefix *)
Definition startsWith (c : ascii) (s : string) : bool :=
  match s with
  | String d _ => Ascii.eqb d c
  | EmptyString => false
  end.

Definition digit_value (c : ascii) : Z := Z.of_N (code c) - 48.

(** The longest prefix of decimal digits, read as a number; [acc] is the
    value read so far, [None] while no digit has been seen. *)
Fixpoint read_digits (acc : option Z) (s : string) : option Z :=
  match s with
  | EmptyString => acc
  | String c s' =>
      if isDigit c then
        read_digits
          (Some (10 * match acc with Some a => a | None => 0 end
                 + digit_value c)) s'
      else acc
  end.

(** [parseInt(s, 10)]: leading white space is skipped, one sign is read,
    then the longest run of digits; [None] is [NaN].  The value is the
    exact integer, which is what JavaScript returns for the
    [safe_integer]s; above 2^53 JavaScript rounds to a double, and what is
    proved of a parsed value is proved of safe integers or of values the
    code then checks against bounds far below 2^53. *)
Definition parseInt (s : string) : option Z :=
  match trimStart s with
  | EmptyString => None
  | String c r =>
      if Ascii.eqb c "-" then
        match read_digits None r with Some z => Some (- z) | None => None end
      else if Ascii.eqb c "+" then read_digits None r
      else read_digits None (String c r)
  end.

(** The integers a JavaScript number holds exactly. *)
Definition safe_integer (z : Z) : Prop := Z.abs z < 2 ^ 53.

(** [a <= b] on numbers *)
Definition leb (a b : number) : bool :=
  match a, b with
  | NaN, _ | _, NaN => false
  | Num p, Num q => Qle_bool p q
  | NegInf, _ => true
  | _, PosInf => true
  | _, NegInf => false
  | PosInf, _ => false
  end.

(** [a - b] on numbers *)
Definition minus (a b : number) : number :=
  match a, b with
  | NaN, _ | _, NaN => NaN
  | Num p, Num q => Num (p - q)
  | PosInf, PosInf | NegInf, NegInf => NaN
  | PosInf, _ => PosInf
  | NegInf, _ => NegInf
  | Num _, PosInf => NegInf
  | Num _, NegInf => PosInf
  end.

(** [s.substring(0, end)]: [end] is converted with [ToIntegerOrInfinity]
    and clamped to [0, s.length]. *)
Definition substring_to (e : number) (s : string) : string :=
  let len := length s in
  let final :=
    match e with
    | NaN | NegInf => 0
    | PosInf => len
    | Num q => Z.max 0 (Z.min (truncate q) len)
    end in
  substring0 (Z.to_nat final) s.

(** [s] begins with [p]. *)
Fixpoint prefixb (p s : list ascii) : bool :=
  match p, s with
  | [], _ => true
  | _ :: _, [] => false
  | a :: p', b :: s' => Ascii.eqb a b && prefixb p' s'
  end.

(** [p] occurs somewhere in [s]. *)
Fixpoint occursb (p s : list ascii) : bool :=
  prefixb p s ||
  match s with
  | [] => false
  | _ :: s' => occursb p s'
  end.

(** [hay.includes(needle)] on strings *)
Definition contains (needle hay : string) : bool :=
  occursb (list_ascii_of_string needle) (list_ascii_of_string hay).

(** [needle] occurs in [hay] up to the case of the letters, as the [i]
    flag compares them. *)
Definition contains_ci (needle hay : string) : bool :=
  occursb (map upperChar (list_ascii_of_string needle))
          (map upperChar (list_ascii_of_string hay)).

(** Every character of [s] satisfies [p]. *)
Fixpoint all_chars (p : ascii -> bool) (s : string) : bool :=
  match s with
  | EmptyString => true
  | String c s' => p c && all_chars p s'
  end.

(** [s.replace(/c/g, r)] for a one-character pattern *)
Fixpoint replace_char (c : ascii) (r : string) (s : string) : string :=
  match s with
  | EmptyString => EmptyString
  | String d s' =>
      if Ascii.eqb d c then r ++ replace_char c r s'
      else String d (replace_char c r s')
  end.

End JS.

(* ===================================================================== *)
(** * utils/sanitize.ts *)
(* ===================================================================== *)

Module Sanitize.
Import JS.

Inductive DatabaseMode : Type := ReadOnly | ReadWrite.

(** The string a mode is written as in messages. *)
Definition mode_string (m : DatabaseMode) : string :=
  match m with ReadOnly => "read-only" | ReadWrite => "read-write" end.

Definition ALLOWED_READ_ONLY_OPERATIONS : list string :=
  ["SELECT"; "EXPLAIN"; "WITH"].

Definition ALLOWED_READ_WRITE_OPERATIONS : list string :=
  ["SELECT"; "INSERT"; "UPDATE"; "DELETE";
   "CREATE"; "ALTER"; "DROP"; "TRUNCATE";
   "VACUUM"; "ANALYZE"; "REINDEX";
   "EXPLAIN"; "WITH"].

Definition ws : re := Class isSpace.
Definition wordc : re := Class isWord.
Definition digit : re := Class isDigit.

Definition dquote : ascii := ascii_of_N 34.

(** [/;\s*KW\b/i] *)
Definition stacked (kw : string) : RegExp :=
  mkRegExp (Seqs [Chr ";"; Star ws; Lit kw; WordB]) true.

(** [/UNION\s+(ALL\s+)?SELECT/i] *)
Definition union_select : RegExp :=
  mkRegExp (Seqs [Lit "UNION"; Plus ws; Opt (Seq (Lit "ALL") (Plus ws));
                  Lit "SELECT"]) true.

Definition DANGEROUS_PATTERNS : list RegExp :=
  [ stacked "DROP";
    mkRegExp (Seqs [Chr ";"; Star ws; Lit "DELETE"; Plus ws; Lit "FROM";
                    WordB]) true;
    stacked "TRUNCATE";
    stacked "ALTER";
    stacked "INSERT";
    stacked "UPDATE";
    stacked "CREATE";
    stacked "GRANT";
    stacked "REVOKE";
    mkRegExp (Lit "--") false;
    mkRegExp (Lit "/*") false;
    mkRegExp (Lit "*/") false;
    stacked "EXEC";
    stacked "EXECUTE";
    mkRegExp (Lit "xp_") true;
    union_select ].

Definition WHERE_DANGEROUS_PATTERNS : list RegExp :=
  [ mkRegExp (Seqs [Chr ";"; Star ws; wordc]) true;
    mkRegExp (Lit "--") false;
    mkRegExp (Lit "/*") false;
    mkRegExp (Lit "*/") false;
    union_select;
    mkRegExp (Seqs [Lit "INTO"; Plus ws; Alt (Lit "OUT") (Lit "DUMP");
                    Lit "FILE"]) true;
    mkRegExp (Seqs [Lit "LOAD_FILE"; Star ws; Chr "("]) true ].

(** The [for (const pattern of ...) if (pattern.test(s)) throw] loops. *)
Definition any_pattern (ps : list RegExp) (s : string) : bool :=
  existsb (fun p => test p s) ps.

Definition allowedOps (mode : DatabaseMode) : list string :=
  match mode with
  | ReadOnly => ALLOWED_READ_ONLY_OPERATIONS
  | ReadWrite => ALLOWED_READ_WRITE_OPERATIONS
  end.

(** [trimmedQuery.split(/\s+/)[0].toUpperCase()] *)
Definition operation_of (trimmedQuery : string) : string :=
  toUpperCase (hd EmptyString (split_ws trimmedQuery)).

Definition operation_not_allowed (operation : string) (mode : DatabaseMode)
  : string :=
  "Operation " ++ operation ++ " not allowed in " ++ mode_string mode ++
  " mode. Allowed operations: " ++ join ", " (allowedOps mode).

(** The last test of [sanitizeQuery]:
    [s.includes(';') && s.indexOf(';') !== s.length - 1]. *)
Definition multiple_statements (trimmedQuery : string) : bool :=
  includes ";" trimmedQuery &&
  negb (indexOf ";" trimmedQuery =? JS.length trimmedQuery - 1).

Definition sanitizeQuery (query : string) (mode : DatabaseMode)
  : result unit :=
  let trimmedQuery := trim query in
  if falsy_string trimmedQuery then Err "Query cannot be empty"
  else
    let operation := operation_of trimmedQuery in
    if negb (array_includes (allowedOps mode) operation) then
      Err (operation_not_allowed operation mode)
    else if any_pattern DANGEROUS_PATTERNS trimmedQuery then
      Err "Potentially dangerous query pattern detected"
    else if multiple_statements trimmedQuery then
      Err "Multiple statements not allowed. Use single queries only."
    else Ok tt.

Definition validateUserWhereClause (where_ : string) : result unit :=
  if falsy_string where_ || falsy_string (trim where_) then
    Err "WHERE clause cannot be empty"
  else
    let trimmed := trim where_ in
    if any_pattern WHERE_DANGEROUS_PATTERNS trimmed then
      Err "Potentially dangerous pattern detected in WHERE clause"
    else
      let openParens := count_char "(" trimmed in
      let closeParens := count_char ")" trimmed in
      if negb (openParens =? closeParens) then
        Err "Unbalanced parentheses in WHERE clause"
      else
        let singleQuotes := count_char "'" trimmed in
        if negb (singleQuotes mod 2 =? 0) then
          Err "Unbalanced quotes in WHERE clause"
        else Ok tt.

Definition validateCondition (condition : string) : result unit :=
  if falsy_string condition || falsy_string (trim condition) then
    Err "Condition cannot be empty"
  else
    let trimmed := trim condition in
    if any_pattern WHERE_DANGEROUS_PATTERNS trimmed then
      Err "Potentially dangerous pattern detected in condition"
    else
      let openParens := count_char "(" trimmed in
      let closeParens := count_char ")" trimmed in
      if negb (openParens =? closeParens) then
        Err "Unbalanced parentheses in condition"
      else Ok tt.

(** [/^\d+\s+(second|minute|hour|day|week|month|year)s?$/i] *)
Definition validIntervalPattern : RegExp :=
  mkRegExp
    (Seqs [Bol; Plus digit; Plus ws;
           Alt (Lit "second") (Alt (Lit "minute") (Alt (Lit "hour")
           (Alt (Lit "day") (Alt (Lit "week") (Alt (Lit "month")
           (Lit "year"))))));
           Opt (Chr "s"); Eol]) true.

Definition validateInterval (interval : string) : result unit :=
  if falsy_string interval || falsy_string (trim interval) then
    Err "Interval cannot be empty"
  else if negb (test validIntervalPattern (trim interval)) then
    Err ("Invalid interval format: " ++ String dquote interval ++
         String dquote
           ". Use format like " ++ String dquote "7 days" ++
         String dquote ", " ++ String dquote "2 hours" ++
         String dquote ", " ++ String dquote "30 minutes" ++
         String dquote EmptyString)
  else Ok tt.

(** The characters an interval can be made of. *)
Definition interval_char (c : ascii) : bool :=
  isDigit c || isSpace c || isLetter c.

(** The characters an ORDER BY list can be made of. *)
Definition orderBy_char (c : ascii) : bool :=
  isWord c || isSpace c || Ascii.eqb c "," || Ascii.eqb c dquote.

(** [/^[\w"]+(\s+(ASC|DESC))?(,\s*[\w"]+(\s+(ASC|DESC))?)*$/i] *)
Definition validOrderPattern : RegExp :=
  let column := Plus (Class (fun c => isWord c || Ascii.eqb c dquote)) in
  let direction := Opt (Seq (Plus ws) (Alt (Lit "ASC") (Lit "DESC"))) in
  mkRegExp
    (Seqs [Bol; column; direction;
           Star (Seqs [Chr ","; Star ws; column; direction]); Eol]) true.

Definition validateOrderBy (orderBy : string) : result unit :=
  if falsy_string orderBy || falsy_string (trim orderBy) then Ok tt
  else
    let trimmed := trim orderBy in
    if any_pattern WHERE_DANGEROUS_PATTERNS trimmed then
      Err "Potentially dangerous pattern detected in ORDER BY clause"
    else if negb (test validOrderPattern trimmed) then
      Err "Invalid ORDER BY format. Use column names with optional ASC/DESC"
    else Ok tt.

(** ** Identifiers, WHERE builder, integer parsing *)

Definition isIdentStart (c : ascii) : bool :=
  isLower c || isUpper c || (code c =? 95)%N.

(** [/^[a-zA-Z_][a-zA-Z0-9_]*$/] *)
Definition identifierPattern : RegExp :=
  mkRegExp
    (Seqs [Bol; Class isIdentStart;
           Star (Class (fun c => isLower c || isUpper c || isDigit c
                                 || (code c =? 95)%N));
           Eol]) false.

(** A letter or underscore followed by letters, digits and underscores. *)
Definition isIdentifier (s : string) : bool :=
  match s with
  | EmptyString => false
  | String c rest => isIdentStart c && all_chars isWord rest
  end.

Definition invalid_identifier (identifier : string) : string :=
  "Invalid identifier: " ++ identifier ++
  ". Must contain only letters, numbers, and underscores, and start with a letter or underscore.".

Definition sanitizeIdentifier (identifier : string) : result string :=
  if negb (test identifierPattern identifier) then
    Err (invalid_identifier identifier)
  else Ok identifier.

Record SchemaTable : Type := { st_schema : string; st_table : string }.

(** The object literal evaluates [sanitizeIdentifier(schema)] first. *)
Definition sanitizeSchemaTable (schema table : string) : result SchemaTable :=
  match sanitizeIdentifier schema with
  | Err e => Err e
  | Ok s =>
      match sanitizeIdentifier table with
      | Err e => Err e
      | Ok t => Ok {| st_schema := s; st_table := t |}
      end
  end.

Definition twice_quote : string := String dquote (String dquote EmptyString).

(** The identifier between double quotes, each double quote inside it
    written twice. *)
Definition escapeIdentifier (identifier : string) : string :=
  String dquote
    (replace_char dquote twice_quote identifier ++ String dquote EmptyString).

Record WhereClause : Type := { clause : string; where_params : list value }.

(** One round of the [forEach] of [buildWhereClause], on the arrays
    [params] and [clauses] built so far. *)
Definition where_step (acc : list value * list string)
  (entry : string * value) : result (list value * list string) :=
  let (params, clauses) := acc in
  let (key, v) := entry in
  match sanitizeIdentifier key with
  | Err e => Err e
  | Ok identifier =>
      let params' := params ++ [v] in
      Ok (params',
          clauses ++
          [(escapeIdentifier identifier ++ " = $" ++
            show_int (Z.of_nat (List.length params')))%string])
  end.

Fixpoint where_loop (acc : list value * list string)
  (entries : list (string * value)) : result (list value * list string) :=
  match entries with
  | [] => Ok acc
  | entry :: rest =>
      match where_step acc entry with
      | Err e => Err e
      | Ok acc' => where_loop acc' rest
      end
  end.

(** [buildWhereClause(conditions)]; [conditions] is given as the list
    [Object.entries] walks. *)
Definition buildWhereClause (conditions : list (string * value))
  : result WhereClause :=
  match where_loop ([], []) conditions with
  | Err e => Err e
  | Ok (params, clauses) =>
      Ok {| clause := match clauses with
                      | [] => EmptyString
                      | _ :: _ => ("WHERE " ++ join " AND " clauses)%string
                      end;
            where_params := params |}
  end.

(** The conditions [key = $i], numbered from [i], with the keys between
    double quotes. *)
Fixpoint placeholders (i : Z) (entries : list (string * value))
  : list string :=
  match entries with
  | [] => []
  | (key, _) :: rest =>
      (String dquote (key ++ String dquote EmptyString) ++ " = $" ++
       show_int i)%string :: placeholders (i + 1) rest
  end.

(** [parseIntSafe(value, defaultValue)] *)
Definition parseIntSafe (v : string) (defaultValue : Z) : Z :=
  match parseInt v with
  | None => defaultValue
  | Some parsed => parsed
  end.

End Sanitize.

(* ===================================================================== *)
(** * utils/rate-limiter.ts *)
(* ===================================================================== *)

Module RateLimiter.
Import JS.

Record t : Type := mk {
  requests : list Z;
  maxRequests : Z;
  windowMs : Z;
  enabled : bool
}.

(** [new RateLimiter(maxRequests, windowMs, enabled)] *)
Definition create (maxRequests windowMs : Z) (enabled : bool) : t :=
  mk [] maxRequests windowMs enabled.

Definition set_requests (rl : t) (rs : list Z) : t :=
  mk rs (maxRequests rl) (windowMs rl) (enabled rl).

(** [Math.ceil((oldestRequest + windowMs - now) / 1000)]; [requests[0]] of
    an empty array is [undefined] and the result is [NaN] ([None]). *)
Definition resetIn (oldestRequest : option Z) (windowMs now : Z) : option Z :=
  match oldestRequest with
  | Some o => Some (ceil_div_1000 (o + windowMs - now))
  | None => None
  end.

Definition exceeded_message (maxRequests windowMs : Z) (reset : option Z)
  : string :=
  "Rate limit exceeded. Maximum " ++ show_int maxRequests ++
  " requests per " ++ show_thousandths windowMs ++ " seconds. " ++
  "Try again in " ++ show_int_or_NaN reset ++ " seconds.".

(** [checkLimit()], with the reading of [Date.now()] as a parameter. *)
Definition checkLimit (now : Z) (rl : t) : result unit * t :=
  if negb (enabled rl) then (Ok tt, rl)
  else
    let windowStart := now - windowMs rl in
    let kept := filter (fun timestamp => timestamp >? windowStart)
                       (requests rl) in
    if Z.of_nat (List.length kept) >=? maxRequests rl then
      let oldestRequest := hd_error kept in
      (Err (exceeded_message (maxRequests rl) (windowMs rl)
              (resetIn oldestRequest (windowMs rl) now)),
       set_requests rl kept)
    else (Ok tt, set_requests rl (kept ++ [now])).

Definition reset (rl : t) : t := set_requests rl [].

Record Stats : Type := { current : Z; max : Z; stats_windowMs : Z }.

Definition getStats (now : Z) (rl : t) : Stats :=
  let windowStart := now - windowMs rl in
  {| current := Z.of_nat (List.length
                   (filter (fun timestamp => timestamp >? windowStart)
                           (requests rl)));
     max := maxRequests rl;
     stats_windowMs := windowMs rl |}.

(** A sequence of [checkLimit()] calls at the given clock readings; the
    outcome of each call, and the limiter afterwards. *)
Fixpoint run (nows : list Z) (rl : t) : list (result unit) * t :=
  match nows with
  | [] => ([], rl)
  | now :: rest =>
      let (r, rl1) := checkLimit now rl in
      let (rs, rl2) := run rest rl1 in
      (r :: rs, rl2)
  end.


(** Clock readings that never go back: [prev <= t1 <= t2 <= ...]. *)
Fixpoint chrono (prev : Z) (nows : list Z) : bool :=
  match nows with
  | [] => true
  | now :: rest => (prev <=? now) && chrono now rest
  end.

(** What can be done to a limiter: a [checkLimit()] at a clock reading, or
    a [reset()]. *)
Inductive Op : Type := Check (now : Z) | Reset.

Fixpoint apply_ops (ops : list Op) (rl : t) : t :=
  match ops with
  | [] => rl
  | Check now :: rest => apply_ops rest (snd (checkLimit now rl))
  | Reset :: rest => apply_ops rest (reset rl)
  end.

(** A limiter configured with [(N, W, e)] that holds no more timestamps
    than its limit allows. *)
Definition bounded (N W : Z) (e : bool) (rl : t) : Prop :=
  maxRequests rl = N /\ windowMs rl = W /\ enabled rl = e /\
  Z.of_nat (List.length (requests rl)) <= Z.max 0 N.


End RateLimiter.

(* ===================================================================== *)
(** * utils/logger.ts, as seen by its callers *)
(* ===================================================================== *)

Module Logger.
Import JS.

Inductive Level : Type := debug | info | warn | error.

(** One call [logger.log(level, tool, message, data)].  Whether the entry
    reaches the files is decided inside the logger from its configured
    level; the callers only make the call. *)
Record LogEntry : Type := {
  level : Level;
  tool : string;
  message : string;
  data : value
}.

Definition is_warn (e : LogEntry) : bool :=
  match level e with warn => true | _ => false end.

Definition is_error (e : LogEntry) : bool :=
  match level e with error => true | _ => false end.

(** The name under which [debug()], [info()], [warn()] and [error()] pass
    their level. *)
Definition level_name (l : Level) : string :=
  match l with
  | debug => "debug" | info => "info" | warn => "warn" | error => "error"
  end.

(** Names the [priorities] object answers through [Object.prototype]. *)
Definition inherited_names : list string :=
  ["constructor"; "__defineGetter__"; "__defineSetter__"; "hasOwnProperty";
   "__lookupGetter__"; "__lookupSetter__"; "isPrototypeOf";
   "propertyIsEnumerable"; "toString"; "valueOf"; "__proto__";
   "toLocaleString"].

(** [priorities[level] ?? 1]; [None] stands for the inherited members,
    which are not numbers and compare false with every number. *)
Definition getLevelPriority (level : string) : option Z :=
  if String.eqb level "debug" then Some 0
  else if String.eqb level "info" then Some 1
  else if String.eqb level "warn" then Some 2
  else if String.eqb level "error" then Some 3
  else if array_includes inherited_names level then None
  else Some 1.

(** [shouldLog(level)] of a logger configured with [logLevel], which is
    whatever string [LOG_LEVEL] holds. *)
Definition shouldLog (logLevel : string) (l : Level) : bool :=
  match getLevelPriority (level_name l), getLevelPriority logLevel with
  | Some a, Some b => a >=? b
  | _, _ => false
  end.

(** The sinks: [tool-usage.log], [error.log] and the standard error
    stream, one line per entry. *)
Record Files : Type := {
  toolUsage : list LogEntry;
  errorFile : list LogEntry;
  stderr : list LogEntry
}.

Definition no_files : Files :=
  {| toolUsage := []; errorFile := []; stderr := [] |}.

(** [log(level, tool, message, data)], the writes succeeding. *)
Definition log (logLevel : string) (e : LogEntry) (f : Files) : Files :=
  if negb (shouldLog logLevel (level e)) then f
  else
    {| toolUsage := toolUsage f ++ [e];
       errorFile := if is_error e then errorFile f ++ [e] else errorFile f;
       stderr := stderr f ++ [e] |}.

(** A sequence of calls, oldest first. *)
Definition replay (logLevel : string) (calls : list LogEntry) (f : Files)
  : Files :=
  fold_left (fun f e => log logLevel e f) calls f.

End Logger.

(* ===================================================================== *)
(** * utils/database.ts *)
(* ===================================================================== *)

Module Database.
Import JS Sanitize.

Record ServerConfig : Type := {
  mode : DatabaseMode;
  queryTimeout : number;
  maxResultRows : number;
  enableRateLimit : bool;
  rateLimitMaxRequests : Z;
  rateLimitWindowMs : Z
}.

Record QueryOptions : Type := {
  timeout : option number;
  maxRows : option number
}.

(** [options = {}] *)
Definition no_options : QueryOptions :=
  {| timeout := None; maxRows := None |}.

Record QueryParams : Type := {
  query : string;
  params : option (list value);
  options : option QueryOptions
}.

(** The driver's [QueryResult]: [rowCount] is [number | null]. *)
Record QueryResult : Type := {
  rows : list value;
  rowCount : option number;
  fields : list (string * Z)
}.

(** What is sent over a checked-out client. *)
Inductive Statement : Type :=
| SetStatementTimeout (ms : Z)      (* `SET statement_timeout = ${ms}` *)
| Parametrized (text : string) (values : list value).

Inductive PoolEvent : Type := Acquire | Release.

(** The observable state around a call. *)
Record World : Type := {
  clock : Z;                        (* what [Date.now()] returns *)
  checkedOut : Z;                   (* clients currently out of the pool *)
  poolTrace : list PoolEvent;
  sent : list Statement;
  log : list Logger.LogEntry
}.

(** What the pool and the database answer.  Each answer may depend on the
    world it is asked in and comes with the time the wait took. *)
Record Environment : Type := {
  pool_connect : World -> result unit * Z;
  client_query : Statement -> World -> result QueryResult * Z
}.

Definition tick (ms : Z) (w : World) : World :=
  {| clock := clock w + ms; checkedOut := checkedOut w;
     poolTrace := poolTrace w; sent := sent w; log := log w |}.

Definition write_log (lvl : Logger.Level) (tool message : string)
  (data : value) (w : World) : World :=
  {| clock := clock w; checkedOut := checkedOut w;
     poolTrace := poolTrace w; sent := sent w;
     log := log w ++ [ {| Logger.level := lvl; Logger.tool := tool;
                          Logger.message := message;
                          Logger.data := data |} ] |}.

Definition acquire (w : World) : World :=
  {| clock := clock w; checkedOut := checkedOut w + 1;
     poolTrace := poolTrace w ++ [Acquire]; sent := sent w; log := log w |}.

(** [client.release()] *)
Definition release (w : World) : World :=
  {| clock := clock w; checkedOut := checkedOut w - 1;
     poolTrace := poolTrace w ++ [Release]; sent := sent w; log := log w |}.

Definition record_sent (st : Statement) (w : World) : World :=
  {| clock := clock w; checkedOut := checkedOut w;
     poolTrace := poolTrace w; sent := sent w ++ [st]; log := log w |}.

(** Computations that read and change the world and may throw. *)
Definition M (A : Type) : Type := World -> result A * World.

Definition ret {A : Type} (a : A) : M A := fun w => (Ok a, w).
Definition throw {A : Type} (message : string) : M A :=
  fun w => (Err message, w).
Definition bind {A B : Type} (m : M A) (k : A -> M B) : M B :=
  fun w => match m w with
           | (Ok a, w1) => k a w1
           | (Err e, w1) => (Err e, w1)
           end.

Notation "x <- m ;; k" := (bind m (fun x => k))
  (at level 61, m at next level, right associativity).
Notation "m ;;; k" := (bind m (fun _ => k))
  (at level 61, right associativity).

Definition logM (lvl : Logger.Level) (tool message : string) (data : value)
  : M unit :=
  fun w => (Ok tt, write_log lvl tool message data w).

(** [await pool.connect()] *)
Definition connectM (env : Environment) : M unit :=
  fun w =>
    let (r, ms) := pool_connect env w in
    match r with
    | Ok _ => (Ok tt, acquire (tick ms w))
    | Err e => (Err e, tick ms w)
    end.

(** [await client.query(st)] *)
Definition queryM (env : Environment) (st : Statement) : M QueryResult :=
  fun w =>
    let w1 := record_sent st w in
    let (r, ms) := client_query env st w1 in
    (r, tick ms w1).

Definition nowM : M Z := fun w => (Ok (clock w), w).

(** [Math.floor(timeout)] of a finite number *)
Definition floor (n : number) : Z :=
  match n with Num q => Qfloor q | _ => 0 end.

(** [result.rowCount && result.rowCount > maxRows] *)
Definition exceeds (rowCount : option number) (maxRows : number) : bool :=
  match rowCount with
  | Some n => truthy n && gtb n maxRows
  | None => false
  end.

(** The row cap: lines 70-77. *)
Definition cap_rows (result : QueryResult) (maxRows : number)
  : M QueryResult :=
  if exceeds (rowCount result) maxRows then
    logM Logger.warn "query" "Result set exceeds max rows"
      (VObj [("rowCount", VOptNum (rowCount result));
             ("maxRows", VNum maxRows)]) ;;;
    ret {| rows := slice0 (rows result) maxRows;
           rowCount := Some maxRows;
           fields := fields result |}
  else ret result.

(** The [try] block once the client is held. *)
Definition with_client (env : Environment) (query : string)
  (queryParams : list value) (timeout maxRows : number) (startTime : Z)
  : M QueryResult :=
  (if negb (isFinite timeout) || ltb timeout (ofZ 0)
   then throw "Invalid timeout value" else ret tt) ;;;
  queryM env (SetStatementTimeout (floor timeout)) ;;;
  result <- queryM env (Parametrized query queryParams) ;;
  finished <- nowM ;;
  let executionTime := finished - startTime in
  result <- cap_rows result maxRows ;;
  logM Logger.info "query" "Query executed successfully"
    (VObj [("rowCount", VOptNum (rowCount result));
           ("executionTimeMs", VNum (ofZ executionTime))]) ;;;
  ret result.

(** [const timeout = options.timeout || config.queryTimeout] *)
Definition effective_timeout (config : ServerConfig) (p : QueryParams)
  : number :=
  let options := match options p with Some o => o | None => no_options end in
  or_default (timeout options) (queryTimeout config).

(** [const maxRows = options.maxRows || config.maxResultRows] *)
Definition effective_maxRows (config : ServerConfig) (p : QueryParams)
  : number :=
  let options := match options p with Some o => o | None => no_options end in
  or_default (maxRows options) (maxResultRows config).

Definition executeQuery (env : Environment) (config : ServerConfig)
  (p : QueryParams) : M QueryResult :=
  fun w0 =>
    let query := query p in
    let queryParams := match params p with Some l => l | None => [] end in
    match sanitizeQuery query (mode config) with
    | Err e => (Err e, w0)
    | Ok _ =>
        let timeout := effective_timeout config p in
        let maxRows := effective_maxRows config p in
        let w1 :=
          write_log Logger.debug "query" "Executing query"
            (VObj [("query", VStr (substring0 200 query));
                   ("params", VArr queryParams);
                   ("timeout", VNum timeout);
                   ("maxRows", VNum maxRows)]) w0 in
        let startTime := clock w1 in
        (* try *)
        let '(r, client, w2) :=
          match connectM env w1 with
          | (Err e, w) => (Err e, false, w)
          | (Ok _, w) =>
              let (r, w') :=
                with_client env query queryParams timeout maxRows
                  startTime w in
              (r, true, w')
          end in
        (* catch: log and rethrow *)
        let w3 :=
          match r with
          | Ok _ => w2
          | Err e =>
              let executionTime := clock w2 - startTime in
              write_log Logger.error "query" "Query execution failed"
                (VObj [("error", VStr e);
                       ("executionTimeMs", VNum (ofZ executionTime));
                       ("query", VStr (substring0 200 query))]) w2
          end in
        (* finally *)
        let w4 := if client then release w3 else w3 in
        (r, w4)
    end.

(** [process.env]: the value of a variable, if set. *)
Definition ProcessEnv : Type := string -> option string.

(** [process.env.NAME || fallback] *)
Definition env_or (v : option string) (fallback : string) : string :=
  match v with
  | Some s => if isEmpty s then fallback else s
  | None => fallback
  end.

(** The options the pool is built with. *)
Record PoolOptions : Type := {
  max : Z;
  min : Z;
  idleTimeoutMillis : Z;
  connectionTimeoutMillis : Z
}.

Definition pool_options (penv : ProcessEnv) : PoolOptions :=
  {| max := parseIntSafe (env_or (penv "PGMAXPOOLSIZE") "10") 10;
     min := parseIntSafe (env_or (penv "PGMINPOOLSIZE") "2") 2;
     idleTimeoutMillis :=
       parseIntSafe (env_or (penv "PGIDLETIMEOUT") "10000") 10000;
     connectionTimeoutMillis := 5000 |}.

(** [createDatabaseConnection(config, logger)]: the pool is built and one
    client is taken and given back. *)
Definition createDatabaseConnection (penv : ProcessEnv) (env : Environment)
  (config : ServerConfig) : M (PoolOptions * ServerConfig) :=
  fun w =>
    match connectM env w with
    | (Ok _, w1) =>
        (Ok (pool_options penv, config),
         release (write_log Logger.info "database"
                    "Database connection established" VUndefined w1))
    | (Err e, w1) =>
        (Err ("Database connection failed: " ++ e),
         write_log Logger.error "database" "Failed to connect to database"
           (VObj [("error", VStr e)]) w1)
    end.

(** [testConnection(pool)]: the [catch] returns [false] without releasing
    the client. *)
Definition testConnection (env : Environment) (w : World) : bool * World :=
  match connectM env w with
  | (Err _, w1) => (false, w1)
  | (Ok _, w1) =>
      match queryM env (Parametrized "SELECT 1" []) w1 with
      | (Ok _, w2) => (true, release w2)
      | (Err _, w2) => (false, w2)
      end
  end.

(** ** Vocabulary for the properties *)

(** A variable that is unset, or set to the empty string. *)
Definition unset (penv : ProcessEnv) (name : string) : Prop :=
  penv name = None \/ penv name = Some "".

(** The last call made on the logger. *)
Definition last_entry (w : World) : option Logger.LogEntry :=
  last (map Some (log w)) None.

(** The pool hands out a client whenever asked. *)
Definition always_connects (env : Environment) : Prop :=
  forall w, fst (pool_connect env w) = Ok tt.

(** The pool refuses every request for a client, with the error [e]. *)
Definition never_connects (env : Environment) (e : string) : Prop :=
  forall w, fst (pool_connect env w) = Err e.

(** The database fails statement [st] with the error [e]. *)
Definition fails (env : Environment) (st : Statement) (e : string) : Prop :=
  forall w, fst (client_query env st w) = Err e.

(** The database executes statement [st] without error. *)
Definition accepts (env : Environment) (st : Statement) : Prop :=
  forall w, isErr (fst (client_query env st w)) = false.

(** The database answers statement [st] with the result [res]. *)
Definition answers (env : Environment) (st : Statement) (res : QueryResult)
  : Prop :=
  forall w, fst (client_query env st w) = Ok res.

Definition params_of (p : QueryParams) : list value :=
  match params p with Some l => l | None => [] end.

(** The part of the world the pool owns. *)
Definition pool_of (w : World) : Z * list PoolEvent :=
  (checkedOut w, poolTrace w).

(** The calls to [logger.warn] made so far. *)
Definition warnings (w : World) : list Logger.LogEntry :=
  filter Logger.is_warn (log w).

(** [timeout] is a finite non-negative number. *)
Definition valid_timeout (timeout : number) : bool :=
  isFinite timeout && negb (ltb timeout (ofZ 0)).

Definition empty_result : QueryResult :=
  {| rows := []; rowCount := None; fields := [] |}.

(** A pool that always has a client and a database that answers the
    timeout setting with an empty result and any other statement with
    [res], all without delay. *)
Definition steady (res : QueryResult) : Environment :=
  {| pool_connect := fun _ => (Ok tt, 0);
     client_query := fun st _ =>
       match st with
       | SetStatementTimeout _ => (Ok empty_result, 0)
       | Parametrized _ _ => (Ok res, 0)
       end |}.

(** A pool whose server refuses connections. *)
Definition unreachable : Environment :=
  {| pool_connect := fun _ => (Err "connect ECONNREFUSED 127.0.0.1:5432", 0);
     client_query := fun _ _ => (Ok empty_result, 0) |}.

(** The configuration [createServerConfig] builds when the environment
    sets only [ENABLE_RATE_LIMIT=true]. *)
Definition default_config (mode : DatabaseMode) : ServerConfig :=
  {| mode := mode;
     queryTimeout := ofZ 30000;
     maxResultRows := ofZ 10000;
     enableRateLimit := true;
     rateLimitMaxRequests := 100;
     rateLimitWindowMs := 60000 |}.

(** [{ query, options: { timeout, maxRows } }] *)
Definition request (query : string) (timeout maxRows : option number)
  : QueryParams :=
  {| query := query; params := None;
     options := Some {| timeout := timeout; maxRows := maxRows |} |}.

(** The entry [cap_rows] hands to [logger.warn]. *)
Definition cap_warning (rowCount : option number) (maxRows : number)
  : Logger.LogEntry :=
  {| Logger.level := Logger.warn;
     Logger.tool := "query";
     Logger.message := "Result set exceeds max rows";
     Logger.data := VObj [("rowCount", VOptNum rowCount);
                          ("maxRows", VNum maxRows)] |}.

Definition quiet : World :=
  {| clock := 0; checkedOut := 0; poolTrace := []; sent := []; log := [] |}.

(** The row-cap sentence of the specification, word for word, for a call
    whose main statement the database answers with [res]: [R] is the number
    of rows of [res], [C] the effective cap. *)
Definition row_cap_as_stated (env : Environment) (config : ServerConfig)
  (p : QueryParams) (w : World) (res : QueryResult) : Prop :=
  let C := effective_maxRows config p in
  let R := ofZ (Z.of_nat (List.length (rows res))) in
  let (out, w') := executeQuery env config p w in
  (ltb C R = true ->
   exists res', out = Ok res' /\
     num_eqb (ofZ (Z.of_nat (List.length (rows res')))) C = true /\
     List.length (warnings w') = S (List.length (warnings w))) /\
  (ltb C R = false ->
   exists res', out = Ok res' /\
     rows res' = rows res /\
     warnings w' = warnings w).

End Database.

(* ===================================================================== *)
(** * utils/result-formatter.ts *)
(* ===================================================================== *)

Module ResultFormatter.
Import JS Database.

Definition typeMap : list (Z * string) :=
  [ (16, "bool"); (20, "int8"); (21, "int2"); (23, "int4"); (25, "text");
    (114, "json"); (1043, "varchar"); (1082, "date"); (1083, "time");
    (1114, "timestamp"); (1184, "timestamptz"); (1700, "numeric");
    (2950, "uuid"); (3802, "jsonb") ].

Fixpoint lookup_oid (m : list (Z * string)) (oid : Z) : option string :=
  match m with
  | [] => None
  | (k, name) :: rest => if k =? oid then Some name else lookup_oid rest oid
  end.

(** [typeMap[oid] || `oid_${oid}`] *)
Definition getPostgresTypeName (oid : Z) : string :=
  match lookup_oid typeMap oid with
  | Some name => name
  | None => "oid_" ++ show_int oid
  end.

Record FormattedQueryResult : Type := {
  f_rows : list value;
  f_rowCount : number;
  f_fields : list (string * string);
  executionTimeMs : option number
}.

Definition formatQueryResult (result : QueryResult)
  (executionTimeMs : option number) : FormattedQueryResult :=
  {| f_rows := rows result;
     f_rowCount := or_default (rowCount result) (ofZ 0);
     f_fields := map (fun field =>
                        (fst field, getPostgresTypeName (snd field)))
                     (fields result);
     executionTimeMs := executionTimeMs |}.

(** [truncateText(text, maxLength = 100)] *)
Definition truncateText (text : string) (maxLength : option number)
  : string :=
  let maxLength := match maxLength with Some m => m | None => ofZ 100 end in
  if leb (ofZ (JS.length text)) maxLength then text
  else substring_to (minus maxLength (ofZ 3)) text ++ "...".

End ResultFormatter.

(* ===================================================================== *)
(** * config/environment.ts *)
(* ===================================================================== *)

Module Config.
Import JS Sanitize Database.

Record ParsedArgs : Type := {
  args_mode : DatabaseMode;
  args_connectionString : string
}.

(** The [for] loop of [parseCommandLineArgs] over the remaining
    arguments. *)
Fixpoint scan_args (mode : DatabaseMode) (connectionString : string)
  (args : list string) : DatabaseMode * string :=
  match args with
  | [] => (mode, connectionString)
  | arg :: rest =>
      if String.eqb arg "--read-write" || String.eqb arg "-w" then
        scan_args ReadWrite connectionString rest
      else if String.eqb arg "--read-only" || String.eqb arg "-r" then
        scan_args ReadOnly connectionString rest
      else if negb (startsWith "-" arg) then scan_args mode arg rest
      else scan_args mode connectionString rest
  end.

Definition parseCommandLineArgs (penv : ProcessEnv) (args : list string)
  : result ParsedArgs :=
  let (mode, connectionString) := scan_args ReadOnly EmptyString args in
  let connectionString :=
    if isEmpty connectionString
    then env_or (penv "DATABASE_URL") EmptyString
    else connectionString in
  if isEmpty connectionString then
    Err "Database connection string required. Provide as argument or set DATABASE_URL environment variable."
  else Ok {| args_mode := mode; args_connectionString := connectionString |}.

(** The configuration: the fields the pipeline reads, and the others. *)
Record Settings : Type := {
  server : ServerConfig;
  connectionString : string;
  logDir : string;
  logLevel : string
}.

Definition createServerConfig (penv : ProcessEnv) (args : ParsedArgs)
  : Settings :=
  {| server :=
       {| mode := args_mode args;
          queryTimeout :=
            ofZ (parseIntSafe (env_or (penv "QUERY_TIMEOUT") "30000") 30000);
          maxResultRows :=
            ofZ (parseIntSafe (env_or (penv "MAX_RESULT_ROWS") "10000")
                   10000);
          enableRateLimit :=
            match penv "ENABLE_RATE_LIMIT" with
            | Some v => String.eqb v "true"
            | None => false
            end;
          rateLimitMaxRequests :=
            parseIntSafe (env_or (penv "RATE_LIMIT_MAX_REQUESTS") "100") 100;
          rateLimitWindowMs :=
            parseIntSafe (env_or (penv "RATE_LIMIT_WINDOW_MS") "60000")
              60000 |};
     connectionString := args_connectionString args;
     logDir := env_or (penv "LOG_DIR") "./logs";
     logLevel := env_or (penv "LOG_LEVEL") "info" |}.

(** [validateConfig(config)]; the mode is one of the two by its type. *)
Definition validateConfig (config : Settings) : result unit :=
  if isEmpty (connectionString config) then
    Err "Connection string is required"
  else if ltb (queryTimeout (server config)) (ofZ 1000)
          || gtb (queryTimeout (server config)) (ofZ 600000) then
    Err "Query timeout must be between 1000ms and 600000ms"
  else if ltb (maxResultRows (server config)) (ofZ 1)
          || gtb (maxResultRows (server config)) (ofZ 100000) then
    Err "Max result rows must be between 1 and 100000"
  else Ok tt.

(** ** Vocabulary for the properties *)

Definition is_write_flag (arg : string) : bool :=
  String.eqb arg "--read-write" || String.eqb arg "-w".

Definition is_read_flag (arg : string) : bool :=
  String.eqb arg "--read-only" || String.eqb arg "-r".

(** The modes the flags among the arguments ask for, in order. *)
Definition mode_flags (args : list string) : list DatabaseMode :=
  flat_map (fun arg => if is_write_flag arg then [ReadWrite]
                       else if is_read_flag arg then [ReadOnly]
                       else []) args.

(** The arguments that do not start with a dash. *)
Definition positional (args : list string) : list string :=
  filter (fun arg => negb (startsWith "-" arg)) args.

(** The start of [main]: arguments, configuration, validation. *)
Definition configure (penv : ProcessEnv) (args : list string)
  : result Settings :=
  match parseCommandLineArgs penv args with
  | Err e => Err e
  | Ok parsed =>
      let config := createServerConfig penv parsed in
      match validateConfig config with
      | Err e => Err e
      | Ok _ => Ok config
      end
  end.

End Config.

(* ===================================================================== *)
(** * tools/query.ts and tools/mutations.ts *)
(* ===================================================================== *)

Module QueryTools.
Import JS Sanitize Database ResultFormatter.

(** The validated arguments of [executeQuery]:
    [z.infer<typeof ExecuteQuerySchema>]. *)
Record ExecuteQueryArgs : Type := {
  eq_query : string;
  eq_params : list value;
  eq_timeout : option number;
  eq_maxRows : option number
}.

Definition executeQueryTool (env : Environment) (config : ServerConfig)
  (args : ExecuteQueryArgs) : M FormattedQueryResult :=
  logM Logger.info "executeQuery" "Executing user query"
    (VObj [("queryLength", VNum (ofZ (JS.length (eq_query args))));
           ("paramCount",
            VNum (ofZ (Z.of_nat (List.length (eq_params args)))))]) ;;;
  startTime <- nowM ;;
  result <- executeQuery env config
              {| query := eq_query args;
                 params := Some (eq_params args);
                 options := Some {| timeout := eq_timeout args;
                                    maxRows := eq_maxRows args |} |} ;;
  finished <- nowM ;;
  let executionTimeMs := finished - startTime in
  ret (formatQueryResult result (Some (ofZ executionTimeMs))).

(** The validated arguments of [explainQuery]. *)
Record ExplainQueryArgs : Type := {
  ex_query : string;
  ex_params : list value;
  analyze : bool;
  verbose : bool;
  buffers : bool
}.

(** What [ExplainQuerySchema] fills in for the members left out. *)
Definition explain_defaults (query : string) : ExplainQueryArgs :=
  {| ex_query := query; ex_params := [];
     analyze := true; verbose := false; buffers := true |}.

Definition explainOptions (args : ExplainQueryArgs) : list string :=
  ["FORMAT JSON"] ++
  (if analyze args then ["ANALYZE"] else []) ++
  (if verbose args then ["VERBOSE"] else []) ++
  (if buffers args then ["BUFFERS"] else []).

(** [`EXPLAIN (${explainOptions.join(', ')}) ${query}`] *)
Definition explainQuery (args : ExplainQueryArgs) : string :=
  "EXPLAIN (" ++ join ", " (explainOptions args) ++ ") " ++ ex_query args.

(** [explainQueryTool] up to the plan it receives: the entry it logs and
    its call of [executeQuery]. *)
Definition explainQueryTool_call (env : Environment)
  (config : ServerConfig) (args : ExplainQueryArgs) : M QueryResult :=
  logM Logger.info "explainQuery" "Analyzing query performance"
    (VObj [("queryLength", VNum (ofZ (JS.length (ex_query args))));
           ("analyze", VBool (analyze args));
           ("verbose", VBool (verbose args));
           ("buffers", VBool (buffers args))]) ;;;
  executeQuery env config
    {| query := explainQuery args;
       params := Some (ex_params args);
       options := None |}.

(** The same configuration in another mode. *)
Definition with_mode (m : DatabaseMode) (config : ServerConfig)
  : ServerConfig :=
  {| mode := m;
     queryTimeout := queryTimeout config;
     maxResultRows := maxResultRows config;
     enableRateLimit := enableRateLimit config;
     rateLimitMaxRequests := rateLimitMaxRequests config;
     rateLimitWindowMs := rateLimitWindowMs config |}.

(** ** tools/mutations.ts *)

Record Validation : Type := {
  valid : bool;
  warning : option string          (* [None]: the member is absent *)
}.

(** [validateWhereClause(where, allowEmpty)] *)
Definition validateWhereClause (where_ : string) (allowEmpty : bool)
  : Validation :=
  let trimmed := toLowerCase (trim where_) in
  if falsy_string trimmed || String.eqb trimmed "1=1"
     || String.eqb trimmed "true" then
    if negb allowEmpty then
      {| valid := false;
         warning :=
           Some ("Dangerous WHERE clause detected: " ++
                 String dquote (where_ ++ String dquote
                   ". This would affect ALL rows. Set allowEmptyWhere=true to proceed."))%string |}
    else
      {| valid := true;
         warning := Some "WARNING: This will affect ALL rows in the table." |}
  else {| valid := true; warning := None |}.

End QueryTools.

(* ===================================================================== *)
(** * The schema library, as far as the server looks into it *)
(* ===================================================================== *)

Module Zod.
Import JS.

(** The [_def] of a schema: its [typeName] and the parts the catalog
    conversion reads.  In a [ZodDefault] the library stores [defaultValue]
    as a function returning the default; it is represented by the value it
    returns. *)
Inductive ZodType : Type :=
| ZodString
| ZodNumber
| ZodBoolean
| ZodAny
| ZodEnum (values : list string)
| ZodArray (type : ZodType)
| ZodOptional (innerType : ZodType)
| ZodDefault (innerType : ZodType) (defaultValue : value)
| ZodUnion (options : list ZodType)
| ZodRecord (valueType : ZodType)
| ZodEffects (schema : ZodType)
| ZodObject (shape : list (string * ZodType)).

(** A schema object: its [_def] and its [parse] method, which returns the
    validated data (defaults applied) or throws. *)
Record Schema : Type := {
  def : ZodType;
  parse : value -> result value
}.

(** [zodType._def?.defaultValue]: present on [ZodDefault] only. *)
Definition defaultValue_of (t : ZodType) : option value :=
  match t with
  | ZodDefault _ d => Some d
  | _ => None
  end.

(** [schema._def?.shape?.() || {}] as the list [Object.entries] walks; the
    keys of an object are pairwise distinct. *)
Definition shape_of (t : ZodType) : list (string * ZodType) :=
  match t with
  | ZodObject shape => shape
  | _ => []
  end.

(** The library's treatment of a key that is absent from the input (the
    field parser then receives [undefined]): [ZodOptional] returns
    [undefined] and [ZodDefault] parses its default, the basic types
    report a missing value. *)
Fixpoint accepts_undefined (t : ZodType) : bool :=
  match t with
  | ZodOptional _ | ZodDefault _ _ | ZodAny => true
  | ZodUnion options =>
      (fix any (l : list ZodType) : bool :=
         match l with
         | [] => false
         | o :: rest => accepts_undefined o || any rest
         end) options
  | ZodString | ZodNumber | ZodBoolean | ZodEnum _ | ZodArray _
  | ZodRecord _ | ZodObject _ => false
  | ZodEffects inner => accepts_undefined inner
  end.

(** The keys of a shape are pairwise distinct. *)
Fixpoint distinct (keys : list string) : bool :=
  match keys with
  | [] => true
  | k :: rest => negb (existsb (String.eqb k) rest) && distinct rest
  end.

(** [ExecuteQuerySchema] of [tools/query.ts]. *)
Definition ExecuteQuerySchema : ZodType :=
  ZodObject
    [ ("query", ZodString);
      ("params", ZodDefault (ZodOptional (ZodArray ZodAny)) (VArr []));
      ("timeout", ZodOptional ZodNumber);
      ("maxRows", ZodOptional ZodNumber) ].

End Zod.

(* ===================================================================== *)
(** * tools/index.ts and server/setup.ts *)
(* ===================================================================== *)

Module Server.
Import JS Sanitize Database Zod.

(** ** Catalog conversion: [convertZodType] and [zodToJsonSchema] *)

Inductive JsonType : Type :=
| mkJsonType (type : string) (items : option JsonType)
             (default : option value).

Definition plain (type : string) : JsonType := mkJsonType type None None.

Definition set_default (j : JsonType) (d : option value) : JsonType :=
  match j with mkJsonType ty items _ => mkJsonType ty items d end.

Fixpoint convertZodType (zodType : ZodType) : JsonType :=
  match zodType with
  | ZodString => plain "string"
  | ZodNumber => plain "number"
  | ZodBoolean => plain "boolean"
  | ZodArray type => mkJsonType "array" (Some (convertZodType type)) None
  | ZodOptional innerType => convertZodType innerType
  | ZodDefault innerType d => set_default (convertZodType innerType) (Some d)
  | _ => plain "string"
  end.

Record InputSchema : Type := {
  schema_type : string;
  properties : list (string * JsonType);
  required : option (list string)       (* [None] is [undefined] *)
}.

(** The keys pushed on [required]: [if (!field._def?.defaultValue)]. *)
Fixpoint required_keys (shape : list (string * ZodType)) : list string :=
  match shape with
  | [] => []
  | (key, field) :: rest =>
      match defaultValue_of field with
      | None => key :: required_keys rest
      | Some _ => required_keys rest
      end
  end.

Definition zodToJsonSchema (schema : ZodType) : InputSchema :=
  let shape := shape_of schema in
  let required := required_keys shape in
  {| schema_type := "object";
     properties := map (fun kv => (fst kv, convertZodType (snd kv))) shape;
     required := match required with [] => None | _ :: _ => Some required end
  |}.

(** The advertised [required] array, empty when the member is absent. *)
Definition required_list (s : InputSchema) : list string :=
  match required s with Some l => l | None => [] end.

(** ** The registry and [executeTool] *)

Record ToolDefinition : Type := {
  schema : Schema;
  handler : value -> M value   (* [(connection, logger, args) => ...] *)
}.

(** The steps of one invocation, in the order they are taken. *)
Inductive Step : Type := RateCheck | Lookup | Validate | Execute.

(** The server: the limiter it owns, the world, and the steps taken. *)
Record State : Type := {
  limiter : RateLimiter.t;
  world : World;
  steps : list Step
}.

Definition D (A : Type) : Type := State -> result A * State.

Definition dret {A : Type} (a : A) : D A := fun s => (Ok a, s).
Definition dthrow {A : Type} (message : string) : D A :=
  fun s => (Err message, s).
Definition dbind {A B : Type} (m : D A) (k : A -> D B) : D B :=
  fun s => match m s with
           | (Ok a, s1) => k a s1
           | (Err e, s1) => (Err e, s1)
           end.

Notation "x <-- m ;; k" := (dbind m (fun x => k))
  (at level 61, m at next level, right associativity).
Notation "m >> k" := (dbind m (fun _ => k))
  (at level 61, right associativity).

(** A computation on the world, run inside the server. *)
Definition lift {A : Type} (m : M A) : D A :=
  fun s =>
    let (r, w) := m (world s) in
    (r, {| limiter := limiter s; world := w; steps := steps s |}).

Definition step (st : Step) : D unit :=
  fun s => (Ok tt, {| limiter := limiter s; world := world s;
                      steps := steps s ++ [st] |}).

Definition dlog (lvl : Logger.Level) (tool message : string) (data : value)
  : D unit := lift (logM lvl tool message data).

(** [rateLimiter.checkLimit()] at the current clock reading *)
Definition checkLimitD : D unit :=
  fun s =>
    let (r, rl) := RateLimiter.checkLimit (clock (world s)) (limiter s) in
    (r, {| limiter := rl; world := world s; steps := steps s |}).

(** Names every plain object answers through [Object.prototype]. *)
Definition object_prototype_names : list string :=
  ["constructor"; "__defineGetter__"; "__defineSetter__"; "hasOwnProperty";
   "__lookupGetter__"; "__lookupSetter__"; "isPrototypeOf";
   "propertyIsEnumerable"; "toString"; "valueOf"; "__proto__";
   "toLocaleString"].

Inductive Found : Type :=
| Own (tool : ToolDefinition)    (* a registered tool *)
| Inherited                      (* a member of [Object.prototype] *)
| Missing.                       (* [undefined] *)

Fixpoint own_property (tools : list (string * ToolDefinition))
  (name : string) : option ToolDefinition :=
  match tools with
  | [] => None
  | (k, t) :: rest => if String.eqb k name then Some t
                      else own_property rest name
  end.

(** [descriptions[name] || `Execute ${name} operation`] *)
Definition getToolDescription (name : string) (mode : DatabaseMode)
  : string :=
  let read_write := match mode with ReadWrite => true | ReadOnly => false end in
  let descriptions : list (string * string) :=
    [ ("listDatabases", "List all databases the user has access to");
      ("getDatabaseStats", "Get comprehensive database statistics including size, cache hit ratio, and connection info");
      ("listSchemas", "List all schemas in the current database");
      ("listTables", "List all tables in a schema with size and statistics");
      ("describeTable", "Get comprehensive table information including columns, constraints, and indexes");
      ("executeQuery",
       ("Execute SELECT queries" ++
        (if read_write then " or write operations" else " (read-only)"))
       %string);
      ("explainQuery",
       ("Analyze query performance using EXPLAIN" ++
        (if read_write then " ANALYZE" else " (ANALYZE disabled)"))
       %string);
      ("findDuplicates", "Find duplicate rows based on column combinations");
      ("findMissingValues", "Find NULL values or missing data in columns");
      ("findOrphans", "Find orphaned records with invalid foreign key references");
      ("checkConstraintViolations", "Check for rows that would violate a constraint before adding it");
      ("analyzeTypeConsistency", "Analyze if text columns contain consistent data types");
      ("findRecent", "Find rows within a time window");
      ("analyzeTimeSeries", "Advanced time-series analysis with window functions and anomaly detection");
      ("detectSeasonality", "Detect seasonal patterns in time-series data");
      ("getCurrentActivity", "Get current active queries and connections");
      ("analyzeLocks", "Analyze current locks and blocking queries");
      ("getIndexUsage", "Analyze index usage and identify unused indexes");
      ("exploreRelationships", "Follow foreign key relationships to explore related records");
      ("analyzeForeignKeys", "Analyze foreign key health and performance");
      ("exportTable", "Export table data to various formats (CSV, JSON, SQL)");
      ("generateInsertStatements", "Generate INSERT statements for data migration");
      ("analyzeTableBloat", "Detect table and index bloat for VACUUM planning");
      ("suggestVacuum", "Analyze and recommend VACUUM operations based on dead tuples and bloat");
      ("getHealthScore", "Calculate overall database health score with component breakdown");
      ("getSlowQueries", "Analyze slow queries from pg_stat_statements extension");
      ("suggestIndexes", "Analyze query patterns and table scans to recommend missing indexes");
      ("suggestPartitioning", "Analyze large tables and recommend partitioning strategies");
      ("detectAnomalies", "Detect anomalies in query performance, connections, and data patterns");
      ("optimizeQuery", "Analyze a specific query and provide optimization recommendations");
      ("previewUpdate", "Preview which rows would be affected by an UPDATE without modifying data");
      ("previewDelete", "Preview which rows would be deleted without actually deleting them");
      ("safeUpdate", "Execute UPDATE with safety guards: dry-run mode, maxRows limit, empty WHERE protection. Raw SET strings require allowRawSet=true");
      ("safeDelete", "Execute DELETE with safety guards: dry-run mode, maxRows limit, empty WHERE protection");
      ("getLiveMetrics", "Collect real-time database metrics over a time period with configurable intervals");
      ("getHottestTables", "Identify tables with highest activity during a sample period");
      ("getTableMetrics", "Get comprehensive metrics for a specific table including I/O, scans, and maintenance stats") ] in
  match find (fun entry => String.eqb (fst entry) name) descriptions with
  | Some entry => snd entry
  | None => ("Execute " ++ name ++ " operation")%string
  end.

(** The arguments handed to [executeTool]: [args || {}]. *)
Definition arguments (args : option value) : value :=
  match args with Some a => a | None => VObj [] end.

Section Dispatch.

(** The registry [tools], built once when the module is loaded. *)
Variable tools : list (string * ToolDefinition).

(** [tools[name]] *)
Definition getTool (name : string) : Found :=
  match own_property tools name with
  | Some t => Own t
  | None => if array_includes object_prototype_names name then Inherited
            else Missing
  end.

Definition getToolNames : list string := map fst tools.

Definition not_found_message (name : string) : string :=
  "Tool " ++ String dquote name ++ String dquote " not found".

(** The [TypeError] of [tool.schema.parse] when [tool.schema] is
    [undefined]. *)
Definition no_schema_message : string :=
  "Cannot read properties of undefined (reading 'parse')".

Definition executeTool (name : string) (args : value) : D value :=
  step Lookup >>
  match getTool name with
  | Missing => dthrow (not_found_message name)
  | Inherited => dthrow no_schema_message
  | Own tool =>
      step Validate >>
      match parse (schema tool) args with
      | Err e => dthrow e
      | Ok validatedArgs =>
          dlog Logger.info "tool" ("Executing tool: " ++ name)
            (VObj [("args", validatedArgs)]) >>
          step Execute >>
          fun s =>
            match lift (handler tool validatedArgs) s with
            | (Ok result, s1) =>
                (dlog Logger.info "tool"
                   ("Tool " ++ name ++ " completed successfully")
                   VUndefined >>
                 dret result) s1
            | (Err e, s1) =>
                (dlog Logger.error "tool" ("Tool " ++ name ++ " failed")
                   (VObj [("error", VStr e)]) >>
                 dthrow e) s1
            end
      end
  end.

(** ** The request handlers of [createMCPServer] *)

(** The text [JSON.stringify(v, null, 2)], kept as the value it prints.
    Handlers return plain data (objects, arrays, strings, numbers), for
    which the serialization is defined. *)
Inductive JsonText : Type := stringify (v : value).

Record Content : Type := { type : string; text : JsonText }.

Record Response : Type := {
  content : list Content;
  isError : option bool               (* [None]: the member is absent *)
}.

Definition success_envelope (result : value) : Response :=
  {| content := [ {| type := "text"; text := stringify result |} ];
     isError := None |}.

Definition error_envelope (errorMessage name : string) : Response :=
  {| content :=
       [ {| type := "text";
            text := stringify (VObj [("error", VStr errorMessage);
                                     ("tool", VStr name)]) |} ];
     isError := Some true |}.

(** The handler registered for [CallToolRequestSchema]; [args] is
    [request.params.arguments], [None] when it is missing. *)
Definition callTool (name : string) (args : option value)
  : State -> Response * State :=
  fun s0 =>
    let (_, s1) :=
      dlog Logger.info "mcp" ("Tool called: " ++ name)
        (VObj [("args", match args with Some a => a | None => VUndefined end)])
        s0 in
    (* try *)
    let attempt :=
      step RateCheck >>
      (checkLimitD >>
       executeTool name (arguments args))
    in
    match attempt s1 with
    | (Ok result, s2) => (success_envelope result, s2)
    | (Err errorMessage, s2) =>
        (* catch *)
        let (_, s3) :=
          dlog Logger.error "mcp" ("Error executing tool " ++ name)
            (VObj [("error", VStr errorMessage)]) s2 in
        (error_envelope errorMessage name, s3)
    end.

Record Tool : Type := {
  tool_name : string;
  description : string;
  inputSchema : InputSchema
}.

(** The handler registered for [ListToolsRequestSchema]. *)
Definition listTools (mode : DatabaseMode) : list Tool :=
  map (fun entry =>
         {| tool_name := fst entry;
            description := getToolDescription (fst entry) mode;
            inputSchema := zodToJsonSchema (def (schema (snd entry))) |})
      tools.

End Dispatch.

(** The world in which a handler starts: the two entries logged before it
    are ['Tool called'] and ['Executing tool']. *)
Definition handler_world (name : string) (args : option value)
  (validatedArgs : value) (w : World) : World :=
  write_log Logger.info "tool" ("Executing tool: " ++ name)
    (VObj [("args", validatedArgs)])
    (write_log Logger.info "mcp" ("Tool called: " ++ name)
       (VObj [("args",
               match args with Some a => a | None => VUndefined end)])
       w).

(** A registry with a single tool, [ping], which takes no argument, touches
    nothing and returns [{ ok: true }]. *)
Definition ping : ToolDefinition :=
  {| schema :=
       {| def := ZodObject [];
          parse := fun args =>
            match args with
            | VObj _ => Ok (VObj [])
            | _ => Err "Expected object"
            end |};
     handler := fun _ => ret (VObj [("ok", VBool true)]) |}.

Definition sample_tools : list (string * ToolDefinition) := [("ping", ping)].

(** A sequence of invocations handled one after the other. *)
Fixpoint serve (tools : list (string * ToolDefinition))
  (requests : list (string * option value)) (s : State)
  : list Response * State :=
  match requests with
  | [] => ([], s)
  | (name, args) :: rest =>
      let (response, s1) := callTool tools name args s in
      let (responses, s2) := serve tools rest s1 in
      (response :: responses, s2)
  end.

(** The error an invocation meets before its handler is called, if any:
    the limiter's, the lookup's or the validation's. *)
Definition early_error (tools : list (string * ToolDefinition))
  (name : string) (args : option value) (s : State) : option string :=
  match fst (RateLimiter.checkLimit (clock (world s)) (limiter s)) with
  | Err e => Some e
  | Ok _ =>
      match getTool tools name with
      | Missing => Some (not_found_message name)
      | Inherited => Some no_schema_message
      | Own tool =>
          match parse (schema tool) (arguments args) with
          | Err e => Some e
          | Ok _ => None
          end
      end
  end.

Definition is_lookup (st : Step) : bool :=
  match st with Lookup => true | _ => false end.

(** How many invocations got as far as the lookup. *)
Definition lookups (s : State) : nat :=
  List.length (filter is_lookup (steps s)).

(** [createMCPServer]: the limiter is built from the configuration. *)
Definition initial_state (config : ServerConfig) (w : World) : State :=
  {| limiter := RateLimiter.create (rateLimitMaxRequests config)
                  (rateLimitWindowMs config) (enableRateLimit config);
     world := w;
     steps := [] |}.

End Server.

(* ===================================================================== *)
(** * Properties of the sanitizer *)
(* ===================================================================== *)

Module SanitizeProps.
Import JS Sanitize.

Lemma append_empty_r (s : string) : (s ++ EmptyString)%string = s.
Proof. induction s as [|c s IH]; simpl; [reflexivity | now rewrite IH]. Qed.

Lemma append_assoc (a b c : string) :
  ((a ++ b) ++ c)%string = (a ++ (b ++ c))%string.
Proof. induction a as [|x a IH]; simpl; [reflexivity | now rewrite IH]. Qed.

(** ** [trim] *)

Lemma trimEnd_blank (s : string) : isBlank s = true -> trimEnd s = EmptyString.
Proof.
  induction s as [|c s IH]; simpl; intros H; [reflexivity|].
  apply andb_true_iff in H as [Hc Hs].
  rewrite (IH Hs), Hc. reflexivity.
Qed.

Lemma trim_blank (s : string) : isBlank s = true -> trim s = EmptyString.
Proof. intros H. unfold trim. now rewrite (trimEnd_blank s H). Qed.

Lemma blank_guard (s : string) :
  isBlank s = true -> falsy_string s || falsy_string (trim s) = true.
Proof.
  intros H. rewrite (trim_blank s H). simpl. apply orb_true_r.
Qed.

(** ** [split(/\s+/)[0]] *)

Lemma split_ws_from_hd (s cur : string) :
  hd EmptyString (split_ws_from false cur s) = (cur ++ first_token s)%string.
Proof.
  revert cur. induction s as [|c s IH]; intros cur; simpl.
  - now rewrite append_empty_r.
  - destruct (isSpace c); simpl.
    + now rewrite append_empty_r.
    + rewrite IH, append_assoc. reflexivity.
Qed.

Lemma operation_of_first_token (t : string) :
  operation_of t = toUpperCase (first_token t).
Proof. unfold operation_of, split_ws. now rewrite split_ws_from_hd. Qed.

(** ** [includes] and [indexOf] *)

Lemma indexOf_lower (c : ascii) (s : string) : -1 <= indexOf c s.
Proof.
  induction s as [|d s IH]; simpl; [lia|].
  destruct (Ascii.eqb d c); [lia|].
  destruct (indexOf c s <? 0) eqn:E; [lia|].
  apply Z.ltb_ge in E. lia.
Qed.

Lemma includes_indexOf (c : ascii) (s : string) :
  includes c s = true <-> 0 <= indexOf c s.
Proof.
  induction s as [|d s IH]; simpl.
  - split; [discriminate | lia].
  - destruct (Ascii.eqb d c); simpl; [split; [lia | reflexivity]|].
    destruct (indexOf c s <? 0) eqn:E.
    + apply Z.ltb_lt in E. rewrite IH. lia.
    + apply Z.ltb_ge in E. rewrite IH. lia.
Qed.

Lemma length_cons (d : ascii) (s : string) :
  JS.length (String d s) = JS.length s + 1.
Proof. unfold JS.length. simpl String.length. lia. Qed.

Lemma length_nonneg (s : string) : 0 <= JS.length s.
Proof. unfold JS.length. lia. Qed.

Lemma isEmpty_length (s : string) : isEmpty s = false -> 1 <= JS.length s.
Proof.
  destruct s; [discriminate|]. intros _. rewrite length_cons.
  pose proof (length_nonneg s). lia.
Qed.

Lemma occurs_before_end_indexOf (c : ascii) (s : string) :
  occurs_before_end c s = true ->
  0 <= indexOf c s < JS.length s - 1.
Proof.
  induction s as [|d s IH]; cbn [occurs_before_end indexOf];
    [discriminate|].
  rewrite length_cons. intros H.
  destruct (Ascii.eqb d c); simpl in H.
  - assert (E : isEmpty s = false).
    { destruct s; [simpl in H; discriminate | reflexivity]. }
    apply isEmpty_length in E. lia.
  - specialize (IH H).
    destruct (indexOf c s <? 0) eqn:E; [apply Z.ltb_lt in E; lia | lia].
Qed.

Lemma final_only_indexOf (c : ascii) (s : string) :
  occurs_before_end c s = false -> includes c s = true ->
  indexOf c s = JS.length s - 1.
Proof.
  induction s as [|d s IH]; cbn [occurs_before_end includes indexOf];
    [discriminate|].
  rewrite length_cons. intros H Hin.
  destruct (Ascii.eqb d c); simpl in H, Hin.
  - apply orb_false_iff in H as [H _].
    apply negb_false_iff in H. destruct s; [reflexivity | discriminate].
  - specialize (IH H Hin).
    pose proof (proj1 (includes_indexOf c s) Hin) as Hge.
    destruct (indexOf c s <? 0) eqn:E; [apply Z.ltb_lt in E; lia | lia].
Qed.

(** The last test of [sanitizeQuery] fires exactly on a semicolon that is
    not the last character. *)
Lemma multiple_statements_spec (t : string) :
  multiple_statements t = occurs_before_end ";" t.
Proof.
  unfold multiple_statements.
  destruct (occurs_before_end ";" t) eqn:H.
  - pose proof (occurs_before_end_indexOf _ _ H) as [H0 H1].
    rewrite (proj2 (includes_indexOf _ _) H0). simpl.
    apply negb_true_iff, Z.eqb_neq. lia.
  - destruct (includes ";" t) eqn:Hin; [|reflexivity]. simpl.
    apply negb_false_iff, Z.eqb_eq. now apply final_only_indexOf.
Qed.

(** ** The patterns on the README's samples *)

Example where_clause_with_stacked_drop :
  validateUserWhereClause "1=1; DROP TABLE users --"
  = Err "Potentially dangerous pattern detected in WHERE clause".
Proof. vm_compute. reflexivity. Qed.

Example union_select_is_rejected :
  sanitizeQuery "select a from t union  all select b from u" ReadWrite
  = Err "Potentially dangerous query pattern detected".
Proof. vm_compute. reflexivity. Qed.

Example interval_samples :
  validateInterval "7 days" = Ok tt /\
  validateInterval "2 hours" = Ok tt /\
  validateInterval "30 minutes" = Ok tt /\
  isErr (validateInterval "7days") = true.
Proof. vm_compute. repeat split. Qed.

Example order_by_samples :
  validateOrderBy "created_at DESC, id" = Ok tt /\
  isErr (validateOrderBy "id; drop table t") = true.
Proof. vm_compute. repeat split. Qed.

End SanitizeProps.

Module SanitizeClaims.
Import JS Sanitize SanitizeProps.

(** C6.  [sanitizeQuery] takes as leading keyword the first
    white-space-delimited token of the trimmed query, upper-cased, and
    throws whenever that keyword is not in the allow-list of the mode: a
    blank query is rejected as empty, any other with the mode-violation
    message that names the keyword (stated for the tokens whose upper-case
    form is a text of the model, which leaves out the micro sign and the y
    with diaeresis).  The allow-lists are the two stated ones;
    ["DELETE FROM t"] is rejected with the mode-violation message in
    read-only mode and accepted in read-write mode. *)
Theorem sanitizeQuery_leading_keyword (query : string) (mode : DatabaseMode) :
  let keyword := toUpperCase (first_token (trim query)) in
  operation_of (trim query) = keyword /\
  (array_includes (allowedOps mode) keyword = false ->
   isErr (sanitizeQuery query mode) = true /\
   (trim query <> EmptyString ->
    all_chars upperCaseInRange (first_token (trim query)) = true ->
    sanitizeQuery query mode =
      Err ("Operation " ++ keyword ++ " not allowed in " ++
           match mode with
           | ReadOnly => "read-only"
           | ReadWrite => "read-write"
           end ++
           " mode. Allowed operations: " ++
           join ", " (allowedOps mode)))) /\
  allowedOps ReadOnly = ["SELECT"; "EXPLAIN"; "WITH"] /\
  allowedOps ReadWrite =
    ["SELECT"; "INSERT"; "UPDATE"; "DELETE"; "CREATE"; "ALTER"; "DROP";
     "TRUNCATE"; "VACUUM"; "ANALYZE"; "REINDEX"; "EXPLAIN"; "WITH"] /\
  sanitizeQuery "DELETE FROM t" ReadOnly =
    Err ("Operation DELETE not allowed in read-only mode. " ++
         "Allowed operations: SELECT, EXPLAIN, WITH") /\
  sanitizeQuery "DELETE FROM t" ReadWrite = Ok tt.
Proof.
  intros keyword.
  split; [apply operation_of_first_token|].
  split; [|repeat split; reflexivity].
  intros Hnot. unfold sanitizeQuery.
  destruct (falsy_string (trim query)) eqn:He.
  - split; [reflexivity|]. intros Hne. exfalso. apply Hne.
    destruct (trim query); [reflexivity | discriminate].
  - rewrite operation_of_first_token. fold keyword. rewrite Hnot. simpl.
    split; [reflexivity|]. intros _ _.
    unfold operation_not_allowed. now destruct mode.
Qed.

Lemma sanitizeQuery_leading_keyword_witness :
  sanitizeQuery "  drop table t" ReadOnly =
    Err ("Operation DROP not allowed in read-only mode. " ++
         "Allowed operations: SELECT, EXPLAIN, WITH") /\
  sanitizeQuery (String "s" (String (ascii_of_N 233) "lect 1")) ReadOnly =
    Err ("Operation S" ++ String (ascii_of_N 201)
           ("LECT not allowed in read-only mode. " ++
            "Allowed operations: SELECT, EXPLAIN, WITH")).
Proof.
  split.
  - refine (proj2 (proj1 (proj2
              (sanitizeQuery_leading_keyword "  drop table t" ReadOnly))
              _) _ _).
    + reflexivity.
    + discriminate.
    + reflexivity.
  - refine (proj2 (proj1 (proj2
              (sanitizeQuery_leading_keyword
                 (String "s" (String (ascii_of_N 233) "lect 1")) ReadOnly))
              _) _ _).
    + reflexivity.
    + discriminate.
    + reflexivity.
Defined.

(** C7, as stated: a semicolon of the query as passed in, at a position
    other than its last, makes [sanitizeQuery] throw.  It does not: the
    test is made on the trimmed query. *)
Lemma stacked_guard_untrimmed_counterexample :
  ~ (forall (query : string) (mode : DatabaseMode),
        occurs_before_end ";" query = true ->
        isErr (sanitizeQuery query mode) = true).
Proof.
  intros H. specialize (H "SELECT 1; " ReadOnly eq_refl).
  vm_compute in H. discriminate.
Qed.

(** C7, amended.  A semicolon of the trimmed query at a position other than
    its last makes [sanitizeQuery] throw.  A query whose trimmed text has
    no such semicolon (none at all, or only the final character) passes
    the stacked-statement test: [sanitizeQuery] does not throw the
    multiple-statements error, and accepts the query when the trimmed text
    is not empty, starts with an allowed keyword and holds no dangerous
    pattern.  So the multiple-statements error is thrown only for a
    semicolon before the end of the trimmed text.  ["SELECT 1;"] and
    ["SELECT 1"] are accepted and ["SELECT 1; SELECT 2"] is rejected, in
    both modes. *)
Theorem sanitizeQuery_stacked_guard (query : string) (mode : DatabaseMode) :
  (occurs_before_end ";" (trim query) = true ->
   isErr (sanitizeQuery query mode) = true) /\
  (occurs_before_end ";" (trim query) = false ->
   sanitizeQuery query mode
   <> Err "Multiple statements not allowed. Use single queries only." /\
   (trim query <> EmptyString ->
    array_includes (allowedOps mode) (operation_of (trim query)) = true ->
    any_pattern DANGEROUS_PATTERNS (trim query) = false ->
    sanitizeQuery query mode = Ok tt)) /\
  (trim query <> EmptyString ->
   array_includes (allowedOps mode) (operation_of (trim query)) = true ->
   any_pattern DANGEROUS_PATTERNS (trim query) = false ->
   occurs_before_end ";" (trim query) = true ->
   sanitizeQuery query mode
   = Err "Multiple statements not allowed. Use single queries only.") /\
  sanitizeQuery "SELECT 1;" mode = Ok tt /\
  sanitizeQuery "SELECT 1" mode = Ok tt /\
  sanitizeQuery "SELECT 1; SELECT 2" mode =
    Err "Multiple statements not allowed. Use single queries only.".
Proof.
  split; [|split; [|split;
                    [|destruct mode; repeat split; vm_compute;
                      reflexivity]]].
  - intros H. unfold sanitizeQuery.
    rewrite multiple_statements_spec, H.
    destruct (falsy_string (trim query)); [reflexivity|].
    destruct (negb _); [reflexivity|].
    destruct (any_pattern _ _); reflexivity.
  - intros H. unfold sanitizeQuery.
    rewrite multiple_statements_spec, H. split.
    + destruct (falsy_string (trim query)); [discriminate|].
      destruct (negb _);
        [unfold operation_not_allowed; cbn [append]; discriminate|].
      destruct (any_pattern _ _); discriminate.
    + intros Hne Hop Hpat. rewrite Hop, Hpat. cbn [negb].
      destruct (trim query); [now contradiction Hne | reflexivity].
  - intros Hne Hop Hpat H. unfold sanitizeQuery.
    rewrite multiple_statements_spec, H, Hop, Hpat. cbn [negb].
    destruct (trim query); [now contradiction Hne | reflexivity].
Qed.

Lemma sanitizeQuery_stacked_guard_witness :
  isErr (sanitizeQuery "  SELECT 1;SELECT 2  " ReadWrite) = true /\
  sanitizeQuery "SELECT 1;  " ReadOnly = Ok tt.
Proof.
  split.
  - apply (proj1 (sanitizeQuery_stacked_guard "  SELECT 1;SELECT 2  "
                    ReadWrite)).
    reflexivity.
  - apply (proj2 (proj1 (proj2 (sanitizeQuery_stacked_guard "SELECT 1;  "
                                  ReadOnly)) eq_refl)).
    + discriminate.
    + reflexivity.
    + reflexivity.
Defined.

(** C10.  On an empty or white-space-only input [validateOrderBy] returns
    normally, while [validateUserWhereClause], [validateCondition] and
    [validateInterval] each throw. *)
Theorem blank_input_validators (s : string) :
  isBlank s = true ->
  validateOrderBy s = Ok tt /\
  validateUserWhereClause s = Err "WHERE clause cannot be empty" /\
  validateCondition s = Err "Condition cannot be empty" /\
  validateInterval s = Err "Interval cannot be empty".
Proof.
  intros H. pose proof (blank_guard s H) as G.
  unfold validateOrderBy, validateUserWhereClause, validateCondition,
    validateInterval.
  rewrite G. repeat split.
Qed.

Lemma blank_input_validators_witness :
  validateOrderBy "   " = Ok tt /\
  validateUserWhereClause "   " = Err "WHERE clause cannot be empty" /\
  validateCondition "   " = Err "Condition cannot be empty" /\
  validateInterval "   " = Err "Interval cannot be empty".
Proof. apply (blank_input_validators "   "). reflexivity. Defined.

End SanitizeClaims.

(* ===================================================================== *)
(** * Properties of the rate limiter *)
(* ===================================================================== *)

Module RateLimiterProps.
Import JS RateLimiter.



Lemma filter_length_le {A : Type} (p : A -> bool) (l : list A) :
  (List.length (filter p l) <= List.length l)%nat.
Proof.
  induction l as [|x l IH]; simpl; [lia|]. destruct (p x); simpl; lia.
Qed.





Lemma chrono_app (prev : Z) (l : list Z) (x : Z) :
  chrono prev (l ++ [x]) = true ->
  chrono prev l = true /\ prev <= x /\ forall t, In t l -> t <= x.
Proof.
  revert prev. induction l as [|y l IH]; simpl; intros prev H.
  - apply andb_true_iff in H as [H _]. apply Z.leb_le in H.
    repeat split; [exact H | contradiction].
  - apply andb_true_iff in H as [H1 H2]. apply Z.leb_le in H1.
    destruct (IH y H2) as (Hc & Hy & Hall).
    rewrite Hc. split; [now rewrite (proj2 (Z.leb_le prev y) H1)|].
    split; [lia|]. intros t [<-|Ht]; [exact Hy | now apply Hall].
Qed.

(** ** One call *)

Lemma checkLimit_accepts (now : Z) (rl : t) :
  enabled rl = true ->
  let kept := filter (fun ts => ts >? now - windowMs rl) (requests rl) in
  Z.of_nat (List.length kept) < maxRequests rl ->
  checkLimit now rl = (Ok tt, set_requests rl (kept ++ [now])).
Proof.
  intros He kept Hlt. unfold checkLimit. rewrite He. simpl. fold kept.
  destruct (Z.of_nat (List.length kept) >=? maxRequests rl) eqn:E;
    [|reflexivity].
  apply Z.geb_le in E. lia.
Qed.



(** ** Sequences of calls *)




End RateLimiterProps.

Module RateLimiterClaims.
Import JS RateLimiter RateLimiterProps.




End RateLimiterClaims.

(* ===================================================================== *)
(** * Properties of the pooled execution primitive *)
(* ===================================================================== *)

Module DatabaseProps.
Import JS Sanitize Database.

(** Nothing between [pool.connect()] and [client.release()] touches the
    pool. *)
Lemma with_client_keeps_pool (env : Environment) (query : string)
  (queryParams : list value) (timeout maxRows : number) (startTime : Z)
  (w : World) :
  pool_of (snd (with_client env query queryParams timeout maxRows
                  startTime w)) = pool_of w.
Proof.
  unfold with_client, cap_rows, bind, queryM, logM, nowM, ret, throw.
  destruct (negb (isFinite timeout) || ltb timeout (ofZ 0));
    [reflexivity|].
  destruct (client_query env (SetStatementTimeout _) _) as [[q|e] ms];
    [|reflexivity].
  destruct (client_query env (Parametrized _ _) _) as [[res|e] ms'];
    [|reflexivity].
  cbn [snd fst clock].
  destruct (exceeds (rowCount res) maxRows); reflexivity.
Qed.

Lemma write_log_pool (lvl : Logger.Level) (tool message : string)
  (data : value) (w : World) :
  pool_of (write_log lvl tool message data w) = pool_of w.
Proof. reflexivity. Qed.

(** An invalid timeout stops the [try] block before anything is sent. *)
Lemma with_client_invalid_timeout (env : Environment) (query : string)
  (queryParams : list value) (timeout maxRows : number) (startTime : Z)
  (w : World) :
  valid_timeout timeout = false ->
  with_client env query queryParams timeout maxRows startTime w
  = (Err "Invalid timeout value", w).
Proof.
  intros H. unfold with_client, bind, throw.
  unfold valid_timeout in H.
  replace (negb (isFinite timeout) || ltb timeout (ofZ 0)) with true;
    [reflexivity|].
  destruct (isFinite timeout); simpl in *; [|reflexivity].
  apply negb_false_iff in H. now rewrite H.
Qed.

(** ** The comparison of [cap_rows] on integer-valued numbers *)

Lemma exceeds_integers (r c : Q) (R C : Z) :
  r == inject_Z R -> c == inject_Z C -> 0 <= C ->
  exceeds (Some (Num r)) (Num c) = (C <? R).
Proof.
  intros Hr Hc HC. unfold exceeds, gtb, ltb, truthy.
  destruct (C <? R) eqn:E.
  - apply Z.ltb_lt in E. apply andb_true_iff. split.
    + apply negb_true_iff. destruct (Qeq_bool r 0) eqn:E0; [|reflexivity].
      apply Qeq_bool_iff in E0. rewrite Hr in E0.
      change 0%Q with (inject_Z 0) in E0.
      apply (proj1 (inject_Z_injective R 0)) in E0. lia.
    + apply negb_true_iff. destruct (Qle_bool r c) eqn:E1; [|reflexivity].
      apply Qle_bool_iff in E1. rewrite Hr, Hc in E1.
      rewrite <- Zle_Qle in E1. lia.
  - apply Z.ltb_ge in E. apply andb_false_iff. right.
    apply negb_false_iff. apply Qle_bool_iff. rewrite Hr, Hc.
    rewrite <- Zle_Qle. exact E.
Qed.

Lemma truncate_integer (c : Q) (C : Z) :
  c == inject_Z C -> truncate c = C.
Proof.
  intros Hc. unfold truncate.
  destruct (Qle_bool 0 c).
  - rewrite Hc. apply Qfloor_Z.
  - rewrite Hc. apply Qceiling_Z.
Qed.

Lemma slice0_integer {A : Type} (l : list A) (c : Q) (C : Z) :
  c == inject_Z C -> 0 <= C -> C <= Z.of_nat (List.length l) ->
  slice0 l (Num c) = firstn (Z.to_nat C) l /\
  Z.of_nat (List.length (slice0 l (Num c))) = C.
Proof.
  intros Hc HC Hlen. unfold slice0. rewrite (truncate_integer c C Hc).
  replace (C <? 0) with false by (symmetry; apply Z.ltb_ge; lia).
  rewrite Z.min_l by lia. split; [reflexivity|].
  rewrite length_firstn. lia.
Qed.

End DatabaseProps.

Module DatabaseClaims.
Import JS Sanitize Database DatabaseProps.

(** C5.  Whatever [executeQuery] does -- sanitization failure, connection
    failure, invalid timeout, database error or success -- the number of
    clients checked out after the call equals the number before it, and
    the call either never touched the pool or acquired one client and
    released it once. *)
Theorem executeQuery_releases (env : Environment) (config : ServerConfig)
  (p : QueryParams) (w : World) :
  let w' := snd (executeQuery env config p w) in
  checkedOut w' = checkedOut w /\
  (poolTrace w' = poolTrace w \/
   poolTrace w' = poolTrace w ++ [Acquire; Release]).
Proof.
  unfold executeQuery.
  destruct (sanitizeQuery (query p) (mode config)) as [[]|e];
    [|simpl; split; [reflexivity | now left]].
  set (w1 := write_log _ _ _ _ w).
  unfold connectM.
  destruct (pool_connect env w1) as [[[]|e] ms].
  - set (w2 := acquire (tick ms w1)).
    pose proof (with_client_keeps_pool env (query p)
                  match params p with Some l => l | None => [] end
                  (effective_timeout config p) (effective_maxRows config p)
                  (clock w1) w2) as Hkeep.
    destruct (with_client _ _ _ _ _ _ w2) as [[res|e] w3];
      cbn [snd] in Hkeep |- *; unfold pool_of in Hkeep;
      injection Hkeep as Hc Ht; cbn [release write_log checkedOut poolTrace];
      rewrite Hc, Ht; subst w2 w1; cbn [acquire tick write_log checkedOut
                                         poolTrace];
      (split; [lia | right; now rewrite <- app_assoc]).
  - cbn. split; [reflexivity | now left].
Qed.

(** C4, as stated: a provided [options.timeout] is the effective timeout
    even when it is 0, and an invalid effective timeout makes the call fail
    with the validation error.  Neither holds: a provided 0 falls back to
    [config.queryTimeout] (which is then the timeout set on the session),
    and the timeout is checked only after [pool.connect()], so with an
    unreachable server the call fails with the connection error. *)
Lemma timeout_counterexample :
  ~ (forall (config : ServerConfig) (timeout : option number),
        effective_timeout config (request "SELECT 1" timeout None)
        = nullish_default timeout (queryTimeout config)) /\
  sent (snd (executeQuery (steady empty_result) (default_config ReadOnly)
               (request "SELECT 1" (Some (ofZ 0)) None) quiet))
    = [SetStatementTimeout 30000; Parametrized "SELECT 1" []] /\
  ~ (forall (env : Environment) (config : ServerConfig) (p : QueryParams)
            (w : World),
        valid_timeout (effective_timeout config p) = false ->
        fst (executeQuery env config p w) = Err "Invalid timeout value").
Proof.
  split; [|split].
  - intros H.
    specialize (H (default_config ReadOnly) (Some (ofZ 0))).
    vm_compute in H. discriminate.
  - vm_compute. reflexivity.
  - intros H.
    specialize (H unreachable (default_config ReadOnly)
                  (request "SELECT 1" (Some (ofZ (-5))) None) quiet eq_refl).
    vm_compute in H. discriminate.
Qed.

(** C4, amended.  The effective timeout is [options.timeout] whenever that
    is provided and truthy (neither 0 nor [NaN]), and [config.queryTimeout]
    when no timeout is provided.  Whenever the effective timeout is not a
    finite non-negative number the call fails and sends no statement; the
    error is ['Invalid timeout value'] once the query has passed
    [sanitizeQuery] and the pool has handed out a client.  When it is
    valid, the first statement sent on that client sets the session's
    statement timeout to its floor. *)
Theorem executeQuery_timeout (env : Environment) (config : ServerConfig)
  (p : QueryParams) (w : World) :
  let options := match options p with Some o => o | None => no_options end in
  let effective := effective_timeout config p in
  (forall t, timeout options = Some t -> truthy t = true -> effective = t) /\
  (timeout options = None -> effective = queryTimeout config) /\
  (valid_timeout effective = false ->
   isErr (fst (executeQuery env config p w)) = true /\
   sent (snd (executeQuery env config p w)) = sent w /\
   (sanitizeQuery (query p) (mode config) = Ok tt ->
    always_connects env ->
    fst (executeQuery env config p w) = Err "Invalid timeout value")) /\
  (valid_timeout effective = true ->
   sanitizeQuery (query p) (mode config) = Ok tt ->
   always_connects env ->
   exists more,
     sent (snd (executeQuery env config p w))
     = sent w ++ SetStatementTimeout (floor effective) :: more).
Proof.
  intros options effective.
  split; [|split; [|split]].
  - intros t Ht Htruthy. unfold effective, effective_timeout.
    fold options. rewrite Ht. simpl. now rewrite Htruthy.
  - intros Ht. unfold effective, effective_timeout.
    fold options. now rewrite Ht.
  - intros Hinv. unfold executeQuery. fold effective.
    destruct (sanitizeQuery (query p) (mode config)) as [[]|e];
      [|repeat split; intros; discriminate].
    set (w1 := write_log _ _ _ _ w).
    unfold connectM.
    pose proof (fun (H : always_connects env) => H w1) as Hconn.
    destruct (pool_connect env w1) as [[[]|e] ms].
    + rewrite (with_client_invalid_timeout _ _ _ _ _ _ _ Hinv).
      repeat split.
    + cbn. repeat split. intros _ H. specialize (Hconn H). discriminate.
  - intros Hval Hs Hconn. unfold executeQuery. rewrite Hs. fold effective.
    set (w1 := write_log _ _ _ _ w).
    unfold connectM. specialize (Hconn w1).
    destruct (pool_connect env w1) as [rc ms]. simpl in Hconn. subst rc.
    unfold with_client, cap_rows, bind, queryM, logM, nowM, ret, throw.
    unfold valid_timeout in Hval.
    apply andb_true_iff in Hval as [Hfin Hneg].
    apply negb_true_iff in Hneg. rewrite Hfin, Hneg. cbn [negb orb].
    destruct (client_query env (SetStatementTimeout _) _) as [[q|e] ms1].
    + destruct (client_query env (Parametrized _ _) _) as [[res|e] ms2].
      * cbn [fst snd clock].
        exists [Parametrized (query p)
                  match params p with Some l => l | None => [] end].
        destruct (exceeds (rowCount res) (effective_maxRows config p));
          cbn; now rewrite <- app_assoc.
      * exists [Parametrized (query p)
                  match params p with Some l => l | None => [] end].
        cbn. now rewrite <- app_assoc.
    + exists []. reflexivity.
Qed.

Lemma executeQuery_timeout_witness :
  effective_timeout (default_config ReadOnly)
    (request "SELECT 1" (Some (ofZ 5000)) None) = ofZ 5000 /\
  effective_timeout (default_config ReadOnly)
    (request "SELECT 1" None None) = ofZ 30000 /\
  fst (executeQuery (steady empty_result) (default_config ReadOnly)
         (request "SELECT 1" (Some (ofZ (-5))) None) quiet)
    = Err "Invalid timeout value" /\
  sent (snd (executeQuery (steady empty_result) (default_config ReadOnly)
               (request "SELECT 1" (Some (ofZ (-5))) None) quiet)) = [].
Proof.
  split; [|split].
  - apply (proj1 (executeQuery_timeout (steady empty_result)
                    (default_config ReadOnly)
                    (request "SELECT 1" (Some (ofZ 5000)) None) quiet));
      reflexivity.
  - apply (proj1 (proj2 (executeQuery_timeout (steady empty_result)
                    (default_config ReadOnly)
                    (request "SELECT 1" None None) quiet))).
    reflexivity.
  - destruct (executeQuery_timeout (steady empty_result)
                (default_config ReadOnly)
                (request "SELECT 1" (Some (ofZ (-5))) None) quiet)
      as (_ & _ & H & _).
    destruct (H eq_refl) as (_ & Hsent & Herr).
    split; [apply Herr; [reflexivity | intros w; reflexivity]
           | exact Hsent].
Defined.

(** C2, as stated, fails in two ways.  With a result that is consistent
    ([rowCount] equal to the number of rows) and a negative cap,
    [slice(0, -1)] drops one row: 3 rows and the cap -1 give 2 rows.  With a
    natural cap and the result of an [UPDATE] (no rows, [rowCount] the
    number of affected rows, here 5 against the cap 2), the cap is not
    below the number of rows, yet the warning is logged (and [rowCount] is
    overwritten with the cap). *)
Lemma row_cap_counterexample :
  let three :=
    {| rows := [VStr "a"; VStr "b"; VStr "c"];
       rowCount := Some (ofZ 3); fields := [] |} in
  let updated := {| rows := []; rowCount := Some (ofZ 5); fields := [] |} in
  let small :=
    {| mode := ReadWrite; queryTimeout := ofZ 30000;
       maxResultRows := ofZ 2; enableRateLimit := true;
       rateLimitMaxRequests := 100; rateLimitWindowMs := 60000 |} in
  ~ row_cap_as_stated (steady three) (default_config ReadOnly)
      (request "SELECT * FROM t" None (Some (ofZ (-1)))) quiet three /\
  ~ row_cap_as_stated (steady updated) small
      (request "UPDATE t SET a = 1" None None) quiet updated.
Proof.
  split.
  - intros H. vm_compute in H. destruct H as [H _].
    destruct (H eq_refl) as (res' & Hout & Hlen & _).
    injection Hout as <-. vm_compute in Hlen. discriminate.
  - intros H. vm_compute in H. destruct H as [_ H].
    destruct (H eq_refl) as (res' & _ & _ & Hwarn). discriminate.
Qed.

(** C2, amended.  For a call that reaches the database, whose result
    reports a [rowCount] equal to the number [R] of its rows, and whose
    effective cap [C] is a non-negative integer: if [C < R] the returned
    rows are the first [C] rows, [rowCount] is the cap, and one call to
    [logger.warn] is made; if [C >= R] the result is returned unmodified
    and no call to [logger.warn] is made. *)
Theorem executeQuery_row_cap (env : Environment) (config : ServerConfig)
  (p : QueryParams) (w : World) (res : QueryResult) (r c : Q) (C : Z) :
  sanitizeQuery (query p) (mode config) = Ok tt ->
  always_connects env ->
  valid_timeout (effective_timeout config p) = true ->
  accepts env (SetStatementTimeout (floor (effective_timeout config p))) ->
  answers env (Parametrized (query p) (params_of p)) res ->
  rowCount res = Some (Num r) ->
  r == inject_Z (Z.of_nat (List.length (rows res))) ->
  effective_maxRows config p = Num c ->
  c == inject_Z C -> 0 <= C ->
  let R := Z.of_nat (List.length (rows res)) in
  let out := fst (executeQuery env config p w) in
  let w' := snd (executeQuery env config p w) in
  (C < R ->
   out = Ok {| rows := firstn (Z.to_nat C) (rows res);
               rowCount := Some (Num c);
               fields := fields res |} /\
   Z.of_nat (List.length (firstn (Z.to_nat C) (rows res))) = C /\
   warnings w' = warnings w ++ [cap_warning (rowCount res) (Num c)]) /\
  (R <= C -> out = Ok res /\ warnings w' = warnings w).
Proof.
  intros Hs Hconn Hval Hset Hans Hrc Hr Hcap Hc HC R out w'.
  subst out w'. unfold executeQuery. rewrite Hs, Hcap.
  set (w1 := write_log _ _ _ _ w).
  unfold connectM. specialize (Hconn w1).
  destruct (pool_connect env w1) as [rc ms]. simpl in Hconn. subst rc.
  unfold with_client, cap_rows, bind, queryM, logM, nowM, ret, throw.
  unfold valid_timeout in Hval.
  apply andb_true_iff in Hval as [Hfin Hneg].
  apply negb_true_iff in Hneg. rewrite Hfin, Hneg. cbn [negb orb].
  match goal with
  | |- context [client_query env (SetStatementTimeout ?t) ?W] =>
      pose proof (Hset W) as HS;
      destruct (client_query env (SetStatementTimeout t) W) as [[q|e] ms1];
      [clear HS | discriminate HS]
  end.
  unfold answers, params_of in Hans.
  match goal with
  | |- context [client_query env (Parametrized ?a ?b) ?W] =>
      pose proof (Hans W) as HA;
      destruct (client_query env (Parametrized a b) W) as [rq ms2];
      simpl in HA; subst rq
  end.
  cbn [fst snd clock].
  rewrite Hrc, (exceeds_integers r c R C Hr Hc HC).
  split.
  - intros Hlt. rewrite (proj2 (Z.ltb_lt C R) Hlt).
    destruct (slice0_integer (rows res) c C Hc HC ltac:(fold R; lia))
      as [Hslice Hlen].
    cbn [fst snd]. rewrite Hslice.
    split; [reflexivity|]. split; [now rewrite <- Hslice|].
    unfold warnings, w1. cbn [release write_log tick record_sent acquire log].
    rewrite !filter_app. cbn. now rewrite !app_nil_r.
  - intros Hge. rewrite (proj2 (Z.ltb_ge C R) Hge).
    cbn [fst snd]. split; [reflexivity|].
    unfold warnings, w1. cbn [release write_log tick record_sent acquire log].
    rewrite !filter_app. cbn. now rewrite !app_nil_r.
Qed.

Lemma executeQuery_row_cap_witness :
  let three :=
    {| rows := [VStr "a"; VStr "b"; VStr "c"];
       rowCount := Some (ofZ 3); fields := [] |} in
  let call := executeQuery (steady three) (default_config ReadOnly)
                (request "SELECT * FROM t" None (Some (ofZ 2))) quiet in
  fst call = Ok {| rows := [VStr "a"; VStr "b"];
                   rowCount := Some (ofZ 2); fields := [] |} /\
  warnings (snd call) = [cap_warning (Some (ofZ 3)) (ofZ 2)].
Proof.
  intros three call.
  destruct (executeQuery_row_cap (steady three) (default_config ReadOnly)
              (request "SELECT * FROM t" None (Some (ofZ 2))) quiet three
              (inject_Z 3) (inject_Z 2) 2) as [H _].
  - reflexivity.
  - intros w; reflexivity.
  - reflexivity.
  - intros w; reflexivity.
  - intros w; reflexivity.
  - reflexivity.
  - reflexivity.
  - reflexivity.
  - reflexivity.
  - lia.
  - destruct H as (Hout & _ & Hwarn); [simpl; lia|].
    split; [exact Hout | exact Hwarn].
Defined.

End DatabaseClaims.

(* ===================================================================== *)
(** * Properties of the catalog and of the dispatcher *)
(* ===================================================================== *)

Module ServerProps.
Import JS Sanitize Database Zod Server.

(** ** The [required] array *)

Lemma required_list_keys (shape : list (string * ZodType)) :
  required_list (zodToJsonSchema (ZodObject shape)) = required_keys shape.
Proof.
  unfold required_list, zodToJsonSchema. cbn [required shape_of].
  destruct (required_keys shape); reflexivity.
Qed.

Lemma required_keys_In (shape : list (string * ZodType)) (key : string) :
  In key (required_keys shape) <->
  exists field, In (key, field) shape /\ defaultValue_of field = None.
Proof.
  induction shape as [|[k f] rest IH]; simpl.
  - split; [contradiction | intros (f & [] & _)].
  - destruct (defaultValue_of f) eqn:E.
    + rewrite IH. split.
      * intros (g & Hg & Hd). exists g. split; [now right | exact Hd].
      * intros (g & [Hg|Hg] & Hd).
        -- injection Hg as -> ->. congruence.
        -- exists g. now split.
    + simpl. rewrite IH. split.
      * intros [->|(g & Hg & Hd)].
        -- exists f. split; [now left | exact E].
        -- exists g. split; [now right | exact Hd].
      * intros (g & [Hg|Hg] & Hd).
        -- injection Hg as -> ->. now left.
        -- right. exists g. now split.
Qed.

Lemma distinct_cons (k : string) (rest : list string) :
  distinct (k :: rest) = true -> ~ In k rest /\ distinct rest = true.
Proof.
  simpl. intros H. apply andb_true_iff in H as [H1 H2]. split; [|exact H2].
  intros Hin. apply negb_true_iff in H1.
  assert (existsb (String.eqb k) rest = true); [|congruence].
  apply existsb_exists. exists k. split; [exact Hin | apply String.eqb_refl].
Qed.

(** With distinct keys a key names one field. *)
Lemma distinct_keys_functional (shape : list (string * ZodType))
  (key : string) (f g : ZodType) :
  distinct (map fst shape) = true ->
  In (key, f) shape -> In (key, g) shape -> f = g.
Proof.
  induction shape as [|[k h] rest IH]; [contradiction|].
  cbn [map fst]. intros Hd Hf Hg.
  apply distinct_cons in Hd as [Hnot Hd].
  assert (Hkey : forall x, In (k, x) rest -> False).
  { intros x Hx. apply Hnot. apply in_map_iff. now exists (k, x). }
  destruct Hf as [Hf|Hf], Hg as [Hg|Hg].
  - congruence.
  - injection Hf as -> ->. exfalso. eapply Hkey. exact Hg.
  - injection Hg as -> ->. exfalso. eapply Hkey. exact Hf.
  - now apply IH.
Qed.

Lemma listTools_entry (tools : list (string * ToolDefinition))
  (mode : DatabaseMode) (name : string) (tool : ToolDefinition) :
  In (name, tool) tools ->
  In {| tool_name := name;
        description := getToolDescription name mode;
        inputSchema := zodToJsonSchema (def (schema tool)) |}
     (listTools tools mode).
Proof.
  intros H. unfold listTools. apply in_map_iff.
  exists (name, tool). split; [reflexivity | exact H].
Qed.

(** Opening one invocation: the handler body down to its primitive
    steps. *)
Ltac open_callTool :=
  unfold callTool, executeTool, dlog, lift, logM, dbind, dthrow, dret, step,
    checkLimitD, handler_world;
  cbn [world limiter steps write_log clock fst snd].

End ServerProps.

Module CatalogClaims.
Import JS Sanitize Database Zod Server ServerProps.

(** C9.  For a registered tool whose schema is an object with the given
    shape, the catalog entry of that tool lists a key in [required] exactly
    when the field of that key carries no default value.  In particular a
    field declared optional without a default is listed as required, while
    the schema library accepts its absence. *)
Theorem catalog_required (tools : list (string * ToolDefinition))
  (mode : DatabaseMode) (name : string) (tool : ToolDefinition)
  (shape : list (string * ZodType)) :
  In (name, tool) tools ->
  def (schema tool) = ZodObject shape ->
  distinct (map fst shape) = true ->
  exists entry,
    In entry (listTools tools mode) /\
    tool_name entry = name /\
    let advertised := required_list (inputSchema entry) in
    (forall key field,
        In (key, field) shape ->
        (In key advertised <-> defaultValue_of field = None)) /\
    (forall key inner,
        In (key, ZodOptional inner) shape ->
        In key advertised /\ accepts_undefined (ZodOptional inner) = true).
Proof.
  intros Hin Hdef Hdist.
  eexists. split; [apply (listTools_entry tools mode name tool Hin)|].
  split; [reflexivity|].
  cbn [inputSchema]. rewrite Hdef, required_list_keys.
  assert (Hiff : forall key field,
             In (key, field) shape ->
             (In key (required_keys shape)
              <-> defaultValue_of field = None)).
  { intros key field Hf. rewrite required_keys_In. split.
    - intros (g & Hg & Hd).
      now rewrite (distinct_keys_functional shape key field g Hdist Hf Hg).
    - intros Hd. now exists field. }
  split; [exact Hiff|].
  intros key inner Hf. split; [|reflexivity].
  now apply (Hiff key (ZodOptional inner) Hf).
Qed.

Lemma catalog_required_witness :
  let executeQueryTool :=
    {| schema := {| def := ExecuteQuerySchema; parse := fun args => Ok args |};
       handler := fun _ => ret VNull |} in
  required_list (zodToJsonSchema ExecuteQuerySchema)
    = ["query"; "timeout"; "maxRows"] /\
  exists entry,
    In entry (listTools [("executeQuery", executeQueryTool)] ReadOnly) /\
    tool_name entry = "executeQuery" /\
    In "timeout" (required_list (inputSchema entry)) /\
    ~ In "params" (required_list (inputSchema entry)).
Proof.
  intros executeQueryTool. split; [reflexivity|].
  destruct (catalog_required [("executeQuery", executeQueryTool)] ReadOnly
              "executeQuery" executeQueryTool
              [ ("query", ZodString);
                ("params",
                 ZodDefault (ZodOptional (ZodArray ZodAny)) (VArr []));
                ("timeout", ZodOptional ZodNumber);
                ("maxRows", ZodOptional ZodNumber) ])
    as (entry & Hentry & Hname & Hiff & Hopt).
  - simpl. now left.
  - reflexivity.
  - reflexivity.
  - exists entry. split; [exact Hentry|]. split; [exact Hname|]. split.
    + apply (Hopt "timeout" ZodNumber). simpl. tauto.
    + intros Hp.
      apply (Hiff "params"
               (ZodDefault (ZodOptional (ZodArray ZodAny)) (VArr []))) in Hp;
        [discriminate | simpl; tauto].
Defined.

End CatalogClaims.

Module DispatchClaims.
Import JS Sanitize Database Zod Server ServerProps.

(** C1, as stated: the rate-limit check comes after lookup and validation,
    so that the steps of an invocation are an initial part of lookup,
    validation, rate check, execution, and an unknown tool name never
    consumes a slot.  Neither holds: [checkLimit] is the first statement of
    the [try] block. *)
Lemma dispatch_order_counterexample :
  ~ (forall tools name args s,
        exists k,
          steps (snd (callTool tools name args s))
          = steps s ++ firstn k [Lookup; Validate; RateCheck; Execute]) /\
  ~ (forall tools name args s,
        getTool tools name = Missing ->
        RateLimiter.requests (limiter (snd (callTool tools name args s)))
        = RateLimiter.requests (limiter s)).
Proof.
  split.
  - intros H.
    destruct (H sample_tools "nope" None
                (initial_state (default_config ReadOnly) quiet)) as [k Hk].
    vm_compute in Hk.
    destruct k as [|[|[|[|k]]]]; discriminate.
  - intros H.
    specialize (H sample_tools "nope" None
                  (initial_state (default_config ReadOnly) quiet) eq_refl).
    vm_compute in H. discriminate.
Qed.

(** C1, amended.  For every invocation the steps occur in the order: rate
    limit check, tool-name lookup, schema validation, handler execution.
    The limiter is changed by that one [checkLimit] call and by nothing
    else; an invocation it rejects stops there.  An invocation whose name is
    not a registered tool stops after the lookup and one whose arguments
    fail validation stops after the validation, both after [checkLimit]:
    with the limiter enabled, the invocation has been recorded in the
    window. *)
Theorem dispatch_order (tools : list (string * ToolDefinition))
  (name : string) (args : option value) (s : State) :
  let s' := snd (callTool tools name args s) in
  let now := clock (world s) in
  let checked := RateLimiter.checkLimit now (limiter s) in
  limiter s' = snd checked /\
  (isErr (fst checked) = true -> steps s' = steps s ++ [RateCheck]) /\
  (isErr (fst checked) = false ->
   match getTool tools name with
   | Missing | Inherited => steps s' = steps s ++ [RateCheck; Lookup]
   | Own tool =>
       match parse (schema tool) (arguments args) with
       | Err _ => steps s' = steps s ++ [RateCheck; Lookup; Validate]
       | Ok _ =>
           steps s' = steps s ++ [RateCheck; Lookup; Validate; Execute]
       end
   end) /\
  (RateLimiter.enabled (limiter s) = true ->
   isErr (fst checked) = false ->
   RateLimiter.requests (limiter s')
   = filter (fun ts => ts >? now - RateLimiter.windowMs (limiter s))
       (RateLimiter.requests (limiter s)) ++ [now]).
Proof.
  intros s' now checked. subst s' checked now.
  open_callTool.
  destruct (RateLimiter.checkLimit (clock (world s)) (limiter s))
    as [[[]|e] rl] eqn:Echeck; cbn [fst snd isErr].
  2:{ cbn. rewrite <- ?app_assoc.
      repeat split; try reflexivity; intros; discriminate. }
  assert (Hreq :
            RateLimiter.enabled (limiter s) = true ->
            RateLimiter.requests rl
            = filter (fun ts =>
                        ts >? clock (world s)
                              - RateLimiter.windowMs (limiter s))
                (RateLimiter.requests (limiter s)) ++ [clock (world s)]).
  { intros He. unfold RateLimiter.checkLimit in Echeck.
    rewrite He in Echeck. cbn [negb] in Echeck.
    destruct (_ >=? _) in Echeck; [discriminate|].
    injection Echeck as <-. reflexivity. }
  destruct (getTool tools name) as [tool| |].
  - destruct (parse (schema tool) (arguments args)) as [v|e].
    + cbn [world limiter steps write_log clock fst snd].
      destruct (handler tool v _) as [[res|e] w2];
        cbn; rewrite <- ?app_assoc;
        (split; [reflexivity|]); (split; [intros; discriminate|]);
        (split; [intros _; reflexivity | intros He _; now apply Hreq]).
    + cbn. rewrite <- ?app_assoc.
      split; [reflexivity|]. split; [intros; discriminate|].
      split; [intros _; reflexivity | intros He _; now apply Hreq].
  - cbn. rewrite <- ?app_assoc.
    split; [reflexivity|]. split; [intros; discriminate|].
    split; [intros _; reflexivity | intros He _; now apply Hreq].
  - cbn. rewrite <- ?app_assoc.
    split; [reflexivity|]. split; [intros; discriminate|].
    split; [intros _; reflexivity | intros He _; now apply Hreq].
Qed.

Lemma dispatch_order_witness :
  let s' := snd (callTool sample_tools "nope" None
                   (initial_state (default_config ReadOnly) quiet)) in
  steps s' = [RateCheck; Lookup] /\
  RateLimiter.requests (limiter s') = [0].
Proof.
  intros s'.
  destruct (dispatch_order sample_tools "nope" None
              (initial_state (default_config ReadOnly) quiet))
    as (_ & _ & Hsteps & Hreq).
  split.
  - apply Hsteps. reflexivity.
  - apply Hreq; reflexivity.
Defined.

(** C8.  Every invocation is answered with one of two envelopes: a single
    text item holding the JSON text of the handler's result, or a single
    text item holding the JSON text of [{ error, tool }] together with
    [isError: true], where [tool] is the invoked name and [error] the
    message of what was thrown.  The second is what a rejection by the rate
    limiter, an unknown tool name, a validation failure and a handler error
    each produce, with the message of that failure; the first is produced
    exactly when the handler returns. *)
Theorem callTool_envelope (tools : list (string * ToolDefinition))
  (name : string) (args : option value) (s : State) :
  let success := fun result : value =>
    {| content := [ {| type := "text"; text := stringify result |} ];
       isError := None |} in
  let failure := fun message : string =>
    {| content :=
         [ {| type := "text";
              text := stringify (VObj [("error", VStr message);
                                       ("tool", VStr name)]) |} ];
       isError := Some true |} in
  let response := fst (callTool tools name args s) in
  let checked :=
    fst (RateLimiter.checkLimit (clock (world s)) (limiter s)) in
  ((exists result, response = success result) \/
   (exists message, response = failure message)) /\
  (forall message, checked = Err message -> response = failure message) /\
  (checked = Ok tt -> getTool tools name = Missing ->
   response
   = failure
       ("Tool " ++ String dquote name ++ String dquote " not found")%string)
  /\
  (checked = Ok tt -> getTool tools name = Inherited ->
   response
   = failure "Cannot read properties of undefined (reading 'parse')") /\
  (forall tool,
      checked = Ok tt -> getTool tools name = Own tool ->
      match parse (schema tool) (arguments args) with
      | Err message => response = failure message
      | Ok validatedArgs =>
          match fst (handler tool validatedArgs
                       (handler_world name args validatedArgs (world s)))
          with
          | Ok result => response = success result
          | Err message => response = failure message
          end
      end).
Proof.
  intros success failure response checked.
  subst success failure response checked.
  open_callTool.
  destruct (RateLimiter.checkLimit (clock (world s)) (limiter s))
    as [[[]|e] rl]; cbn [fst snd].
  2:{ split; [right; now exists e|].
      split; [intros m [= <-]; reflexivity|].
      repeat split; intros; discriminate. }
  destruct (getTool tools name) as [tool| |].
  - destruct (parse (schema tool) (arguments args)) as [v|e] eqn:Eparse.
    + cbn [world limiter steps write_log clock fst snd].
      destruct (handler tool v _) as [[res|e] w2] eqn:Eh; cbn [fst snd].
      * split; [left; now exists res|].
        split; [intros; discriminate|].
        split; [intros; discriminate|]. split; [intros; discriminate|].
        intros tool' _ [= <-]. rewrite Eparse, Eh. reflexivity.
      * split; [right; now exists e|].
        split; [intros; discriminate|].
        split; [intros; discriminate|]. split; [intros; discriminate|].
        intros tool' _ [= <-]. rewrite Eparse, Eh. reflexivity.
    + cbn [fst snd]. split; [right; now exists e|].
      split; [intros; discriminate|].
      split; [intros; discriminate|]. split; [intros; discriminate|].
      intros tool' _ [= <-]. rewrite Eparse. reflexivity.
  - cbn [fst snd]. split; [right; now exists no_schema_message|].
    split; [intros; discriminate|].
    split; [intros; discriminate|]. split; [reflexivity|].
    intros; discriminate.
  - cbn [fst snd]. split; [right; now exists (not_found_message name)|].
    split; [intros; discriminate|].
    split; [reflexivity|]. split; [intros; discriminate|].
    intros; discriminate.
Qed.

Lemma callTool_envelope_witness :
  fst (callTool sample_tools "ping" None
         (initial_state (default_config ReadOnly) quiet))
    = {| content :=
           [ {| type := "text";
                text := stringify (VObj [("ok", VBool true)]) |} ];
         isError := None |} /\
  fst (callTool sample_tools "nope" None
         (initial_state (default_config ReadOnly) quiet))
    = {| content :=
           [ {| type := "text";
                text :=
                  stringify
                    (VObj [("error",
                            VStr ("Tool " ++ String dquote "nope" ++
                                  String dquote " not found")%string);
                           ("tool", VStr "nope")]) |} ];
         isError := Some true |}.
Proof.
  split.
  - destruct (callTool_envelope sample_tools "ping" None
                (initial_state (default_config ReadOnly) quiet))
      as (_ & _ & _ & _ & H).
    exact (H ping eq_refl eq_refl).
  - destruct (callTool_envelope sample_tools "nope" None
                (initial_state (default_config ReadOnly) quiet))
      as (_ & _ & H & _).
    exact (H eq_refl eq_refl).
Defined.

End DispatchClaims.

(* ===================================================================== *)
(** * Further properties: the pattern matcher on the shapes in use *)
(* ===================================================================== *)

Module RegexProps.
Import JS.

Lemma star_from_nil (step : config -> list config) (n : nat) :
  star_from step n [] = [].
Proof. induction n as [|n IH]; simpl; [reflexivity | exact IH]. Qed.

Lemma star_class (ic : bool) (g : ascii -> bool) (l : list ascii) :
  forall (p : option ascii) (n : nat),
    (List.length l <= n)%nat ->
    star_from (ends ic (Class g)) n [(p, l)] = class_run g p l.
Proof.
  induction l as [|c l IH]; intros p n Hn.
  - destruct n as [|n]; simpl; [reflexivity|].
    now rewrite star_from_nil.
  - destruct n as [|n]; [simpl in Hn; lia|].
    cbn [star_from flat_map ends snd class_run].
    destruct (g c).
    + cbn [filter snd List.length app].
      replace (List.length l <? S (List.length l))%nat with true
        by (symmetry; apply Nat.ltb_lt; lia).
      cbn [app]. rewrite IH by (simpl in Hn; lia). reflexivity.
    + cbn [filter app]. now rewrite star_from_nil.
Qed.

(** A repeated class followed by [$] matches exactly when the whole rest
    of the input is in the class. *)
Lemma class_run_eol (ic : bool) (g : ascii -> bool) (l : list ascii) :
  forall p,
    match flat_map (ends ic Eol) (class_run g p l) with
    | [] => false
    | _ :: _ => true
    end = forallb g l.
Proof.
  induction l as [|c l IH]; intros p; [reflexivity|].
  cbn [class_run flat_map ends snd app forallb].
  destruct (g c); [apply IH | reflexivity].
Qed.

Lemma ends_seq (ic : bool) (a b : re) (cf : config) :
  ends ic (Seq a b) cf = flat_map (ends ic b) (ends ic a cf).
Proof. reflexivity. Qed.

Lemma ends_star (ic : bool) (a : re) (p : option ascii) (l : list ascii) :
  ends ic (Star a) (p, l) = star_from (ends ic a) (List.length l) [(p, l)].
Proof. reflexivity. Qed.

(** [^], one character of a class, any number of another class, [$]. *)
Lemma anchored_class_star (ic : bool) (f g : ascii -> bool)
  (l : list ascii) :
  matches_at ic (Seq Bol (Seq (Class f) (Seq (Star (Class g)) Eol)))
    (None, l)
  = match l with
    | [] => false
    | c :: l' => f c && forallb g l'
    end.
Proof.
  unfold matches_at. rewrite ends_seq.
  change (ends ic Bol (None, l)) with [((None, l) : config)].
  cbn [flat_map]. rewrite app_nil_r, ends_seq.
  destruct l as [|c l']; [reflexivity|].
  change (ends ic (Class f) (None, c :: l'))
    with (if f c then [((Some c, l') : config)] else []).
  destruct (f c); [|reflexivity].
  cbn [flat_map andb]. rewrite app_nil_r, ends_seq, ends_star.
  rewrite star_class by lia. apply class_run_eol.
Qed.

(** A pattern that starts with [^] can only match at the start. *)
Lemma search_bol (ic : bool) (r : re) (s : list ascii) :
  search ic (Seq Bol r) None s = matches_at ic (Seq Bol r) (None, s).
Proof.
  assert (H : forall c l, search ic (Seq Bol r) (Some c) l = false).
  { intros c l. revert c. induction l as [|d l IH]; intros c.
    - reflexivity.
    - cbn [search]. rewrite IH. reflexivity. }
  destruct s as [|c l]; cbn [search].
  - apply orb_false_r.
  - rewrite H. apply orb_false_r.
Qed.

(** A literal, without the [i] flag, matches where it is a prefix. *)
Lemma ends_lit (l : string) :
  forall (p : option ascii) (s : list ascii),
    matches_at false (Lit l) (p, s)
    = prefixb (list_ascii_of_string l) s.
Proof.
  unfold matches_at.
  induction l as [|c l IH]; intros p s; [reflexivity|].
  destruct l as [|d l].
  - cbn [Lit ends snd list_ascii_of_string prefixb chr_matches].
    destruct s as [|b s]; [reflexivity|].
    destruct (Ascii.eqb c b); [now destruct s | reflexivity].
  - change (Lit (String c (String d l)))
      with (Seq (Chr c) (Lit (String d l))).
    cbn [ends snd chr_matches].
    change (list_ascii_of_string (String c (String d l)))
      with (c :: list_ascii_of_string (String d l)).
    destruct s as [|b s]; [reflexivity|].
    cbn [prefixb]. destruct (Ascii.eqb c b); [|reflexivity].
    cbn [flat_map andb]. rewrite app_nil_r. apply IH.
Qed.

Lemma search_lit (l : string) (s : list ascii) :
  forall p, search false (Lit l) p s
            = occursb (list_ascii_of_string l) s.
Proof.
  induction s as [|c s IH]; intros p; cbn [search occursb];
    rewrite ends_lit; [reflexivity|].
  now rewrite IH.
Qed.

(** With the [i] flag a literal matches where it is a prefix up to case. *)
Lemma ends_lit_ci (l : string) :
  forall (p : option ascii) (s : list ascii),
    matches_at true (Lit l) (p, s)
    = prefixb (map upperChar (list_ascii_of_string l)) (map upperChar s).
Proof.
  unfold matches_at.
  induction l as [|c l IH]; intros p s; [reflexivity|].
  destruct l as [|d l].
  - cbn [Lit ends snd list_ascii_of_string prefixb chr_matches map].
    destruct s as [|b s]; [reflexivity|]. cbn [map prefixb].
    destruct (Ascii.eqb (upperChar c) (upperChar b));
      [now destruct s | reflexivity].
  - change (Lit (String c (String d l)))
      with (Seq (Chr c) (Lit (String d l))).
    cbn [ends snd chr_matches].
    change (list_ascii_of_string (String c (String d l)))
      with (c :: list_ascii_of_string (String d l)).
    destruct s as [|b s]; [reflexivity|].
    cbn [map prefixb].
    destruct (Ascii.eqb (upperChar c) (upperChar b)); [|reflexivity].
    cbn [flat_map andb]. rewrite app_nil_r. apply IH.
Qed.

Lemma search_lit_ci (l : string) (s : list ascii) :
  forall p, search true (Lit l) p s
            = occursb (map upperChar (list_ascii_of_string l))
                (map upperChar s).
Proof.
  induction s as [|c s IH]; intros p; cbn [search occursb map];
    rewrite ends_lit_ci; [reflexivity|].
  now rewrite IH.
Qed.

Lemma test_lit_ci (l s : string) :
  test (mkRegExp (Lit l) true) s = contains_ci l s.
Proof.
  unfold test, contains_ci. cbn [ignoreCase source].
  apply search_lit_ci.
Qed.

Lemma test_lit (l s : string) :
  test (mkRegExp (Lit l) false) s = contains l s.
Proof. unfold test, contains. cbn [ignoreCase source]. apply search_lit. Qed.

End RegexProps.

(* ===================================================================== *)
(** * Further properties of the sanitizer *)
(* ===================================================================== *)

Module SanitizeMore.
Import JS Sanitize SanitizeProps RegexProps.

Lemma all_chars_forallb (p : ascii -> bool) (s : string) :
  all_chars p s = forallb p (list_ascii_of_string s).
Proof. induction s as [|c s IH]; simpl; [reflexivity | now rewrite IH]. Qed.

Lemma forallb_ext_all {A : Type} (f g : A -> bool) (l : list A) :
  (forall x, f x = g x) -> forallb f l = forallb g l.
Proof.
  intros H. induction l as [|x l IH]; simpl; [reflexivity|].
  now rewrite H, IH.
Qed.

Lemma test_identifierPattern (s : string) :
  test identifierPattern s = isIdentifier s.
Proof.
  unfold test, identifierPattern. cbn [ignoreCase source Seqs].
  rewrite search_bol, anchored_class_star.
  destruct s as [|c rest]; [reflexivity|].
  cbn [list_ascii_of_string isIdentifier]. f_equal.
  rewrite all_chars_forallb. apply forallb_ext_all.
  intros x. unfold isWord. now rewrite (orb_comm (isLower x)).
Qed.

Lemma sanitizeIdentifier_cases (identifier : string) :
  sanitizeIdentifier identifier =
    if isIdentifier identifier then Ok identifier
    else Err (invalid_identifier identifier).
Proof.
  unfold sanitizeIdentifier. rewrite test_identifierPattern.
  now destruct (isIdentifier identifier).
Qed.

(** X1.  [sanitizeIdentifier] returns its argument unchanged exactly when
    it is a letter or underscore followed by letters, digits and
    underscores, and throws the invalid-identifier error for every other
    string, the empty one included. *)
Theorem sanitizeIdentifier_spec (identifier : string) :
  sanitizeIdentifier identifier =
    if isIdentifier identifier then Ok identifier
    else Err (invalid_identifier identifier).
Proof.
  unfold sanitizeIdentifier. rewrite test_identifierPattern.
  now destruct (isIdentifier identifier).
Qed.

Lemma trimStart_empty (s : string) :
  trimStart s = EmptyString -> isBlank s = true.
Proof.
  induction s as [|c s IH]; simpl; [reflexivity|].
  destruct (isSpace c); [exact IH | discriminate].
Qed.

Lemma trimEnd_blank_inv (s : string) :
  isBlank (trimEnd s) = true -> isBlank s = true.
Proof.
  induction s as [|c s IH]; simpl; [reflexivity|].
  destruct (isSpace c) eqn:Ec; simpl.
  - destruct (isEmpty (trimEnd s)) eqn:E; simpl; rewrite ?Ec; simpl.
    + intros _. apply IH. destruct (trimEnd s); [reflexivity | discriminate].
    + exact IH.
  - rewrite Ec. discriminate.
Qed.

(** The opening guard of the validators fires on blank input only. *)
Lemma guard_blank (s : string) :
  falsy_string s || falsy_string (trim s) = true -> isBlank s = true.
Proof.
  intros G. apply trimEnd_blank_inv, trimStart_empty.
  apply orb_true_iff in G as [G|G].
  - destruct s; [reflexivity | discriminate].
  - unfold trim in G. destruct (trimStart (trimEnd s));
      [reflexivity | discriminate].
Qed.

Lemma existsb_false_In {A : Type} (f : A -> bool) (l : list A) (x : A) :
  existsb f l = false -> In x l -> f x = false.
Proof.
  intros H Hin. destruct (f x) eqn:E; [|reflexivity].
  assert (existsb f l = true) by (apply existsb_exists; now exists x).
  congruence.
Qed.

Lemma no_comment_markers (ps : list RegExp) (t : string) :
  In (mkRegExp (Lit "--") false) ps ->
  In (mkRegExp (Lit "/*") false) ps ->
  In (mkRegExp (Lit "*/") false) ps ->
  any_pattern ps t = false ->
  contains "--" t = false /\ contains "/*" t = false /\
  contains "*/" t = false.
Proof.
  intros H1 H2 H3 Hany. unfold any_pattern in Hany.
  rewrite <- !test_lit.
  repeat split;
    apply (existsb_false_In (fun p => test p t) ps _ Hany); assumption.
Qed.

(** X2.  A query [sanitizeQuery] accepts is, once trimmed, not empty, starts
    with a keyword of the mode's allow-list, holds none of the comment
    markers [--], [/*], [*/], does not hold [xp_] in any letter case, and
    has no semicolon except possibly as its last character. *)
Theorem sanitizeQuery_accepted (query : string) (mode : DatabaseMode) :
  sanitizeQuery query mode = Ok tt ->
  let t := trim query in
  t <> EmptyString /\
  array_includes (allowedOps mode) (operation_of t) = true /\
  contains "--" t = false /\ contains "/*" t = false /\
  contains "*/" t = false /\
  contains_ci "xp_" t = false /\
  occurs_before_end ";" t = false.
Proof.
  intros H t. unfold sanitizeQuery in H. fold t in H.
  destruct (falsy_string t) eqn:He; [discriminate|].
  destruct (array_includes (allowedOps mode) (operation_of t)) eqn:Hop;
    [|discriminate].
  cbn [negb] in H.
  destruct (any_pattern DANGEROUS_PATTERNS t) eqn:Hany; [discriminate|].
  destruct (multiple_statements t) eqn:Hm; [discriminate|].
  split; [intros E; rewrite E in He; discriminate|].
  split; [reflexivity|].
  destruct (no_comment_markers DANGEROUS_PATTERNS t) as (A & B & C);
    try exact Hany; try (cbn; tauto).
  repeat (split; [assumption|]).
  split.
  - rewrite <- test_lit_ci.
    apply (existsb_false_In (fun p => test p t) DANGEROUS_PATTERNS _ Hany).
    cbn. tauto.
  - now rewrite <- multiple_statements_spec.
Qed.

Lemma sanitizeQuery_accepted_witness :
  contains "--" (trim "  SELECT 1;  ") = false /\
  occurs_before_end ";" (trim "  SELECT 1;  ") = false.
Proof.
  destruct (sanitizeQuery_accepted "  SELECT 1;  " ReadOnly eq_refl)
    as (_ & _ & H & _ & _ & _ & H').
  split; [exact H | exact H'].
Defined.

(** X3.  A fragment accepted by [validateUserWhereClause] is not blank,
    holds no comment marker, as many opening as closing parentheses and an
    even number of single quotes; one accepted by [validateCondition] is
    not blank, holds no comment marker and has balanced parenthesis
    counts; one accepted by [validateOrderBy] is blank or holds no comment
    marker.  All three look at the trimmed fragment. *)
Theorem accepted_fragments (s : string) :
  (validateUserWhereClause s = Ok tt ->
   isBlank s = false /\
   contains "--" (trim s) = false /\ contains "/*" (trim s) = false /\
   contains "*/" (trim s) = false /\
   count_char "(" (trim s) = count_char ")" (trim s) /\
   (count_char "'" (trim s)) mod 2 = 0) /\
  (validateCondition s = Ok tt ->
   isBlank s = false /\
   contains "--" (trim s) = false /\ contains "/*" (trim s) = false /\
   contains "*/" (trim s) = false /\
   count_char "(" (trim s) = count_char ")" (trim s)) /\
  (validateOrderBy s = Ok tt ->
   isBlank s = true \/
   (contains "--" (trim s) = false /\ contains "/*" (trim s) = false /\
    contains "*/" (trim s) = false)).
Proof.
  assert (Hblank : falsy_string s || falsy_string (trim s) = false ->
                   isBlank s = false).
  { intros H. destruct (isBlank s) eqn:E; [|reflexivity].
    rewrite (blank_guard s E) in H. discriminate. }
  assert (Hin : In (mkRegExp (Lit "--") false) WHERE_DANGEROUS_PATTERNS /\
                In (mkRegExp (Lit "/*") false) WHERE_DANGEROUS_PATTERNS /\
                In (mkRegExp (Lit "*/") false) WHERE_DANGEROUS_PATTERNS)
    by (cbn; tauto).
  destruct Hin as (I1 & I2 & I3).
  split; [|split].
  - unfold validateUserWhereClause.
    destruct (falsy_string s || falsy_string (trim s)) eqn:G;
      [discriminate|].
    destruct (any_pattern WHERE_DANGEROUS_PATTERNS (trim s)) eqn:Hany;
      [discriminate|].
    destruct (count_char "(" (trim s) =? count_char ")" (trim s)) eqn:Hp;
      [|discriminate].
    destruct (count_char "'" (trim s) mod 2 =? 0) eqn:Hq; [|discriminate].
    intros _. split; [now apply Hblank|].
    destruct (no_comment_markers _ _ I1 I2 I3 Hany) as (A & B & C).
    repeat (split; [assumption|]).
    split; [now apply Z.eqb_eq | now apply Z.eqb_eq].
  - unfold validateCondition.
    destruct (falsy_string s || falsy_string (trim s)) eqn:G;
      [discriminate|].
    destruct (any_pattern WHERE_DANGEROUS_PATTERNS (trim s)) eqn:Hany;
      [discriminate|].
    destruct (count_char "(" (trim s) =? count_char ")" (trim s)) eqn:Hp;
      [|discriminate].
    intros _. split; [now apply Hblank|].
    destruct (no_comment_markers _ _ I1 I2 I3 Hany) as (A & B & C).
    repeat (split; [assumption|]). now apply Z.eqb_eq.
  - unfold validateOrderBy.
    destruct (falsy_string s || falsy_string (trim s)) eqn:G.
    + intros _. left. now apply guard_blank.
    + destruct (any_pattern WHERE_DANGEROUS_PATTERNS (trim s)) eqn:Hany;
        [discriminate|].
      intros _. right. exact (no_comment_markers _ _ I1 I2 I3 Hany).
Qed.

Lemma accepted_fragments_witness :
  count_char "(" (trim " (a = 1) ") = count_char ")" (trim " (a = 1) ").
Proof.
  destruct (accepted_fragments " (a = 1) ") as [H _].
  destruct (H eq_refl) as (_ & _ & _ & _ & Hp & _). exact Hp.
Defined.

(** ** [escapeIdentifier] *)

Lemma replace_quote_injective (a : string) :
  forall b,
    replace_char dquote twice_quote a = replace_char dquote twice_quote b ->
    a = b.
Proof.
  induction a as [|c a IH]; intros [|d b]; cbn [replace_char]; intros H.
  - reflexivity.
  - destruct (Ascii.eqb d dquote); discriminate.
  - destruct (Ascii.eqb c dquote); discriminate.
  - revert H.
    destruct (Ascii.eqb_spec c dquote) as [->|Hc],
             (Ascii.eqb_spec d dquote) as [->|Hd]; cbn; intros H.
    + injection H as H. now rewrite (IH b H).
    + injection H as H1 H2. exfalso. apply Hd. now rewrite <- H1.
    + injection H as H1 H2. exfalso. apply Hc. now rewrite H1.
    + injection H as -> H. now rewrite (IH b H).
Qed.

Lemma string_length_append (a b : string) :
  String.length (a ++ b) = (String.length a + String.length b)%nat.
Proof. induction a as [|c a IH]; simpl; [reflexivity | now rewrite IH]. Qed.

Lemma append_inv_tail (z : string) (a : string) :
  forall b, (a ++ z)%string = (b ++ z)%string -> a = b.
Proof.
  induction a as [|c a IH]; intros [|d b] H.
  - reflexivity.
  - exfalso. apply (f_equal String.length) in H.
    cbn [append String.length] in H. rewrite string_length_append in H. lia.
  - exfalso. apply (f_equal String.length) in H.
    cbn [append String.length] in H. rewrite string_length_append in H. lia.
  - cbn [append] in H. injection H as -> H. now rewrite (IH b H).
Qed.

Lemma count_char_append (c : ascii) (a b : string) :
  count_char c (a ++ b) = count_char c a + count_char c b.
Proof. induction a as [|d a IH]; simpl; [reflexivity | rewrite IH; lia]. Qed.

Lemma count_replace_quote (s : string) :
  count_char dquote (replace_char dquote twice_quote s)
  = 2 * count_char dquote s.
Proof.
  induction s as [|c s IH]; [reflexivity|].
  cbn [replace_char count_char].
  destruct (Ascii.eqb c dquote) eqn:E.
  - rewrite count_char_append, IH.
    change (count_char dquote twice_quote) with 2. lia.
  - cbn [count_char]. rewrite E, IH. lia.
Qed.

Lemma word_char_not_quote (c : ascii) :
  isWord c = true -> Ascii.eqb c dquote = false.
Proof.
  intros H. destruct (Ascii.eqb_spec c dquote) as [->|]; [|reflexivity].
  vm_compute in H. discriminate.
Qed.

Lemma replace_quote_words (s : string) :
  all_chars isWord s = true -> replace_char dquote twice_quote s = s.
Proof.
  induction s as [|c s IH]; [reflexivity|].
  cbn [all_chars replace_char]. intros H.
  apply andb_true_iff in H as [Hc Hs].
  now rewrite (word_char_not_quote c Hc), (IH Hs).
Qed.

Lemma isIdentStart_isWord (c : ascii) : isIdentStart c = true -> isWord c = true.
Proof.
  unfold isIdentStart, isWord. intros H.
  apply orb_true_iff in H as [H|H];
    [apply orb_true_iff in H as [H|H]|]; rewrite H;
    repeat (rewrite ?orb_true_r, ?orb_true_l); reflexivity.
Qed.

Lemma isIdentifier_words (s : string) :
  isIdentifier s = true -> all_chars isWord s = true.
Proof.
  destruct s as [|c r]; [discriminate|]. cbn [isIdentifier all_chars].
  intros H. apply andb_true_iff in H as [Hc Hr].
  now rewrite (isIdentStart_isWord c Hc), Hr.
Qed.

(** X4.  [escapeIdentifier] is injective, the number of double quotes in
    its result is even (two more than twice those of its argument), and on
    a string that passes [sanitizeIdentifier] it only adds the two
    surrounding quotes. *)
Theorem escapeIdentifier_quoting (a : string) :
  (forall b, escapeIdentifier a = escapeIdentifier b -> a = b) /\
  count_char dquote (escapeIdentifier a) = 2 + 2 * count_char dquote a /\
  (isIdentifier a = true ->
   escapeIdentifier a
   = String dquote (a ++ String dquote EmptyString)).
Proof.
  unfold escapeIdentifier. split; [|split].
  - intros b H. injection H as H.
    apply append_inv_tail in H. now apply replace_quote_injective.
  - cbn [count_char]. rewrite Ascii.eqb_refl, count_char_append.
    rewrite count_replace_quote.
    change (count_char dquote (String dquote EmptyString)) with 1. lia.
  - intros H. now rewrite (replace_quote_words a (isIdentifier_words a H)).
Qed.

Lemma escapeIdentifier_quoting_witness :
  escapeIdentifier "order_items"
  = String dquote ("order_items" ++ String dquote EmptyString).
Proof.
  apply (proj2 (proj2 (escapeIdentifier_quoting "order_items"))).
  reflexivity.
Defined.

(** ** [buildWhereClause] *)

Lemma escapeIdentifier_identifier (k : string) :
  isIdentifier k = true ->
  escapeIdentifier k = String dquote (k ++ String dquote EmptyString).
Proof.
  intros H. unfold escapeIdentifier.
  now rewrite (replace_quote_words k (isIdentifier_words k H)).
Qed.

Lemma where_loop_closed (entries : list (string * value)) :
  forall (params : list value) (clauses : list string),
    where_loop (params, clauses) entries =
      match find (fun kv => negb (isIdentifier (fst kv))) entries with
      | Some kv => Err (invalid_identifier (fst kv))
      | None =>
          Ok (params ++ map snd entries,
              clauses ++
              placeholders (Z.of_nat (List.length params) + 1) entries)
      end.
Proof.
  induction entries as [|[k v] rest IH]; intros params clauses.
  - cbn. now rewrite !app_nil_r.
  - cbn [where_loop where_step find fst snd map placeholders].
    rewrite sanitizeIdentifier_cases.
    destruct (isIdentifier k) eqn:Hk; cbn [negb]; [|reflexivity].
    rewrite IH, (escapeIdentifier_identifier k Hk).
    destruct (find _ rest); [reflexivity|].
    rewrite <- !app_assoc, length_app. cbn [List.length app].
    replace (Z.of_nat (List.length params + 1))
      with (Z.of_nat (List.length params) + 1) by lia.
    reflexivity.
Qed.

(** X5.  [buildWhereClause] throws the invalid-identifier error of the
    first key that is not an identifier; otherwise the parameters are the
    values in order and the clause is ["WHERE "] followed by the conditions
    [key = $i] joined with [" AND "], the keys between double quotes and
    [i] counting from 1 in step with the parameters -- or the empty string
    when there is no condition. *)
Theorem buildWhereClause_spec (conditions : list (string * value)) :
  buildWhereClause conditions =
    match find (fun kv => negb (isIdentifier (fst kv))) conditions with
    | Some kv => Err (invalid_identifier (fst kv))
    | None =>
        Ok {| clause :=
                match conditions with
                | [] => EmptyString
                | _ :: _ =>
                    ("WHERE " ++ join " AND " (placeholders 1 conditions))
                    %string
                end;
              where_params := map snd conditions |}
    end.
Proof.
  unfold buildWhereClause. rewrite where_loop_closed.
  destruct (find _ conditions); [reflexivity|].
  cbn [app List.length Z.of_nat Z.add].
  destruct conditions as [|[k v] rest]; reflexivity.
Qed.

(** ** [parseIntSafe] *)

Lemma read_digits_cons (acc : option Z) (c : ascii) (s : string) :
  isDigit c = true ->
  read_digits acc (String c s)
  = read_digits
      (Some (10 * match acc with Some a => a | None => 0 end
             + digit_value c)) s.
Proof. intros H. cbn [read_digits]. now rewrite H. Qed.

Lemma read_digits_acc (d : Decimal.uint) :
  forall p : positive,
    read_digits (Some (Z.pos p)) (NilEmpty.string_of_uint d)
    = Some (Z.pos (Pos.of_uint_acc d p)).
Proof.
  induction d; intros p; cbn [NilEmpty.string_of_uint Pos.of_uint_acc];
    [reflexivity|..];
    rewrite <- IHd; rewrite read_digits_cons by reflexivity;
    f_equal; f_equal; vm_compute digit_value; lia.
Qed.

Lemma read_digits_zero (d : Decimal.uint) :
  read_digits (Some 0) (NilEmpty.string_of_uint d)
  = Some (Z.of_N (Pos.of_uint d)).
Proof.
  induction d; cbn [NilEmpty.string_of_uint Pos.of_uint];
    [reflexivity | exact IHd | ..];
    apply (read_digits_acc d).
Qed.

Lemma read_digits_none (d : Decimal.uint) :
  d <> Decimal.Nil ->
  read_digits None (NilEmpty.string_of_uint d)
  = Some (Z.of_N (Pos.of_uint d)).
Proof.
  intros Hd. rewrite <- read_digits_zero.
  destruct d; [contradiction|..]; reflexivity.
Qed.

Lemma parseInt_uint (d : Decimal.uint) :
  d <> Decimal.Nil ->
  parseInt (NilEmpty.string_of_uint d) = Some (Z.of_N (Pos.of_uint d)).
Proof.
  intros Hd. rewrite <- (read_digits_none d Hd).
  destruct d; [contradiction|..]; reflexivity.
Qed.

Lemma string_of_uint_nonnil (d : Decimal.uint) :
  d <> Decimal.Nil ->
  NilZero.string_of_uint d = NilEmpty.string_of_uint d.
Proof. destruct d; [contradiction|..]; reflexivity. Qed.

Lemma parseInt_show_int (z : Z) : parseInt (show_int z) = Some z.
Proof.
  unfold show_int. destruct z as [|p|p]; [reflexivity|..];
    cbn [Z.to_int NilZero.string_of_int];
    pose proof (Unsigned.to_uint_nonnil p) as Hn;
    rewrite (string_of_uint_nonnil _ Hn).
  - now rewrite parseInt_uint, Unsigned.of_to.
  - unfold parseInt. cbn [trimStart].
    change (isSpace "-") with false. cbn [Ascii.eqb Bool.eqb].
    rewrite (read_digits_none _ Hn), Unsigned.of_to. reflexivity.
Qed.

Lemma trimStart_blank (s : string) :
  isBlank s = true -> trimStart s = EmptyString.
Proof.
  induction s as [|c s IH]; simpl; [reflexivity|]. intros H.
  apply andb_true_iff in H as [Hc Hs]. now rewrite Hc, IH.
Qed.

(** X6.  [parseIntSafe] reads back every integer a number holds exactly
    from its decimal rendering, whatever the default, and returns the
    default on an empty or white-space-only string. *)
Theorem parseIntSafe_round_trip (z defaultValue : Z) (s : string) :
  (safe_integer z -> parseIntSafe (show_int z) defaultValue = z) /\
  (isBlank s = true -> parseIntSafe s defaultValue = defaultValue).
Proof.
  unfold parseIntSafe. split.
  - intros _. now rewrite parseInt_show_int.
  - intros H. unfold parseInt. now rewrite (trimStart_blank s H).
Qed.

Lemma parseIntSafe_round_trip_witness :
  parseIntSafe (show_int (-600000)) 30000 = -600000 /\
  parseIntSafe "   " 30000 = 30000.
Proof.
  split.
  - apply (proj1 (parseIntSafe_round_trip (-600000) 30000 EmptyString)).
    unfold safe_integer. cbn. lia.
  - apply (proj2 (parseIntSafe_round_trip 0 30000 "   ")). reflexivity.
Defined.

End SanitizeMore.

(* ===================================================================== *)
(** * Further properties of the pooled execution primitive *)
(* ===================================================================== *)

Module DatabaseMore.
Import JS Sanitize Database DatabaseProps SanitizeMore.

(** The statements one call of [executeQuery] sends. *)
Lemma executeQuery_sent_cases (env : Environment) (config : ServerConfig)
  (p : QueryParams) (w : World) :
  let w' := snd (executeQuery env config p w) in
  let timeout := effective_timeout config p in
  sent w' = sent w \/
  (sanitizeQuery (query p) (mode config) = Ok tt /\
   valid_timeout timeout = true /\
   (sent w' = sent w ++ [SetStatementTimeout (floor timeout)] \/
    sent w' = sent w ++ [SetStatementTimeout (floor timeout);
                         Parametrized (query p) (params_of p)])).
Proof.
  intros w' timeout. subst w' timeout. unfold executeQuery, params_of.
  destruct (sanitizeQuery (query p) (mode config)) as [[]|e];
    [|now left].
  set (w1 := write_log _ _ _ _ w).
  unfold connectM.
  destruct (pool_connect env w1) as [[[]|e] ms]; [|now left].
  destruct (valid_timeout (effective_timeout config p)) eqn:Hval.
  2:{ rewrite (with_client_invalid_timeout _ _ _ _ _ _ _ Hval). now left. }
  right. split; [reflexivity|]. split; [reflexivity|].
  unfold with_client, cap_rows, bind, queryM, logM, nowM, ret, throw.
  unfold valid_timeout in Hval.
  apply andb_true_iff in Hval as [Hfin Hneg].
  apply negb_true_iff in Hneg. rewrite Hfin, Hneg. cbn [negb orb].
  destruct (client_query env (SetStatementTimeout _) _) as [[q|e] ms1];
    [|now left].
  right.
  destruct (client_query env (Parametrized _ _) _) as [[res|e] ms2].
  - cbn [fst snd clock].
    destruct (exceeds (rowCount res) (effective_maxRows config p));
      cbn; now rewrite <- app_assoc.
  - cbn. now rewrite <- app_assoc.
Qed.

Lemma executeQuery_checkedOut (env : Environment) (config : ServerConfig)
  (p : QueryParams) (w : World) :
  checkedOut (snd (executeQuery env config p w)) = checkedOut w.
Proof.
  unfold executeQuery.
  destruct (sanitizeQuery (query p) (mode config)) as [[]|e];
    [|reflexivity].
  set (w1 := write_log _ _ _ _ w).
  unfold connectM.
  destruct (pool_connect env w1) as [[[]|e] ms]; [|reflexivity].
  set (w2 := acquire (tick ms w1)).
  pose proof (with_client_keeps_pool env (query p)
                match params p with Some l => l | None => [] end
                (effective_timeout config p) (effective_maxRows config p)
                (clock w1) w2) as Hkeep.
  destruct (with_client _ _ _ _ _ _ w2) as [[res|e] w3];
    cbn [snd] in Hkeep |- *; unfold pool_of in Hkeep;
    injection Hkeep as Hc Ht; cbn [release write_log checkedOut];
    rewrite Hc; subst w2 w1; cbn [acquire tick write_log checkedOut]; lia.
Qed.

(** What the pool and the database answer at the world of the goal. *)
Ltac pool_answers H :=
  match goal with
  | |- context [pool_connect ?env ?w] =>
      let E := fresh "E" in
      pose proof (H w) as E;
      destruct (pool_connect env w) as [[[]|?e] ?ms]; cbn [fst] in E;
      [try discriminate E | try discriminate E; try injection E as ->]
  end.

Ltac query_fails H :=
  match goal with
  | |- context [client_query ?env ?st ?w] =>
      let E := fresh "E" in
      pose proof (H w) as E;
      destruct (client_query env st w) as [[?q|?e] ?ms]; cbn [fst] in E;
      [discriminate E | injection E as ->]
  end.

Ltac query_accepted H :=
  match goal with
  | |- context [client_query ?env ?st ?w] =>
      let E := fresh "E" in
      pose proof (H w) as E;
      destruct (client_query env st w) as [[?q|?e] ?ms];
      cbn [fst isErr] in E; [clear E | discriminate E]
  end.

Ltac open_executeQuery :=
  unfold executeQuery, params_of, connectM;
  unfold with_client, cap_rows, bind, queryM, logM, nowM, ret, throw.

Lemma valid_timeout_guard (timeout : number) :
  negb (isFinite timeout) || ltb timeout (ofZ 0)
  = negb (valid_timeout timeout).
Proof.
  unfold valid_timeout. destruct (isFinite timeout); [|reflexivity].
  cbn [negb orb andb]. now rewrite negb_involutive.
Qed.

(** X7.  What [executeQuery] sends to the database.  It sends nothing when
    [sanitizeQuery] rejects the query, when the pool gives no client and
    when the effective timeout is invalid.  Otherwise it sends the timeout
    setting, and after it the caller's statement, text and parameters as
    given, unless the database failed the timeout setting.  In every
    environment what is sent is one of these three, so no statement
    reaches the database that the sanitizer has not accepted for the
    configured mode. *)
Theorem executeQuery_sends (env : Environment) (config : ServerConfig)
  (p : QueryParams) (w : World) :
  let w' := snd (executeQuery env config p w) in
  let timeout := effective_timeout config p in
  let set_timeout := SetStatementTimeout (floor timeout) in
  let statement := Parametrized (query p) (params_of p) in
  (sent w' = sent w \/
   (sanitizeQuery (query p) (mode config) = Ok tt /\
    valid_timeout timeout = true /\
    (sent w' = sent w ++ [set_timeout] \/
     sent w' = sent w ++ [set_timeout; statement]))) /\
  (isErr (sanitizeQuery (query p) (mode config)) = true ->
   sent w' = sent w) /\
  (forall e, never_connects env e -> sent w' = sent w) /\
  (valid_timeout timeout = false -> sent w' = sent w) /\
  (sanitizeQuery (query p) (mode config) = Ok tt ->
   always_connects env -> valid_timeout timeout = true ->
   (forall e, fails env set_timeout e -> sent w' = sent w ++ [set_timeout])
   /\
   (accepts env set_timeout ->
    sent w' = sent w ++ [set_timeout; statement])).
Proof.
  cbn zeta. split; [apply executeQuery_sent_cases|].
  split; [|split; [|split]].
  - unfold executeQuery.
    destruct (sanitizeQuery (query p) (mode config)) as [[]|e];
      [discriminate | reflexivity].
  - intros e Hno. unfold executeQuery, connectM.
    destruct (sanitizeQuery (query p) (mode config)) as [[]|e0];
      [|reflexivity].
    pool_answers Hno. reflexivity.
  - intros Hval. unfold executeQuery, connectM.
    destruct (sanitizeQuery (query p) (mode config)) as [[]|e0];
      [|reflexivity].
    destruct (pool_connect env _) as [[[]|e] ms]; [|reflexivity].
    rewrite (with_client_invalid_timeout _ _ _ _ _ _ _ Hval). reflexivity.
  - intros Hok Hconn Hval. open_executeQuery. rewrite Hok.
    rewrite valid_timeout_guard, Hval. cbn [negb].
    pool_answers Hconn. split.
    + intros e Hset. query_fails Hset. reflexivity.
    + intros Hset. query_accepted Hset.
      destruct (client_query env (Parametrized _ _) _) as [[res|e] ms2].
      * cbn [fst snd clock].
        destruct (exceeds (rowCount res) (effective_maxRows config p));
          cbn; now rewrite <- app_assoc.
      * cbn. now rewrite <- app_assoc.
Qed.

Lemma executeQuery_sends_witness :
  sent (snd (executeQuery (steady empty_result) (default_config ReadOnly)
               (request "SELECT 1" None None) quiet))
  = [SetStatementTimeout 30000; Parametrized "SELECT 1" []] /\
  sent (snd (executeQuery unreachable (default_config ReadOnly)
               (request "SELECT 1" None None) quiet))
  = [].
Proof.
  destruct (executeQuery_sends (steady empty_result)
              (default_config ReadOnly) (request "SELECT 1" None None)
              quiet) as (_ & _ & _ & _ & Hsend).
  destruct (executeQuery_sends unreachable (default_config ReadOnly)
              (request "SELECT 1" None None) quiet)
    as (_ & _ & Hnone & _).
  split.
  - refine (proj2 (Hsend eq_refl _ eq_refl) _);
      intros w0; reflexivity.
  - refine (Hnone "connect ECONNREFUSED 127.0.0.1:5432" _).
    intros w0. reflexivity.
Defined.

Lemma last_entry_write_log (lvl : Logger.Level) (tool message : string)
  (data : value) (w : World) :
  last_entry (write_log lvl tool message data w)
  = Some {| Logger.level := lvl; Logger.tool := tool;
            Logger.message := message; Logger.data := data |}.
Proof.
  unfold last_entry. cbn [write_log log]. rewrite map_app. cbn [map].
  apply last_last.
Qed.

(** How a failure past the sanitizer, and a success, leave the log. *)
Lemma executeQuery_last_entry (env : Environment) (config : ServerConfig)
  (p : QueryParams) (w : World) :
  let out := fst (executeQuery env config p w) in
  let w' := snd (executeQuery env config p w) in
  (forall e, sanitizeQuery (query p) (mode config) = Ok tt ->
             out = Err e ->
             exists ms,
               last_entry w' =
                 Some {| Logger.level := Logger.error;
                         Logger.tool := "query";
                         Logger.message := "Query execution failed";
                         Logger.data :=
                           VObj [("error", VStr e);
                                 ("executionTimeMs", VNum (ofZ ms));
                                 ("query",
                                  VStr (substring0 200 (query p)))] |}) /\
  (forall res, out = Ok res ->
               exists ms,
                 last_entry w' =
                   Some {| Logger.level := Logger.info;
                           Logger.tool := "query";
                           Logger.message := "Query executed successfully";
                           Logger.data :=
                             VObj [("rowCount", VOptNum (rowCount res));
                                   ("executionTimeMs",
                                    VNum (ofZ ms))] |}).
Proof.
  intros out w'. subst out w'. unfold executeQuery.
  destruct (sanitizeQuery (query p) (mode config)) as [[]|e0].
  2:{ cbn [fst snd]. split; intros; discriminate. }
  set (w1 := write_log _ _ _ _ w).
  destruct (connectM env w1) as [[[]|e1] w2].
  2:{ cbn [fst snd]. split.
      - intros e _ [= <-]. eexists. apply last_entry_write_log.
      - intros; discriminate. }
  unfold with_client, cap_rows, bind, queryM, logM, nowM, ret, throw.
  destruct (negb (isFinite (effective_timeout config p))
            || ltb (effective_timeout config p) (ofZ 0)).
  { cbn [fst snd]. split.
    - intros e _ [= <-]. eexists. apply last_entry_write_log.
    - intros; discriminate. }
  destruct (client_query env (SetStatementTimeout _) _) as [[q|e2] ms1].
  2:{ cbn [fst snd]. split.
      - intros e _ [= <-]. eexists. apply last_entry_write_log.
      - intros; discriminate. }
  destruct (client_query env (Parametrized _ _) _) as [[res|e3] ms2].
  2:{ cbn [fst snd]. split.
      - intros e _ [= <-]. eexists. apply last_entry_write_log.
      - intros; discriminate. }
  cbn [fst snd clock].
  destruct (exceeds (rowCount res) (effective_maxRows config p));
    cbn [fst snd]; (split; [intros; discriminate|]);
    intros res' [= <-]; eexists;
    unfold last_entry; cbn [release write_log tick record_sent log];
    rewrite map_app; cbn [map]; apply last_last.
Qed.

(** The outcome of [executeQuery] by what went wrong. *)
Lemma executeQuery_outcome (env : Environment) (config : ServerConfig)
  (p : QueryParams) (w : World) :
  let out := fst (executeQuery env config p w) in
  let timeout := effective_timeout config p in
  let set_timeout := SetStatementTimeout (floor timeout) in
  let statement := Parametrized (query p) (params_of p) in
  sanitizeQuery (query p) (mode config) = Ok tt ->
  (forall e, never_connects env e -> out = Err e) /\
  (always_connects env -> valid_timeout timeout = false ->
   out = Err "Invalid timeout value") /\
  (always_connects env -> valid_timeout timeout = true ->
   (forall e, fails env set_timeout e -> out = Err e) /\
   (accepts env set_timeout ->
    (forall e, fails env statement e -> out = Err e) /\
    (accepts env statement -> isErr out = false))).
Proof.
  cbn zeta. intros Hok. split; [|split].
  - intros e Hno. unfold executeQuery, connectM. rewrite Hok.
    pool_answers Hno. reflexivity.
  - intros Hconn Hval. unfold executeQuery, connectM. rewrite Hok.
    pool_answers Hconn.
    rewrite (with_client_invalid_timeout _ _ _ _ _ _ _ Hval). reflexivity.
  - intros Hconn Hval. open_executeQuery. rewrite Hok.
    rewrite valid_timeout_guard, Hval. cbn [negb].
    pool_answers Hconn. split.
    + intros e Hset. query_fails Hset. reflexivity.
    + intros Hset. query_accepted Hset. split.
      * intros e Hst. query_fails Hst. reflexivity.
      * intros Hst. query_accepted Hst. cbn [fst snd clock].
        destruct (exceeds (rowCount q0) (effective_maxRows config p));
          reflexivity.
Qed.

(** X8.  How [executeQuery] reports a failure.  A rejection by
    [sanitizeQuery] is thrown before anything else happens: the world is
    left as it was, nothing is logged.  Past the sanitizer, the call
    throws the pool's error when the pool gives no client, ['Invalid
    timeout value'] when the effective timeout is invalid, and the
    database's error when the database fails the timeout setting or the
    statement; it returns a result when the database executes both.
    Every such failure leaves as last log entry the error-level one with
    its message and the first 200 characters of the query; a success
    leaves the info-level entry of the row count. *)
Theorem executeQuery_reports (env : Environment) (config : ServerConfig)
  (p : QueryParams) (w : World) :
  let out := fst (executeQuery env config p w) in
  let w' := snd (executeQuery env config p w) in
  let timeout := effective_timeout config p in
  let set_timeout := SetStatementTimeout (floor timeout) in
  let statement := Parametrized (query p) (params_of p) in
  let failure := fun (e : string) (ms : Z) =>
    {| Logger.level := Logger.error;
       Logger.tool := "query";
       Logger.message := "Query execution failed";
       Logger.data :=
         VObj [("error", VStr e);
               ("executionTimeMs", VNum (ofZ ms));
               ("query", VStr (substring0 200 (query p)))] |} in
  let thrown := fun e : string =>
    out = Err e /\ exists ms, last_entry w' = Some (failure e ms) in
  (forall e, sanitizeQuery (query p) (mode config) = Err e ->
             out = Err e /\ w' = w) /\
  (sanitizeQuery (query p) (mode config) = Ok tt ->
   (forall e, never_connects env e -> thrown e) /\
   (always_connects env -> valid_timeout timeout = false ->
    thrown "Invalid timeout value") /\
   (always_connects env -> valid_timeout timeout = true ->
    (forall e, fails env set_timeout e -> thrown e) /\
    (accepts env set_timeout ->
     (forall e, fails env statement e -> thrown e) /\
     (accepts env statement ->
      exists res ms,
        out = Ok res /\
        last_entry w' =
          Some {| Logger.level := Logger.info;
                  Logger.tool := "query";
                  Logger.message := "Query executed successfully";
                  Logger.data :=
                    VObj [("rowCount", VOptNum (rowCount res));
                          ("executionTimeMs", VNum (ofZ ms))] |})))) /\
  (forall e, sanitizeQuery (query p) (mode config) = Ok tt ->
             out = Err e -> exists ms, last_entry w' = Some (failure e ms)).
Proof.
  cbn zeta.
  destruct (executeQuery_last_entry env config p w) as [Hfail Hgood].
  cbn zeta in Hfail, Hgood.
  split; [|split; [|exact Hfail]].
  - intros e He. unfold executeQuery. rewrite He. now split.
  - intros Hok.
    destruct (executeQuery_outcome env config p w Hok)
      as (Hno & Hinv & Hrun). cbn zeta in Hno, Hinv, Hrun.
    assert (Hthrown : forall e,
               fst (executeQuery env config p w) = Err e ->
               fst (executeQuery env config p w) = Err e /\
               exists ms,
                 last_entry (snd (executeQuery env config p w)) =
                   Some {| Logger.level := Logger.error;
                           Logger.tool := "query";
                           Logger.message := "Query execution failed";
                           Logger.data :=
                             VObj [("error", VStr e);
                                   ("executionTimeMs", VNum (ofZ ms));
                                   ("query",
                                    VStr (substring0 200 (query p)))] |})
      by (intros e He; split; [exact He | exact (Hfail e Hok He)]).
    split; [|split].
    + intros e H. apply Hthrown, Hno, H.
    + intros Hc Hv. apply Hthrown, Hinv; assumption.
    + intros Hc Hv. destruct (Hrun Hc Hv) as [Hset Hst]. split.
      * intros e H. apply Hthrown, Hset, H.
      * intros Ha. destruct (Hst Ha) as [Hf Hs]. split.
        -- intros e H. apply Hthrown, Hf, H.
        -- intros Hb. specialize (Hs Hb).
           destruct (fst (executeQuery env config p w)) as [res|e] eqn:E;
             [|discriminate].
           destruct (Hgood res eq_refl) as [ms Hms].
           now exists res, ms.
Qed.

Lemma executeQuery_reports_witness :
  executeQuery (steady empty_result) (default_config ReadOnly)
    (request "DROP TABLE t" None None) quiet
  = (Err ("Operation DROP not allowed in read-only mode. " ++
          "Allowed operations: SELECT, EXPLAIN, WITH"), quiet) /\
  fst (executeQuery unreachable (default_config ReadOnly)
         (request "SELECT 1" None None) quiet)
  = Err "connect ECONNREFUSED 127.0.0.1:5432".
Proof.
  split.
  - destruct (executeQuery_reports (steady empty_result)
                (default_config ReadOnly)
                (request "DROP TABLE t" None None) quiet) as (H & _ & _).
    destruct (H _ eq_refl) as [Hout Hw].
    rewrite (surjective_pairing (executeQuery _ _ _ _)), Hout, Hw.
    reflexivity.
  - destruct (executeQuery_reports unreachable (default_config ReadOnly)
                (request "SELECT 1" None None) quiet) as (_ & H & _).
    destruct (H eq_refl) as (Hno & _).
    refine (proj1 (Hno "connect ECONNREFUSED 127.0.0.1:5432" _)).
    intros w0. reflexivity.
Defined.

(** X9.  [createDatabaseConnection] takes one client and gives it back.
    When the pool hands out a client, the call returns the connection with
    the configuration unchanged, the pool has seen one acquire followed by
    one release, and one info-level entry is logged; when the pool cannot
    connect, no client is taken, one error-level entry is logged and the
    error thrown is the driver's message behind
    ["Database connection failed: "].  Either way the pool count is the
    same before and after, and no statement is sent. *)
Theorem createDatabaseConnection_probe (penv : ProcessEnv)
  (env : Environment) (config : ServerConfig) (w : World) :
  let out := fst (createDatabaseConnection penv env config w) in
  let w' := snd (createDatabaseConnection penv env config w) in
  checkedOut w' = checkedOut w /\ sent w' = sent w /\
  (forall e, fst (pool_connect env w) = Err e ->
             out = Err ("Database connection failed: " ++ e) /\
             poolTrace w' = poolTrace w /\
             log w' =
               log w ++
               [ {| Logger.level := Logger.error;
                    Logger.tool := "database";
                    Logger.message := "Failed to connect to database";
                    Logger.data := VObj [("error", VStr e)] |} ]) /\
  (fst (pool_connect env w) = Ok tt ->
   out = Ok (pool_options penv, config) /\
   poolTrace w' = poolTrace w ++ [Acquire; Release] /\
   log w' =
     log w ++
     [ {| Logger.level := Logger.info;
          Logger.tool := "database";
          Logger.message := "Database connection established";
          Logger.data := VUndefined |} ]).
Proof.
  intros out w'. subst out w'.
  unfold createDatabaseConnection, connectM.
  destruct (pool_connect env w) as [[[]|e] ms]; cbn [fst snd].
  - split; [cbn; lia|]. split; [reflexivity|].
    split; [intros; discriminate|]. intros _.
    split; [reflexivity|]. split.
    + cbn. now rewrite <- app_assoc.
    + reflexivity.
  - split; [reflexivity|]. split; [reflexivity|].
    split; [|intros; discriminate].
    intros e' [= <-]. split; [reflexivity|].
    split; reflexivity.
Qed.

Lemma createDatabaseConnection_probe_witness :
  fst (createDatabaseConnection (fun _ => None) unreachable
         (default_config ReadOnly) quiet)
  = Err "Database connection failed: connect ECONNREFUSED 127.0.0.1:5432"
  /\
  poolTrace (snd (createDatabaseConnection (fun _ => None)
                    (steady empty_result) (default_config ReadOnly) quiet))
  = [Acquire; Release].
Proof.
  destruct (createDatabaseConnection_probe (fun _ => None) unreachable
              (default_config ReadOnly) quiet) as (_ & _ & H & _).
  destruct (createDatabaseConnection_probe (fun _ => None)
              (steady empty_result) (default_config ReadOnly) quiet)
    as (_ & _ & _ & H').
  split.
  - exact (proj1 (H _ eq_refl)).
  - exact (proj1 (proj2 (H' eq_refl))).
Defined.

Lemma show_int_not_empty (z : Z) : isEmpty (show_int z) = false.
Proof.
  destruct (show_int z) eqn:E; [|reflexivity].
  pose proof (parseInt_show_int z) as H. rewrite E in H. discriminate.
Qed.

Lemma env_int (v : option string) (fallback : string) (d : Z) :
  parseInt fallback = Some d ->
  (v = None \/ v = Some "" -> parseIntSafe (env_or v fallback) d = d) /\
  (forall z, safe_integer z -> v = Some (show_int z) ->
             parseIntSafe (env_or v fallback) d = z).
Proof.
  intros Hf. split.
  - intros [-> | ->]; cbn [env_or isEmpty]; unfold parseIntSafe;
      now rewrite Hf.
  - intros z _ ->. cbn [env_or]. rewrite show_int_not_empty.
    unfold parseIntSafe. now rewrite parseInt_show_int.
Qed.

(** X10.  The pool sizes are read from the environment: a variable that
    holds the decimal rendering of an integer gives that integer, and a variable that is
    unset or empty gives the default, 10 clients at most, 2 at least and
    an idle timeout of 10000 ms.  The connection timeout is always
    5000 ms. *)
Theorem pool_options_env (penv : ProcessEnv) :
  let opts := pool_options penv in
  connectionTimeoutMillis opts = 5000 /\
  (unset penv "PGMAXPOOLSIZE" -> max opts = 10) /\
  (unset penv "PGMINPOOLSIZE" -> min opts = 2) /\
  (unset penv "PGIDLETIMEOUT" -> idleTimeoutMillis opts = 10000) /\
  (forall z, safe_integer z ->
             penv "PGMAXPOOLSIZE" = Some (show_int z) -> max opts = z) /\
  (forall z, safe_integer z ->
             penv "PGMINPOOLSIZE" = Some (show_int z) -> min opts = z) /\
  (forall z, safe_integer z ->
             penv "PGIDLETIMEOUT" = Some (show_int z) ->
             idleTimeoutMillis opts = z).
Proof.
  cbn zeta. unfold pool_options, unset.
  cbn [max min idleTimeoutMillis connectionTimeoutMillis].
  split; [reflexivity|].
  repeat split;
    first [ apply (env_int _ "10" 10 eq_refl)
          | apply (env_int _ "2" 2 eq_refl)
          | apply (env_int _ "10000" 10000 eq_refl) ].
Qed.

Lemma pool_options_env_witness :
  max (pool_options (fun name =>
         if String.eqb name "PGMAXPOOLSIZE" then Some "25" else None)) = 25
  /\ min (pool_options (fun name =>
         if String.eqb name "PGMAXPOOLSIZE" then Some "25" else None)) = 2.
Proof.
  destruct (pool_options_env (fun name =>
              if String.eqb name "PGMAXPOOLSIZE" then Some "25" else None))
    as (_ & _ & Hmin & _ & Hmax & _).
  split; [apply (Hmax 25); [unfold safe_integer; cbn; lia | reflexivity]
         | apply Hmin; now left].
Defined.

(** X11.  [testConnection] never throws, and what it answers follows
    what happened.  When the pool gives no client it answers [false] and
    the pool is as before.  When the pool hands out a client and the
    database executes [SELECT 1], it answers [true] and the client has
    been released.  When the pool hands out a client and the database
    fails [SELECT 1], it answers [false] and the client is not released:
    one more client is checked out than before.  So [true] is answered
    only with the client released. *)
Theorem testConnection_outcomes (env : Environment) (w : World) :
  let ok := fst (testConnection env w) in
  let w' := snd (testConnection env w) in
  let select1 := Parametrized "SELECT 1" [] in
  (isErr (fst (pool_connect env w)) = true ->
   ok = false /\ checkedOut w' = checkedOut w /\
   poolTrace w' = poolTrace w /\ sent w' = sent w) /\
  (fst (pool_connect env w) = Ok tt ->
   (accepts env select1 ->
    ok = true /\ checkedOut w' = checkedOut w /\
    poolTrace w' = poolTrace w ++ [Acquire; Release] /\
    sent w' = sent w ++ [select1]) /\
   (forall e, fails env select1 e ->
              ok = false /\ checkedOut w' = checkedOut w + 1 /\
              poolTrace w' = poolTrace w ++ [Acquire] /\
              sent w' = sent w ++ [select1])) /\
  (ok = true ->
   checkedOut w' = checkedOut w /\
   poolTrace w' = poolTrace w ++ [Acquire; Release]).
Proof.
  intros ok w' select1. subst ok w' select1.
  unfold testConnection, connectM, queryM.
  destruct (pool_connect env w) as [[[]|e] ms]; cbn [fst snd isErr].
  - split; [intros; discriminate|]. split.
    + intros _. split.
      * intros Ha. query_accepted Ha. cbn [fst snd].
        split; [reflexivity|]. split; [cbn; lia|].
        split; [cbn; now rewrite <- app_assoc | reflexivity].
      * intros e Hf. query_fails Hf. cbn [fst snd].
        split; [reflexivity|]. split; [reflexivity|].
        split; reflexivity.
    + destruct (client_query env _ _) as [[q|e] ms1]; cbn [fst snd];
        [|intros; discriminate].
      intros _. cbn. split; [lia | now rewrite <- app_assoc].
  - split; [intros _; repeat split|].
    split; intros; discriminate.
Qed.

Lemma testConnection_outcomes_witness :
  let broken :=
    {| pool_connect := fun _ => (Ok tt, 0);
       client_query := fun _ _ => (Err "terminating connection", 0) |} in
  fst (testConnection broken quiet) = false /\
  checkedOut (snd (testConnection broken quiet)) = 1.
Proof.
  intros broken.
  destruct (testConnection_outcomes broken quiet) as (_ & H & _).
  destruct (proj2 (H eq_refl) "terminating connection"
              (fun w0 => eq_refl)) as (Hok & Hc & _).
  split; [exact Hok | exact Hc].
Defined.

End DatabaseMore.

(* ===================================================================== *)
(** * Further properties of the rate limiter *)
(* ===================================================================== *)

Module RateLimiterMore.
Import JS RateLimiter RateLimiterProps.

Lemma checkLimit_bounded (N W : Z) (e : bool) (now : Z) (rl : t) :
  bounded N W e rl -> bounded N W e (snd (checkLimit now rl)).
Proof.
  intros (HN & HW & He & Hlen). unfold checkLimit.
  destruct (enabled rl) eqn:Een; cbn [negb snd]; rewrite <- Een in He;
    [|unfold bounded; auto].
  set (kept := filter _ (requests rl)).
  assert (Hk : (List.length kept <= List.length (requests rl))%nat)
    by apply filter_length_le.
  destruct (Z.of_nat (List.length kept) >=? maxRequests rl) eqn:E;
    cbn [snd]; unfold bounded, set_requests;
    cbn [requests maxRequests windowMs enabled];
    (split; [exact HN|]); (split; [exact HW|]); (split; [exact He|]).
  - lia.
  - rewrite Z.geb_leb in E. apply Z.leb_gt in E.
    rewrite length_app. cbn [List.length]. lia.
Qed.

Lemma apply_ops_bounded (N W : Z) (e : bool) (ops : list Op) (rl : t) :
  bounded N W e rl -> bounded N W e (apply_ops ops rl).
Proof.
  revert rl. induction ops as [|[now|] ops IH]; intros rl H;
    cbn [apply_ops]; [exact H| |].
  - apply IH. now apply checkLimit_bounded.
  - apply IH. destruct H as (HN & HW & He & _).
    unfold bounded, reset, set_requests.
    cbn [requests maxRequests windowMs enabled List.length].
    repeat (split; [assumption|]). lia.
Qed.

Lemma create_bounded (N W : Z) (e : bool) : bounded N W e (create N W e).
Proof.
  unfold bounded, create. cbn [requests maxRequests windowMs enabled].
  repeat (split; [reflexivity|]). cbn [List.length]. lia.
Qed.

(** X12.  The limiter's memory is bounded: whatever sequence of
    [checkLimit()] and [reset()] calls a limiter has seen since it was
    built, at whatever clock readings, it never holds more timestamps than
    its limit (none when the limit is zero or negative), its settings are
    the ones it was built with, and [getStats()] never reports more
    current requests than that. *)
Theorem limiter_bounded (N W : Z) (e : bool) (ops : list Op) (now : Z) :
  let rl := apply_ops ops (create N W e) in
  maxRequests rl = N /\ windowMs rl = W /\ enabled rl = e /\
  Z.of_nat (List.length (requests rl)) <= Z.max 0 N /\
  0 <= current (getStats now rl) <= Z.max 0 N /\
  max (getStats now rl) = N /\ stats_windowMs (getStats now rl) = W.
Proof.
  intros rl.
  destruct (apply_ops_bounded N W e ops _ (create_bounded N W e))
    as (HN & HW & He & Hlen). fold rl in HN, HW, He, Hlen.
  repeat (split; [assumption|]).
  unfold getStats. cbn [current max stats_windowMs].
  split; [|now split].
  pose proof (filter_length_le (fun ts => ts >? now - windowMs rl)
                (requests rl)). lia.
Qed.




Lemma run_under_quota (nows : list Z) (rl : t) :
  Z.of_nat (List.length (requests rl) + List.length nows)
    <= maxRequests rl ->
  fst (run nows rl) = repeat (Ok tt) (List.length nows).
Proof.
  revert rl. induction nows as [|now rest IH]; intros rl H;
    [reflexivity|].
  cbn [run List.length repeat]. cbn [List.length] in H.
  destruct (enabled rl) eqn:He.
  - rewrite checkLimit_accepts; [|exact He|].
    2:{ pose proof (filter_length_le
                      (fun ts => ts >? now - windowMs rl) (requests rl)).
        lia. }
    specialize (IH (set_requests rl
                      (filter (fun ts => ts >? now - windowMs rl)
                         (requests rl) ++ [now]))).
    destruct (run rest _) as [rs rl2]. cbn [fst] in *.
    rewrite IH; [reflexivity|].
    cbn [set_requests requests maxRequests]. rewrite length_app.
    pose proof (filter_length_le
                  (fun ts => ts >? now - windowMs rl) (requests rl)).
    cbn [List.length]. lia.
  - unfold checkLimit. rewrite He. cbn [negb].
    specialize (IH rl). destruct (run rest rl) as [rs rl2].
    cbn [fst] in *. rewrite IH; [reflexivity|lia].
Qed.

Lemma run_disabled (nows : list Z) (rl : t) :
  enabled rl = false ->
  run nows rl = (repeat (Ok tt) (List.length nows), rl).
Proof.
  intros He. induction nows as [|now rest IH]; [reflexivity|].
  cbn [run]. unfold checkLimit. rewrite He. cbn [negb].
  now rewrite IH.
Qed.

(** X14.  [reset()] gives the whole quota back: after it, the next [N]
    calls of a limiter with limit [N] all succeed, whatever the limiter
    has seen before and whatever the clock reads.  And a limiter built
    with [enabled = false] never rejects and never stores a timestamp,
    whatever its limit. *)
Theorem reset_restores_quota (N W : Z) (e : bool) (ops : list Op)
  (nows : list Z) :
  (Z.of_nat (List.length nows) <= N ->
   fst (run nows (reset (apply_ops ops (create N W e))))
   = repeat (Ok tt) (List.length nows)) /\
  run nows (apply_ops ops (create N W false))
  = (repeat (Ok tt) (List.length nows), create N W false).
Proof.
  split.
  - intros H. apply run_under_quota.
    destruct (apply_ops_bounded N W e ops _ (create_bounded N W e))
      as (HN & _).
    unfold reset, set_requests. cbn [requests maxRequests List.length].
    lia.
  - assert (Hfix : forall l, apply_ops l (create N W false)
                             = create N W false).
    { induction l as [|[now|] l IH]; cbn [apply_ops]; [reflexivity| |].
      - exact IH.
      - exact IH. }
    rewrite Hfix. now apply run_disabled.
Qed.

Lemma reset_restores_quota_witness :
  fst (run [7; 7] (reset (apply_ops [Check 5; Check 6; Check 7]
                            (create 2 1000 true))))
  = [Ok tt; Ok tt].
Proof.
  exact (proj1 (reset_restores_quota 2 1000 true
                  [Check 5; Check 6; Check 7] [7; 7]) ltac:(cbn; lia)).
Defined.

End RateLimiterMore.

(* ===================================================================== *)
(** * Properties of the start-up configuration *)
(* ===================================================================== *)

Module ConfigMore.
Import JS Sanitize Database Config.

Lemma last_cons {A : Type} (x : A) (l : list A) (d : A) :
  last (x :: l) d = last l x.
Proof.
  revert x d. induction l as [|y l IH]; intros x d; [reflexivity|].
  change (last (x :: y :: l) d) with (last (y :: l) d).
  now rewrite !IH.
Qed.

Lemma flag_starts_with_dash (arg : string) :
  is_write_flag arg || is_read_flag arg = true ->
  startsWith "-" arg = true.
Proof.
  unfold is_write_flag, is_read_flag. intros H.
  repeat (apply orb_true_iff in H as [H|H]);
    apply String.eqb_eq in H; now subst arg.
Qed.

(** The loop of [parseCommandLineArgs] in closed form: the last flag and
    the last positional argument win. *)
Lemma scan_args_closed (args : list string) (mode : DatabaseMode)
  (connectionString : string) :
  scan_args mode connectionString args
  = (last (mode_flags args) mode, last (positional args) connectionString).
Proof.
  revert mode connectionString.
  induction args as [|arg rest IH]; intros mode cs; [reflexivity|].
  cbn [scan_args]. unfold mode_flags, positional in *.
  cbn [flat_map filter]. fold (is_write_flag arg). fold (is_read_flag arg).
  destruct (is_write_flag arg) eqn:Hw.
  - rewrite (flag_starts_with_dash arg) by (now rewrite Hw).
    cbn [negb app]. now rewrite IH, last_cons.
  - destruct (is_read_flag arg) eqn:Hr.
    + rewrite (flag_starts_with_dash arg) by (rewrite Hr; apply orb_true_r).
      cbn [negb app]. now rewrite IH, last_cons.
    + destruct (startsWith "-" arg); cbn [negb app].
      * apply IH.
      * now rewrite IH, last_cons.
Qed.

Lemma scan_args_write (args : list string) (mode : DatabaseMode)
  (connectionString : string) :
  fst (scan_args mode connectionString args) = ReadWrite ->
  mode = ReadWrite \/ exists arg, In arg args /\ is_write_flag arg = true.
Proof.
  revert mode connectionString.
  induction args as [|arg rest IH]; intros mode cs H; [now left|].
  cbn [scan_args] in H. fold (is_write_flag arg) in H.
  destruct (is_write_flag arg) eqn:Hw.
  { right. exists arg. split; [now left | exact Hw]. }
  destruct (String.eqb arg "--read-only" || String.eqb arg "-r").
  - destruct (IH _ _ H) as [Hm | (a & Ha & Hf)]; [discriminate|].
    right. exists a. split; [now right | exact Hf].
  - destruct (negb (startsWith "-" arg));
      (destruct (IH _ _ H) as [Hm | (a & Ha & Hf)]; [now left|];
       right; exists a; split; [now right | exact Hf]).
Qed.

Lemma parsed_mode_write (penv : ProcessEnv) (args : list string)
  (parsed : ParsedArgs) :
  parseCommandLineArgs penv args = Ok parsed ->
  args_mode parsed = ReadWrite ->
  exists arg, In arg args /\ is_write_flag arg = true.
Proof.
  unfold parseCommandLineArgs.
  pose proof (scan_args_write args ReadOnly EmptyString) as Hwrite.
  destruct (scan_args ReadOnly EmptyString args) as [m c].
  cbn [fst] in Hwrite.
  destruct (isEmpty (if isEmpty c then _ else c)); [discriminate|].
  intros [= <-]. cbn [args_mode]. intros H.
  destruct (Hwrite H) as [|]; [discriminate|assumption].
Qed.

(** X15.  [parseCommandLineArgs] in closed form.  The mode is the one the
    last mode flag asks for and read-only when there is none, so a
    read-write configuration needs a [--read-write] or [-w] on the command
    line.  The connection string is the last argument that does not start
    with a dash, or else [DATABASE_URL]; the call fails exactly when both
    are missing or empty, and a connection string it returns is never
    empty. *)
Theorem parseCommandLineArgs_spec (penv : ProcessEnv)
  (args : list string) :
  (forall parsed,
      parseCommandLineArgs penv args = Ok parsed ->
      args_mode parsed = last (mode_flags args) ReadOnly /\
      (args_mode parsed = ReadWrite ->
       exists arg, In arg args /\ is_write_flag arg = true) /\
      isEmpty (args_connectionString parsed) = false /\
      (isEmpty (last (positional args) EmptyString) = false ->
       args_connectionString parsed = last (positional args) EmptyString) /\
      (isEmpty (last (positional args) EmptyString) = true ->
       penv "DATABASE_URL" = Some (args_connectionString parsed))) /\
  (isErr (parseCommandLineArgs penv args) = true <->
   isEmpty (last (positional args) EmptyString) = true /\
   unset penv "DATABASE_URL").
Proof.
  unfold parseCommandLineArgs.
  pose proof (scan_args_write args ReadOnly EmptyString) as Hwrite.
  rewrite scan_args_closed in *. cbn [fst] in Hwrite.
  set (cs := last (positional args) EmptyString) in *.
  destruct (isEmpty cs) eqn:Hcs.
  - unfold unset, env_or.
    destruct (penv "DATABASE_URL") as [url|] eqn:Hurl.
    + destruct (isEmpty url) eqn:Hu; cbn [isEmpty isErr].
      * split; [intros; discriminate|].
        split; [intros _; split; [reflexivity|right]|reflexivity].
        destruct url; [reflexivity|discriminate].
      * rewrite Hu. split.
        -- intros parsed [= <-]. cbn [args_mode args_connectionString].
           split; [reflexivity|]. split.
           { intros H. destruct (Hwrite H) as [|]; [discriminate|easy]. }
           split; [exact Hu|]. split; [intros; discriminate|reflexivity].
        -- cbn [isErr]. split; [intros; discriminate|].
           intros [_ [H|H]]; [discriminate|].
           injection H as ->. discriminate.
    + cbn [isEmpty isErr]. split; [intros; discriminate|].
      split; [intros _; split; [reflexivity | now left]|reflexivity].
  - rewrite Hcs. split.
    + intros parsed [= <-]. cbn [args_mode args_connectionString].
      split; [reflexivity|]. split.
      { intros H. destruct (Hwrite H) as [|]; [discriminate|easy]. }
      split; [exact Hcs|]. split; [reflexivity|intros; discriminate].
    + cbn [isErr]. split; [intros; discriminate|].
      intros [H _]. discriminate.
Qed.

Lemma parseCommandLineArgs_spec_witness :
  parseCommandLineArgs
    (fun name => if String.eqb name "DATABASE_URL"
                 then Some "postgresql://localhost/app" else None)
    ["-w"; "--verbose"; "--read-only"]
  = Ok {| args_mode := ReadOnly;
          args_connectionString := "postgresql://localhost/app" |}.
Proof.
  set (penv := fun name => if String.eqb name "DATABASE_URL"
                           then Some "postgresql://localhost/app"
                           else None).
  set (args := ["-w"; "--verbose"; "--read-only"]).
  destruct (parseCommandLineArgs penv args) as [parsed|e] eqn:E.
  - destruct (proj1 (parseCommandLineArgs_spec penv args) parsed E)
      as (Hm & _ & _ & _ & Hurl).
    specialize (Hurl eq_refl). destruct parsed as [m c].
    cbn in Hm, Hurl. injection Hurl as <-. now rewrite Hm.
  - vm_compute in E. discriminate.
Defined.

Lemma ofZ_ltb (a b : Z) : ltb (ofZ a) (ofZ b) = (a <? b).
Proof.
  unfold ltb, ofZ. destruct (a <? b) eqn:E.
  - apply Z.ltb_lt in E. apply negb_true_iff.
    destruct (Qle_bool (inject_Z b) (inject_Z a)) eqn:Q; [|reflexivity].
    apply Qle_bool_iff in Q. rewrite <- Zle_Qle in Q. lia.
  - apply Z.ltb_ge in E. apply negb_false_iff.
    apply Qle_bool_iff. rewrite <- Zle_Qle. exact E.
Qed.

(** X16.  A configuration built by [createServerConfig] that passes
    [validateConfig] is sound for the execution primitive: the query
    timeout is an integer between 1000 and 600000 ms and the row cap an
    integer between 1 and 100000, the connection string is not empty, and
    for every request that gives no timeout of its own (no options, options
    without a timeout, or a timeout of 0 or [NaN]) the effective timeout is
    valid, so the timeout check of [executeQuery] passes.  The rate
    limiter is enabled only if [ENABLE_RATE_LIMIT] is exactly [true]; and
    when the arguments came from the command line, the start of [main]
    succeeds with this configuration, whose mode is read-write only if a
    write flag was given. *)
Theorem configure_sound (penv : ProcessEnv) (parsed : ParsedArgs) :
  let config := createServerConfig penv parsed in
  validateConfig config = Ok tt ->
  (exists t r,
      queryTimeout (server config) = ofZ t /\ 1000 <= t <= 600000 /\
      maxResultRows (server config) = ofZ r /\ 1 <= r <= 100000) /\
  isEmpty (connectionString config) = false /\
  (forall p,
      let own :=
        timeout match options p with Some o => o | None => no_options end
      in
      own = None \/ (exists n, own = Some n /\ truthy n = false) ->
      effective_timeout (server config) p = queryTimeout (server config) /\
      valid_timeout (effective_timeout (server config) p) = true) /\
  (enableRateLimit (server config) = true ->
   penv "ENABLE_RATE_LIMIT" = Some "true") /\
  (forall args,
      parseCommandLineArgs penv args = Ok parsed ->
      configure penv args = Ok config /\
      (mode (server config) = ReadWrite ->
       exists arg, In arg args /\ is_write_flag arg = true)).
Proof.
  intros config Hv. subst config. unfold validateConfig in Hv.
  destruct (isEmpty (connectionString (createServerConfig penv parsed)))
    eqn:Hc; [discriminate|].
  assert (Hcfg : forall args,
             parseCommandLineArgs penv args = Ok parsed ->
             configure penv args = Ok (createServerConfig penv parsed)).
  { intros args Hp. unfold configure, validateConfig.
    rewrite Hp. cbn zeta. rewrite Hc.
    destruct (ltb _ _ || gtb _ _); [discriminate|].
    destruct (ltb _ _ || gtb _ _); [discriminate | reflexivity]. }
  cbn [createServerConfig server queryTimeout maxResultRows mode
       enableRateLimit connectionString] in Hv, Hc |- *.
  set (t := parseIntSafe (env_or (penv "QUERY_TIMEOUT") "30000") 30000)
    in *.
  set (r := parseIntSafe (env_or (penv "MAX_RESULT_ROWS") "10000") 10000)
    in *.
  unfold gtb in Hv. rewrite !ofZ_ltb in Hv.
  destruct (t <? 1000) eqn:E1; [discriminate|].
  destruct (600000 <? t) eqn:E2; [discriminate|].
  destruct (r <? 1) eqn:E3; [discriminate|].
  destruct (100000 <? r) eqn:E4; [discriminate|].
  apply Z.ltb_ge in E1, E2, E3, E4.
  split; [exists t, r; repeat split; lia|].
  split; [reflexivity|]. split; [|split].
  - intros p. cbn zeta. intros Hown.
    match goal with
    | |- context [effective_timeout ?c p] =>
        assert (Heff : effective_timeout c p = ofZ t)
    end.
    { unfold effective_timeout. cbn [queryTimeout].
      destruct Hown as [H | (n & H & Hn)]; rewrite H; cbn [or_default];
        [reflexivity | now rewrite Hn]. }
    rewrite Heff. split; [reflexivity|].
    unfold valid_timeout. rewrite ofZ_ltb. cbn [isFinite ofZ andb].
    apply negb_true_iff, Z.ltb_ge. lia.
  - destruct (penv "ENABLE_RATE_LIMIT") as [v|]; [|discriminate].
    intros H. apply String.eqb_eq in H. now subst v.
  - intros args Hp. split; [exact (Hcfg args Hp)|].
    intros Hm. exact (parsed_mode_write penv args parsed Hp Hm).
Qed.

Lemma configure_sound_witness :
  let config :=
    createServerConfig (fun _ => None)
      {| args_mode := ReadOnly;
         args_connectionString := "postgresql://localhost/app" |} in
  configure (fun _ => None) ["postgresql://localhost/app"] = Ok config /\
  valid_timeout (effective_timeout (server config)
                   (request "SELECT 1" None (Some (ofZ 5)))) = true /\
  valid_timeout (effective_timeout (server config)
                   (request "SELECT 1" (Some (ofZ 0)) None)) = true.
Proof.
  intros config.
  destruct (configure_sound (fun _ => None)
              {| args_mode := ReadOnly;
                 args_connectionString := "postgresql://localhost/app" |}
              eq_refl) as (_ & _ & Ht & _ & Hargs).
  split; [exact (proj1 (Hargs ["postgresql://localhost/app"] eq_refl))|].
  split.
  - apply (Ht (request "SELECT 1" None (Some (ofZ 5)))). now left.
  - apply (Ht (request "SELECT 1" (Some (ofZ 0)) None)). right.
    exists (ofZ 0). split; reflexivity.
Defined.

End ConfigMore.

(* ===================================================================== *)
(** * Properties of the result formatter *)
(* ===================================================================== *)

Module FormatterMore.
Import JS Database ResultFormatter DatabaseProps SanitizeMore.

Lemma substring0_length (n : nat) (s : string) :
  String.length (substring0 n s) = Nat.min n (String.length s).
Proof.
  revert s. induction n as [|n IH]; intros s; [reflexivity|].
  destruct s as [|c s]; [reflexivity|].
  cbn [substring0 String.length Nat.min]. now rewrite IH.
Qed.

Lemma ofZ_leb (a b : Z) : leb (ofZ a) (ofZ b) = (a <=? b).
Proof.
  unfold leb, ofZ. destruct (a <=? b) eqn:E.
  - apply Z.leb_le in E. apply Qle_bool_iff. now rewrite <- Zle_Qle.
  - apply Z.leb_gt in E.
    destruct (Qle_bool (inject_Z a) (inject_Z b)) eqn:Q; [|reflexivity].
    apply Qle_bool_iff in Q. rewrite <- Zle_Qle in Q. lia.
Qed.

Lemma substring_to_minus (m k : Z) (s : string) :
  substring_to (minus (ofZ m) (ofZ k)) s
  = substring0 (Z.to_nat (Z.max 0 (Z.min (m - k) (JS.length s)))) s.
Proof.
  unfold substring_to, minus, ofZ.
  rewrite (truncate_integer _ (m - k)); [reflexivity|].
  unfold Qminus. now rewrite <- inject_Z_opp, <- inject_Z_plus.
Qed.

(** X17.  [truncateText] never returns more than [maxLength] characters
    when [maxLength] is an integer of at least 3: a text that fits is
    returned as it is, and a longer one becomes its first
    [maxLength - 3] characters followed by three dots, [maxLength]
    characters in all.  Without a [maxLength] the limit is 100. *)
Theorem truncateText_bound (text : string) (m : Z) :
  3 <= m ->
  let out := truncateText text (Some (ofZ m)) in
  JS.length out <= m /\
  (JS.length text <= m -> out = text) /\
  (m < JS.length text ->
   out = (substring0 (Z.to_nat (m - 3)) text ++ "...")%string /\
   JS.length out = m) /\
  truncateText text None = truncateText text (Some (ofZ 100)).
Proof.
  intros Hm out. subst out. unfold truncateText.
  rewrite ofZ_leb, substring_to_minus.
  destruct (JS.length text <=? m) eqn:E.
  - apply Z.leb_le in E. split; [exact E|]. split; [reflexivity|].
    split; [lia | reflexivity].
  - apply Z.leb_gt in E.
    replace (Z.max 0 (Z.min (m - 3) (JS.length text))) with (m - 3)
      by lia.
    assert (Hlen : JS.length (substring0 (Z.to_nat (m - 3)) text ++ "...")
                   = m).
    { unfold JS.length in *. rewrite string_length_append.
      rewrite substring0_length. cbn [String.length]. lia. }
    split; [lia|]. split; [lia|]. split; [|reflexivity].
    intros _. split; [reflexivity | exact Hlen].
Qed.

Lemma truncateText_bound_witness :
  truncateText "SELECT * FROM measurements" (Some (ofZ 10)) = "SELECT ...".
Proof.
  destruct (truncateText_bound "SELECT * FROM measurements" 10
              ltac:(lia)) as (_ & _ & H & _).
  exact (proj1 (H ltac:(cbn; lia))).
Defined.

Lemma lookup_oid_In (m : list (Z * string)) (oid : Z) (name : string) :
  lookup_oid m oid = Some name -> In (oid, name) m.
Proof.
  induction m as [|[k n] m IH]; cbn [lookup_oid]; [discriminate|].
  destruct (k =? oid) eqn:E.
  - intros [= <-]. apply Z.eqb_eq in E. subst k. now left.
  - intros H. right. now apply IH.
Qed.

Lemma show_int_injective (a b : Z) : show_int a = show_int b -> a = b.
Proof.
  intros H. pose proof (parseInt_show_int a) as Ha.
  rewrite H, parseInt_show_int in Ha. congruence.
Qed.

(** X18.  [getPostgresTypeName] tells types apart: two different integer
    OIDs never get the same name, whether they are in the table or rendered as
    [oid_N].  So [formatQueryResult] keeps the rows and the field names
    in order, loses no type information, and reports a row count of 0
    where the driver gave none. *)
Theorem getPostgresTypeName_injective (a b : Z) (result : QueryResult)
  (ms : option number) :
  (safe_integer a -> safe_integer b ->
   getPostgresTypeName a = getPostgresTypeName b -> a = b) /\
  f_rows (formatQueryResult result ms) = rows result /\
  map fst (f_fields (formatQueryResult result ms))
  = map fst (fields result) /\
  (rowCount result = None ->
   f_rowCount (formatQueryResult result ms) = ofZ 0).
Proof.
  split; [|split; [reflexivity|split]].
  - intros _ _. unfold getPostgresTypeName.
    destruct (lookup_oid typeMap a) as [na|] eqn:Ea;
      destruct (lookup_oid typeMap b) as [nb|] eqn:Eb.
    + intros <-. apply lookup_oid_In in Ea, Eb.
      cbn [typeMap In] in Ea, Eb.
      repeat (destruct Ea as [Ea|Ea]; [injection Ea as <- <-|]);
        try contradiction;
        repeat (destruct Eb as [Eb|Eb];
                [first [discriminate Eb | now injection Eb as <-]|]);
        contradiction.
    + intros ->. apply lookup_oid_In in Ea. cbn [typeMap In] in Ea.
      repeat (destruct Ea as [Ea|Ea]; [discriminate Ea|]). contradiction.
    + intros <-. apply lookup_oid_In in Eb. cbn [typeMap In] in Eb.
      repeat (destruct Eb as [Eb|Eb]; [discriminate Eb|]). contradiction.
    + intros H. apply show_int_injective.
      cbn [append] in H. now injection H.
  - unfold formatQueryResult. cbn [f_fields]. rewrite map_map.
    reflexivity.
  - intros H. unfold formatQueryResult. cbn [f_rowCount]. now rewrite H.
Qed.

Lemma getPostgresTypeName_injective_witness :
  getPostgresTypeName 16 <> getPostgresTypeName 600 /\
  f_rowCount (formatQueryResult empty_result None) = ofZ 0.
Proof.
  destruct (getPostgresTypeName_injective 16 600 empty_result None)
    as (Hinj & _ & _ & Hcount).
  split; [|exact (Hcount eq_refl)].
  intros H.
  assert (E : 16 = 600)
    by (apply Hinj; [unfold safe_integer; cbn; lia
                    | unfold safe_integer; cbn; lia | exact H]).
  discriminate E.
Defined.

End FormatterMore.

(* ===================================================================== *)
(** * Properties of the logger *)
(* ===================================================================== *)

Module LoggerMore.
Import JS Logger.

Lemma replay_files (logLevel : string) (calls : list LogEntry)
  (f : Files) :
  let kept := filter (fun e => shouldLog logLevel (level e)) calls in
  toolUsage (replay logLevel calls f) = toolUsage f ++ kept /\
  stderr (replay logLevel calls f) = stderr f ++ kept /\
  errorFile (replay logLevel calls f)
  = errorFile f ++ filter is_error kept.
Proof.
  revert f. induction calls as [|e calls IH]; intros f.
  - cbn. now rewrite !app_nil_r.
  - cbn zeta. unfold replay. cbn [fold_left filter].
    fold (replay logLevel calls (log logLevel e f)).
    destruct (IH (log logLevel e f)) as (Ht & Hs & He).
    rewrite Ht, Hs, He. unfold log.
    destruct (shouldLog logLevel (level e)); cbn [negb];
      [|now repeat split].
    cbn [toolUsage stderr errorFile filter].
    destruct (is_error e); rewrite <- ?app_assoc; now repeat split.
Qed.

Lemma shouldLog_error (logLevel : string) :
  array_includes inherited_names logLevel = false ->
  shouldLog logLevel error = true.
Proof.
  intros H. unfold shouldLog.
  change (getLevelPriority (level_name error)) with (Some 3).
  unfold getLevelPriority. rewrite H.
  repeat match goal with
         | |- context [String.eqb ?a ?b] => destruct (String.eqb a b)
         end; reflexivity.
Qed.

Lemma shouldLog_inherited (logLevel : string) (l : Level) :
  array_includes inherited_names logLevel = true ->
  shouldLog logLevel l = false.
Proof.
  intros H. unfold shouldLog.
  assert (Hp : getLevelPriority logLevel = None).
  { unfold array_includes in H. apply existsb_exists in H as (n & Hn & E).
    apply String.eqb_eq in E. subst n.
    cbn [inherited_names In] in Hn.
    repeat (destruct Hn as [<-|Hn]; [reflexivity|]). contradiction. }
  rewrite Hp. now destruct (getLevelPriority (level_name l)).
Qed.

(** X19.  What the logger writes.  Whatever level string it is configured
    with, after any sequence of calls the usage log holds exactly the
    calls whose level passes [shouldLog], in order; the standard error
    stream got the same entries; and the error log holds exactly the
    error-level entries of the usage log.  Unless the configured level
    is the name of a member every object inherits, no error-level call is
    ever dropped; if it is such a name ([constructor], [toString], ...),
    nothing is written at all. *)
Theorem logger_files (logLevel : string) (calls : list LogEntry) :
  let f := replay logLevel calls no_files in
  toolUsage f = filter (fun e => shouldLog logLevel (level e)) calls /\
  stderr f = toolUsage f /\
  errorFile f = filter is_error (toolUsage f) /\
  (array_includes inherited_names logLevel = false ->
   errorFile f = filter is_error calls) /\
  (array_includes inherited_names logLevel = true -> f = no_files).
Proof.
  intros f. subst f.
  destruct (replay_files logLevel calls no_files) as (Ht & Hs & He).
  cbn [no_files toolUsage stderr errorFile app] in Ht, Hs, He.
  split; [exact Ht|]. split; [now rewrite Hs, Ht|].
  split; [now rewrite He, Ht|]. split.
  - intros H. rewrite He. clear Ht Hs He.
    induction calls as [|e calls IH]; [reflexivity|].
    cbn [filter]. destruct (shouldLog logLevel (level e)) eqn:E.
    + cbn [filter]. now rewrite IH.
    + rewrite IH. unfold is_error.
      destruct (level e); try reflexivity.
      rewrite (shouldLog_error logLevel H) in E. discriminate.
  - intros H.
    assert (Hnone : filter (fun e => shouldLog logLevel (level e)) calls
                    = []).
    { clear Ht Hs He. induction calls as [|e calls IH]; [reflexivity|].
      cbn [filter]. now rewrite (shouldLog_inherited logLevel _ H). }
    rewrite Hnone in Ht, Hs, He. cbn [filter] in He.
    destruct (replay logLevel calls no_files) as [t e s].
    cbn in Ht, Hs, He. now subst.
Qed.

Lemma logger_files_witness :
  let failure := {| level := error; tool := "query";
                    message := "Query execution failed";
                    data := VUndefined |} in
  errorFile (replay "verbose" [failure] no_files) = [failure] /\
  replay "constructor" [failure] no_files = no_files.
Proof.
  intros failure.
  destruct (logger_files "verbose" [failure]) as (_ & _ & _ & H & _).
  destruct (logger_files "constructor" [failure]) as (_ & _ & _ & _ & H').
  split; [exact (H eq_refl) | exact (H' eq_refl)].
Defined.

End LoggerMore.

(* ===================================================================== *)
(** * Properties of the query and mutation tools *)
(* ===================================================================== *)

Module QueryToolsMore.
Import JS Sanitize Database ResultFormatter QueryTools.
Import SanitizeProps SanitizeMore DatabaseProps DatabaseMore.

Lemma sanitizeQuery_Ok_operation (query : string) (mode : DatabaseMode) :
  sanitizeQuery query mode = Ok tt ->
  array_includes (allowedOps mode) (operation_of (trim query)) = true.
Proof.
  unfold sanitizeQuery.
  destruct (falsy_string (trim query)); [discriminate|].
  destruct (array_includes (allowedOps mode) (operation_of (trim query)));
    [reflexivity | discriminate].
Qed.

(** X20.  The [executeQuery] tool adds nothing to the primitive's
    guarantees and takes nothing away: the pool count is unchanged, and
    whatever it sends has passed [sanitizeQuery] for the configured mode,
    so the statement's first word is one of the mode's allowed operations
    (SELECT, EXPLAIN or WITH in read-only mode); the statement goes out
    with the caller's text and parameters, after the timeout setting. *)
Theorem executeQueryTool_gate (env : Environment) (config : ServerConfig)
  (args : ExecuteQueryArgs) (w : World) :
  let w' := snd (executeQueryTool env config args w) in
  checkedOut w' = checkedOut w /\
  (sent w' = sent w \/
   (sanitizeQuery (eq_query args) (mode config) = Ok tt /\
    array_includes (allowedOps (mode config))
      (operation_of (trim (eq_query args))) = true /\
    exists t,
      sent w' = sent w ++ [SetStatementTimeout t] \/
      sent w' = sent w ++ [SetStatementTimeout t;
                           Parametrized (eq_query args) (eq_params args)])).
Proof.
  cbn zeta. unfold executeQueryTool, bind, logM, nowM, ret.
  set (p := {| query := eq_query args; params := Some (eq_params args);
               options := _ |}).
  set (w1 := write_log _ _ _ _ w).
  pose proof (executeQuery_checkedOut env config p w1) as Hc.
  pose proof (executeQuery_sent_cases env config p w1) as Hs.
  cbn zeta in Hs.
  destruct (executeQuery env config p w1) as [[res|e] w2];
    cbn [fst snd] in *.
  all: split; [exact Hc|].
  all: destruct Hs as [Hs | (Hok & _ & Hs)]; [left; exact Hs | right].
  all: split; [exact Hok|].
  all: split; [exact (sanitizeQuery_Ok_operation _ _ Hok)|].
  all: eexists; exact Hs.
Qed.

Lemma trimEnd_cons_nonspace (c : ascii) (s : string) :
  isSpace c = false -> trimEnd (String c s) = String c (trimEnd s).
Proof. intros H. cbn [trimEnd]. now rewrite H. Qed.

Lemma trimEnd_cons_nonempty (c : ascii) (s : string) :
  isEmpty (trimEnd s) = false -> trimEnd (String c s) = String c (trimEnd s).
Proof. intros H. cbn [trimEnd]. rewrite H. now rewrite andb_false_r. Qed.

Lemma trim_explain (tail : string) :
  trim ("EXPLAIN (" ++ tail) = ("EXPLAIN (" ++ trimEnd tail)%string.
Proof.
  unfold trim. cbn [append].
  rewrite !trimEnd_cons_nonspace by reflexivity.
  rewrite trimEnd_cons_nonempty
    by (now rewrite trimEnd_cons_nonspace by reflexivity).
  rewrite trimEnd_cons_nonspace by reflexivity.
  reflexivity.
Qed.

Lemma explain_operation (args : ExplainQueryArgs) :
  operation_of (trim (explainQuery args)) = "EXPLAIN".
Proof.
  unfold explainQuery. rewrite trim_explain, operation_of_first_token.
  reflexivity.
Qed.

Lemma explain_sanitize (args : ExplainQueryArgs) :
  sanitizeQuery (explainQuery args) ReadOnly
  = sanitizeQuery (explainQuery args) ReadWrite.
Proof.
  unfold sanitizeQuery. rewrite !explain_operation. reflexivity.
Qed.

(** X21.  The [explainQuery] tool is not held back by the mode.  The
    statement it builds always begins with EXPLAIN, whatever the query,
    so [sanitizeQuery] judges it the same in read-only and in read-write
    mode and the tool does the same in both.  With the default
    [analyze = true] the statement asks for ANALYZE, which runs the query
    it explains: a DELETE goes out in read-only mode. *)
Theorem explain_ignores_mode (env : Environment) (config : ServerConfig)
  (args : ExplainQueryArgs) (w : World) :
  operation_of (trim (explainQuery args)) = "EXPLAIN" /\
  sanitizeQuery (explainQuery args) ReadOnly
  = sanitizeQuery (explainQuery args) ReadWrite /\
  explainQueryTool_call env (with_mode ReadOnly config) args w
  = explainQueryTool_call env (with_mode ReadWrite config) args w /\
  sent (snd (explainQueryTool_call (steady empty_result)
               (default_config ReadOnly)
               (explain_defaults "DELETE FROM users") quiet))
  = [SetStatementTimeout 30000;
     Parametrized
       "EXPLAIN (FORMAT JSON, ANALYZE, BUFFERS) DELETE FROM users" []].
Proof.
  split; [apply explain_operation|]. split; [apply explain_sanitize|].
  split; [|vm_compute; reflexivity].
  unfold explainQueryTool_call, bind, logM, executeQuery.
  cbn [query with_mode mode].
  rewrite explain_sanitize. reflexivity.
Qed.

Lemma toLowerCase_empty (s : string) :
  isEmpty (toLowerCase s) = isEmpty s.
Proof. now destruct s. Qed.

Lemma validateUserWhereClause_not_blank (where_ : string) :
  validateUserWhereClause where_ = Ok tt ->
  isBlank where_ = false /\ isEmpty (trim where_) = false.
Proof.
  unfold validateUserWhereClause. intros H.
  destruct (falsy_string where_ || falsy_string (trim where_)) eqn:G;
    [discriminate|].
  split.
  - destruct (isBlank where_) eqn:B; [|reflexivity].
    rewrite (blank_guard where_ B) in G. discriminate.
  - apply orb_false_iff in G as [_ G]. exact G.
Qed.

(** X22.  [validateWhereClause], the guard of [safeUpdate] and
    [safeDelete] against a clause that selects every row.  The clauses it
    looks for are the empty one, [1=1] and [true], in any letter case and
    with any white space around them.  For such a clause it answers
    invalid with the warning that quotes the clause when [allowEmpty] is
    false, and valid with the all-rows warning when it is true; any other
    clause is valid without a warning.  Since [safeUpdate] and
    [safeDelete] run [validateUserWhereClause] first, which throws on a
    blank clause, the clause that reaches the guard there is never the
    empty one. *)
Theorem validateWhereClause_spec (where_ : string) (allowEmpty : bool) :
  let v := validateWhereClause where_ allowEmpty in
  let all_rows :=
    In (toLowerCase (trim where_)) [EmptyString; "1=1"; "true"] in
  (all_rows -> allowEmpty = false ->
   valid v = false /\
   warning v =
     Some ("Dangerous WHERE clause detected: " ++ String dquote where_ ++
           String dquote
             ". This would affect ALL rows. Set allowEmptyWhere=true to proceed.")
     %string) /\
  (all_rows -> allowEmpty = true ->
   valid v = true /\
   warning v = Some "WARNING: This will affect ALL rows in the table.") /\
  (~ all_rows -> valid v = true /\ warning v = None) /\
  (validateUserWhereClause where_ = Ok tt ->
   toLowerCase (trim where_) <> EmptyString) /\
  (isBlank where_ = true ->
   validateUserWhereClause where_ = Err "WHERE clause cannot be empty").
Proof.
  cbn zeta. unfold validateWhereClause, falsy_string.
  assert (Hcase :
            isEmpty (toLowerCase (trim where_))
            || String.eqb (toLowerCase (trim where_)) "1=1"
            || String.eqb (toLowerCase (trim where_)) "true" = true
            <-> In (toLowerCase (trim where_))
                  [EmptyString; "1=1"; "true"]).
  { destruct (toLowerCase (trim where_)) as [|c r] eqn:E.
    - cbn. split; [now left | reflexivity].
    - cbn [isEmpty orb]. rewrite orb_true_iff, !String.eqb_eq.
      split.
      + intros [H|H]; rewrite H; cbn; tauto.
      + intros [H|[H|[H|[]]]]; [discriminate | now left | now right]. }
  split; [|split; [|split; [|split]]].
  - intros Hall ->. apply Hcase in Hall. rewrite Hall. cbn. now split.
  - intros Hall ->. apply Hcase in Hall. rewrite Hall. cbn. now split.
  - intros Hnot.
    destruct (isEmpty (toLowerCase (trim where_))
              || String.eqb (toLowerCase (trim where_)) "1=1"
              || String.eqb (toLowerCase (trim where_)) "true") eqn:E.
    + exfalso. apply Hnot, Hcase. reflexivity.
    + cbn. now split.
  - intros V H.
    destruct (validateUserWhereClause_not_blank where_ V) as [_ Ht].
    rewrite <- toLowerCase_empty in Ht. rewrite H in Ht. discriminate.
  - intros B. unfold validateUserWhereClause.
    now rewrite (blank_guard where_ B).
Qed.

Lemma validateWhereClause_spec_witness :
  valid (validateWhereClause " TRUE " false) = false /\
  validateWhereClause " TRUE " true
  = {| valid := true;
       warning := Some "WARNING: This will affect ALL rows in the table." |}
  /\
  validateWhereClause "id = 7" false
  = {| valid := true; warning := None |}.
Proof.
  destruct (validateWhereClause_spec " TRUE " false) as (H1 & _).
  destruct (validateWhereClause_spec " TRUE " true) as (_ & H2 & _).
  destruct (validateWhereClause_spec "id = 7" false) as (_ & _ & H3 & _).
  split; [|split].
  - apply H1; [right; right; now left | reflexivity].
  - destruct H2 as [Hv Hw]; [right; right; now left | reflexivity|].
    destruct (validateWhereClause " TRUE " true) as [v w0].
    cbn in Hv, Hw. now subst.
  - destruct H3 as [Hv Hw].
    + cbn. intros [H|[H|[H|[]]]]; discriminate.
    + destruct (validateWhereClause "id = 7" false) as [v w0].
      cbn in Hv, Hw. now subst.
Defined.

End QueryToolsMore.

(* ===================================================================== *)
(** * Further properties of the server *)
(* ===================================================================== *)

Module ServerMore.
Import JS Sanitize Database Config Zod Server ServerProps.

(** X23.  An invocation that fails before its handler is called -- turned
    away by the limiter, naming no registered tool, or carrying arguments
    the schema rejects -- leaves the database alone: no client is taken,
    no statement is sent.  It is answered with the error envelope, and
    the log gains exactly two entries, the call and the error with its
    message. *)
Theorem early_failure_effects (tools : list (string * ToolDefinition))
  (name : string) (args : option value) (s : State) (e : string) :
  early_error tools name args s = Some e ->
  let response := fst (callTool tools name args s) in
  let w' := world (snd (callTool tools name args s)) in
  response = error_envelope e name /\
  w' = write_log Logger.error "mcp" ("Error executing tool " ++ name)
         (VObj [("error", VStr e)])
         (write_log Logger.info "mcp" ("Tool called: " ++ name)
            (VObj [("args",
                    match args with Some a => a | None => VUndefined end)])
            (world s)) /\
  sent w' = sent (world s) /\
  checkedOut w' = checkedOut (world s) /\
  poolTrace w' = poolTrace (world s).
Proof.
  unfold early_error. intros H.
  assert (Hmain :
    fst (callTool tools name args s) = error_envelope e name /\
    world (snd (callTool tools name args s))
    = write_log Logger.error "mcp" ("Error executing tool " ++ name)
        (VObj [("error", VStr e)])
        (write_log Logger.info "mcp" ("Tool called: " ++ name)
           (VObj [("args",
                   match args with Some a => a | None => VUndefined end)])
           (world s))).
  { open_callTool.
    destruct (RateLimiter.checkLimit (clock (world s)) (limiter s))
      as [[[]|e0] rl]; cbn [fst snd] in H |- *.
    - destruct (getTool tools name) as [tool| |].
      + destruct (parse (schema tool) (arguments args)) as [v|e1];
          [discriminate|].
        injection H as <-. cbn. now split.
      + injection H as <-. cbn. now split.
      + injection H as <-. cbn. now split.
    - injection H as <-. cbn. now split. }
  cbn zeta. destruct Hmain as [Hr Hw]. rewrite Hw.
  repeat split; exact Hr.
Qed.

Lemma early_failure_effects_witness :
  sent (world (snd (callTool sample_tools "toString" None
                      (initial_state (default_config ReadOnly) quiet))))
  = [] /\
  fst (callTool sample_tools "toString" None
         (initial_state (default_config ReadOnly) quiet))
  = error_envelope no_schema_message "toString".
Proof.
  destruct (early_failure_effects sample_tools "toString" None
              (initial_state (default_config ReadOnly) quiet)
              no_schema_message eq_refl) as (Hr & _ & Hs & _).
  split; [exact Hs | exact Hr].
Defined.

Lemma callTool_disabled (tools : list (string * ToolDefinition))
  (name : string) (args : option value) (s : State) :
  RateLimiter.enabled (limiter s) = false ->
  limiter (snd (callTool tools name args s)) = limiter s /\
  lookups (snd (callTool tools name args s)) = S (lookups s).
Proof.
  intros He. unfold lookups. open_callTool.
  unfold RateLimiter.checkLimit. rewrite He. cbn [negb fst snd].
  destruct (getTool tools name) as [tool| |].
  - destruct (parse (schema tool) (arguments args)) as [v|e1].
    + cbn [limiter world steps].
      destruct (handler tool v _) as [[r|e2] w1];
        cbn [fst snd limiter steps];
        (split; [reflexivity|]);
        rewrite <- !app_assoc, !filter_app, !length_app; cbn; lia.
    + cbn [fst snd limiter steps]. split; [reflexivity|].
      rewrite <- !app_assoc, !filter_app, !length_app. cbn. lia.
  - cbn [fst snd limiter steps]. split; [reflexivity|].
    rewrite <- ?app_assoc, !filter_app, !length_app. cbn. lia.
  - cbn [fst snd limiter steps]. split; [reflexivity|].
    rewrite <- ?app_assoc, !filter_app, !length_app. cbn. lia.
Qed.

Lemma serve_disabled (tools : list (string * ToolDefinition))
  (requests : list (string * option value)) (s : State) :
  RateLimiter.enabled (limiter s) = false ->
  limiter (snd (serve tools requests s)) = limiter s /\
  lookups (snd (serve tools requests s))
  = (lookups s + List.length requests)%nat /\
  List.length (fst (serve tools requests s)) = List.length requests.
Proof.
  revert s. induction requests as [|[name args] rest IH]; intros s He.
  - cbn. repeat split. lia.
  - cbn [serve].
    destruct (callTool_disabled tools name args s He) as [Hl Hn].
    destruct (callTool tools name args s) as [response s1].
    cbn [snd] in Hl, Hn.
    assert (He1 : RateLimiter.enabled (limiter s1) = false)
      by (now rewrite Hl).
    destruct (IH s1 He1) as (IHl & IHn & IHr).
    destruct (serve tools rest s1) as [responses s2].
    cbn [fst snd List.length] in *.
    rewrite IHl, IHn, Hl, Hn, IHr. repeat split. lia.
Qed.

(** X24.  Rate limiting is off unless [ENABLE_RATE_LIMIT] is exactly
    [true]: with any other setting the server built from the
    configuration never turns an invocation away for its rate.  Whatever
    the requests and however many, each one gets as far as the tool
    lookup, each is answered, and the limiter records nothing. *)
Theorem serve_unlimited (penv : ProcessEnv) (parsed : ParsedArgs)
  (tools : list (string * ToolDefinition))
  (requests : list (string * option value)) (w : World) :
  penv "ENABLE_RATE_LIMIT" <> Some "true" ->
  let s0 := initial_state (server (createServerConfig penv parsed)) w in
  let s' := snd (serve tools requests s0) in
  lookups s' = List.length requests /\
  List.length (fst (serve tools requests s0)) = List.length requests /\
  limiter s' = limiter s0 /\
  RateLimiter.requests (limiter s') = [].
Proof.
  intros Henv s0 s'. subst s'.
  assert (He : RateLimiter.enabled (limiter s0) = false).
  { unfold s0, initial_state, createServerConfig.
    cbn [limiter server enableRateLimit RateLimiter.create
         RateLimiter.enabled].
    destruct (penv "ENABLE_RATE_LIMIT") as [v|]; [|reflexivity].
    destruct (String.eqb_spec v "true") as [->|]; [|reflexivity].
    now contradiction Henv. }
  destruct (serve_disabled tools requests s0 He) as (Hl & Hn & Hr).
  rewrite Hl, Hn, Hr. repeat split.
Qed.

Lemma serve_unlimited_witness :
  lookups (snd (serve sample_tools
                  [("ping", None); ("ping", None); ("nope", None)]
                  (initial_state
                     (server (createServerConfig
                                (fun name =>
                                   if String.eqb name "ENABLE_RATE_LIMIT"
                                   then Some "TRUE" else None)
                                {| args_mode := ReadOnly;
                                   args_connectionString := "db" |}))
                     quiet)))
  = 3%nat.
Proof.
  refine (proj1 (serve_unlimited _ _ sample_tools
                   [("ping", None); ("ping", None); ("nope", None)]
                   quiet _)).
  cbn. discriminate.
Defined.

Lemma own_property_In (tools : list (string * ToolDefinition))
  (name : string) (tool : ToolDefinition) :
  distinct (map fst tools) = true ->
  In (name, tool) tools -> own_property tools name = Some tool.
Proof.
  induction tools as [|[k t] rest IH]; [contradiction|].
  cbn [map fst own_property]. intros Hd Hin.
  apply distinct_cons in Hd as [Hnot Hd].
  destruct Hin as [Hin|Hin].
  - injection Hin as -> ->. now rewrite String.eqb_refl.
  - destruct (String.eqb_spec k name) as [->|Hne].
    + exfalso. apply Hnot. apply in_map_iff. now exists (name, tool).
    + now apply IH.
Qed.

Lemma own_property_Some (tools : list (string * ToolDefinition))
  (name : string) (tool : ToolDefinition) :
  own_property tools name = Some tool -> In (name, tool) tools.
Proof.
  induction tools as [|[k t] rest IH]; cbn [own_property]; [discriminate|].
  destruct (String.eqb_spec k name) as [->|Hne].
  - intros [= <-]. now left.
  - intros H. right. now apply IH.
Qed.

Lemma required_keys_incl (shape : list (string * ZodType)) :
  incl (required_keys shape) (map fst shape).
Proof.
  induction shape as [|[k f] rest IH]; [intros x []|].
  cbn [required_keys map fst].
  destruct (defaultValue_of f).
  - intros x Hx. right. now apply IH.
  - intros x [<-|Hx]; [now left | right; now apply IH].
Qed.

(** X25.  The catalog and the registry agree.  [listTools] advertises the
    registered names, each once and in registry order; every advertised
    name resolves through [getTool] to the tool whose schema the entry
    shows, and every name that resolves to a tool is advertised.  Each
    advertised input schema is an object whose properties are the keys of
    the tool's schema, in order, and whose required keys are among
    them. *)
Theorem catalog_registry (tools : list (string * ToolDefinition))
  (mode : DatabaseMode) :
  distinct (map fst tools) = true ->
  map tool_name (listTools tools mode) = getToolNames tools /\
  (forall entry,
      In entry (listTools tools mode) ->
      exists tool,
        getTool tools (tool_name entry) = Own tool /\
        inputSchema entry = zodToJsonSchema (def (schema tool)) /\
        schema_type (inputSchema entry) = "object" /\
        map fst (properties (inputSchema entry))
        = map fst (shape_of (def (schema tool))) /\
        incl (required_list (inputSchema entry))
             (map fst (properties (inputSchema entry)))) /\
  (forall name tool,
      getTool tools name = Own tool ->
      In name (map tool_name (listTools tools mode))).
Proof.
  intros Hd.
  assert (Hnames : map tool_name (listTools tools mode)
                   = getToolNames tools).
  { unfold listTools, getToolNames. rewrite map_map. reflexivity. }
  split; [exact Hnames|]. split.
  - intros entry Hin. unfold listTools in Hin.
    apply in_map_iff in Hin as ([name tool] & <- & Hin).
    exists tool. cbn [tool_name inputSchema fst snd].
    split.
    { unfold getTool. now rewrite (own_property_In tools name tool Hd Hin). }
    split; [reflexivity|]. split; [reflexivity|].
    unfold zodToJsonSchema. cbn [properties]. rewrite map_map.
    split; [reflexivity|].
    unfold required_list. cbn [required].
    pose proof (required_keys_incl (shape_of (def (schema tool)))) as Hi.
    destruct (required_keys (shape_of (def (schema tool))));
      [intros x [] | exact Hi].
  - intros name tool H. rewrite Hnames. unfold getTool in H.
    destruct (own_property tools name) as [t|] eqn:E.
    + apply own_property_Some in E. unfold getToolNames.
      apply in_map_iff. now exists (name, t).
    + destruct (array_includes object_prototype_names name); discriminate.
Qed.

Lemma catalog_registry_witness :
  map tool_name (listTools sample_tools ReadOnly) = ["ping"].
Proof.
  exact (proj1 (catalog_registry sample_tools ReadOnly eq_refl)).
Defined.

End ServerMore.

(* ===================================================================== *)
(** * What the anchored patterns let through *)
(* ===================================================================== *)

Module AlphabetProps.
Import JS Sanitize SanitizeProps RegexProps SanitizeMore.

Lemma all_ascii_complete (c : ascii) : In c all_ascii.
Proof.
  unfold all_ascii. apply in_map_iff. exists (nat_of_ascii c).
  split; [apply ascii_nat_embedding|].
  apply in_seq. pose proof (nat_ascii_bounded c). lia.
Qed.

Lemma forallb_all_ascii (f : ascii -> bool) :
  forallb f all_ascii = true -> forall c, f c = true.
Proof.
  intros H c. rewrite forallb_forall in H. apply H, all_ascii_complete.
Qed.

Lemma reaches_refl (P : ascii -> bool) (cf : config) : reaches P cf cf.
Proof. exists []. now split. Qed.

Lemma reaches_trans (P : ascii -> bool) (a b c : config) :
  reaches P a b -> reaches P b c -> reaches P a c.
Proof.
  intros (u & Hu & Pu) (v & Hv & Pv). exists (u ++ v). split.
  - now rewrite Hu, Hv, app_assoc.
  - rewrite forallb_app, Pu, Pv. reflexivity.
Qed.

Lemma star_from_reaches (P : ascii -> bool)
  (step : config -> list config) :
  (forall cf cf', In cf' (step cf) -> reaches P cf cf') ->
  forall n frontier x,
    In x (star_from step n frontier) ->
    exists cf0, In cf0 frontier /\ reaches P cf0 x.
Proof.
  intros Hstep. induction n as [|n IH]; intros frontier x H.
  - exists x. split; [exact H | apply reaches_refl].
  - cbn [star_from] in H. apply in_app_or in H as [H|H].
    + exists x. split; [exact H | apply reaches_refl].
    + destruct (IH _ _ H) as (cf1 & Hin & Hr).
      apply in_flat_map in Hin as (cf0 & Hin0 & Hin1).
      apply filter_In in Hin1 as [Hin1 _].
      exists cf0. split; [exact Hin0|].
      eapply reaches_trans; [apply Hstep; exact Hin1 | exact Hr].
Qed.

Lemma ends_reaches (ic : bool) (P : ascii -> bool) (r : re) :
  within_alphabet ic P r = true ->
  forall cf cf', In cf' (ends ic r cf) -> reaches P cf cf'.
Proof.
  induction r as [|p|g|a IHa b IHb|a IHa b IHb|a IHa| | |];
    cbn [within_alphabet ends]; intros Hw cf cf' Hin.
  - destruct Hin as [<-|[]]. apply reaches_refl.
  - destruct cf as [prev [|c s']]; cbn [snd] in Hin; [contradiction|].
    destruct (chr_matches ic p c) eqn:E; [|contradiction].
    destruct Hin as [<-|[]]. exists [c]. split; [reflexivity|].
    pose proof (forallb_all_ascii _ Hw c) as H. cbn beta in H.
    rewrite E in H. cbn [implb] in H. cbn [forallb]. now rewrite H.
  - destruct cf as [prev [|c s']]; cbn [snd] in Hin; [contradiction|].
    destruct (g c) eqn:E; [|contradiction].
    destruct Hin as [<-|[]]. exists [c]. split; [reflexivity|].
    pose proof (forallb_all_ascii _ Hw c) as H. cbn beta in H.
    rewrite E in H. cbn [implb] in H. cbn [forallb]. now rewrite H.
  - apply andb_true_iff in Hw as [Wa Wb].
    apply in_flat_map in Hin as (mid & Hmid & Hin).
    eapply reaches_trans; [apply (IHa Wa); exact Hmid
                          | apply (IHb Wb); exact Hin].
  - apply andb_true_iff in Hw as [Wa Wb].
    apply in_app_or in Hin as [Hin|Hin];
      [apply (IHa Wa) | apply (IHb Wb)]; exact Hin.
  - destruct (star_from_reaches P (ends ic a) (IHa Hw) _ _ _ Hin)
      as (cf0 & [<-|[]] & Hr). exact Hr.
  - destruct (fst cf); [contradiction|].
    destruct Hin as [<-|[]]. apply reaches_refl.
  - destruct (snd cf); [|contradiction].
    destruct Hin as [<-|[]]. apply reaches_refl.
  - destruct (xorb _ _); [|contradiction].
    destruct Hin as [<-|[]]. apply reaches_refl.
Qed.

Lemma ends_eol (ic : bool) (r : re) :
  ends_with_eol r = true ->
  forall cf cf', In cf' (ends ic r cf) -> snd cf' = [].
Proof.
  induction r as [|p|g|a IHa b IHb|a IHa b IHb|a IHa| | |];
    cbn [ends_with_eol ends]; intros He cf cf' Hin; try discriminate.
  - apply in_flat_map in Hin as (mid & _ & Hin). exact (IHb He _ _ Hin).
  - destruct (snd cf) eqn:E; [|contradiction].
    destruct Hin as [<-|[]]. exact E.
Qed.

(** A pattern anchored at both ends accepts only strings over its
    alphabet. *)
Lemma test_anchored_alphabet (rx : RegExp) (r : re) (P : ascii -> bool)
  (s : string) :
  source rx = Seq Bol r ->
  within_alphabet (ignoreCase rx) P r = true ->
  ends_with_eol r = true ->
  test rx s = true -> all_chars P s = true.
Proof.
  intros Hsrc Hw He Ht. unfold test in Ht.
  rewrite Hsrc, search_bol in Ht. unfold matches_at in Ht.
  cbn [ends fst flat_map] in Ht. rewrite app_nil_r in Ht.
  set (l := list_ascii_of_string s) in *.
  destruct (ends (ignoreCase rx) r (None, l)) as [|cf' rest] eqn:E;
    [discriminate|].
  assert (Hin : In cf' (ends (ignoreCase rx) r (None, l)))
    by (rewrite E; now left).
  destruct (ends_reaches _ P r Hw _ _ Hin) as (u & Hu & Pu).
  rewrite (ends_eol _ r He _ _ Hin), app_nil_r in Hu. cbn [snd] in Hu.
  rewrite all_chars_forallb. fold l. now rewrite Hu.
Qed.

Lemma all_chars_excludes (P : ascii -> bool) (c : ascii) (s : string) :
  all_chars P s = true -> P c = false -> includes c s = false.
Proof.
  intros H Hc. induction s as [|d s IH]; [reflexivity|].
  cbn [all_chars includes] in *. apply andb_true_iff in H as [Hd Hs].
  rewrite (IH Hs), orb_false_r.
  destruct (Ascii.eqb_spec d c) as [->|]; [congruence | reflexivity].
Qed.

(** X26.  What [validateInterval] and [validateOrderBy] let through.  An
    accepted interval is not blank and, once trimmed, is made of digits,
    letters and white space only; an accepted ORDER BY list, once
    trimmed, is made of word characters, double quotes, commas and white
    space only.  So neither can carry a single quote, a semicolon, a
    parenthesis or a dash into the statement it is put in. *)
Theorem accepted_alphabet (s : string) :
  (validateInterval s = Ok tt ->
   isBlank s = false /\ all_chars interval_char (trim s) = true) /\
  (validateOrderBy s = Ok tt -> all_chars orderBy_char (trim s) = true) /\
  (validateInterval s = Ok tt \/ validateOrderBy s = Ok tt ->
   forall c, In c ["'"; ";"; "("; ")"; "-"; "\"; "/"; "*"]%char ->
             includes c (trim s) = false).
Proof.
  assert (Hi : validateInterval s = Ok tt ->
               isBlank s = false /\
               all_chars interval_char (trim s) = true).
  { unfold validateInterval. intros H.
    destruct (falsy_string s || falsy_string (trim s)) eqn:G;
      [discriminate|].
    destruct (test validIntervalPattern (trim s)) eqn:T;
      [|discriminate].
    split.
    - destruct (isBlank s) eqn:B; [|reflexivity].
      rewrite (blank_guard s B) in G. discriminate.
    - apply (test_anchored_alphabet validIntervalPattern _ _ _ eq_refl);
        [vm_compute; reflexivity | reflexivity | exact T]. }
  assert (Ho : validateOrderBy s = Ok tt ->
               all_chars orderBy_char (trim s) = true).
  { unfold validateOrderBy. intros H.
    destruct (falsy_string s || falsy_string (trim s)) eqn:G.
    - apply guard_blank in G. now rewrite (trim_blank s G).
    - destruct (any_pattern WHERE_DANGEROUS_PATTERNS (trim s));
        [discriminate|].
      destruct (test validOrderPattern (trim s)) eqn:T; [|discriminate].
      apply (test_anchored_alphabet validOrderPattern _ _ _ eq_refl);
        [vm_compute; reflexivity | reflexivity | exact T]. }
  split; [exact Hi|]. split; [exact Ho|].
  intros [H|H] c Hc.
  - apply (all_chars_excludes interval_char); [apply (Hi H)|].
    cbn [In] in Hc.
    repeat (destruct Hc as [<-|Hc]; [reflexivity|]). contradiction.
  - apply (all_chars_excludes orderBy_char); [apply (Ho H)|].
    cbn [In] in Hc.
    repeat (destruct Hc as [<-|Hc]; [reflexivity|]). contradiction.
Qed.

Lemma accepted_alphabet_witness :
  all_chars interval_char (trim " 30 Minutes ") = true /\
  includes "'" (trim "created_at DESC, id") = false.
Proof.
  destruct (accepted_alphabet " 30 Minutes ") as (Hi & _ & _).
  destruct (accepted_alphabet "created_at DESC, id") as (_ & _ & Hx).
  split.
  - apply Hi. vm_compute. reflexivity.
  - apply Hx; [right; vm_compute; reflexivity | now left].
Defined.

End AlphabetProps.
